(** * go-pep440-version: PEP 440 versions and version specifiers

    A shallow embedding of [version.go] and [specifier.go] of
    github.com/rstudio/go-pep440-version, together with the properties of
    its specification.

    Go strings are byte strings: they are modelled by [string], whose
    characters ([ascii]) are the 256 byte values.  A Go function that
    returns [(T, error)] returns [option T] here ([None] is the error);
    a Go function that may panic returns [outcome T]. *)

From Stdlib Require Import List Bool Arith ZArith NArith Lia Ascii String.
From Stdlib Require Import Numbers.DecimalString Numbers.DecimalN Permutation.
Import ListNotations.

Set Implicit Arguments.

Local Open Scope string_scope.
Local Open Scope list_scope.

(* ================================================================== *)
(** * Panics *)

(** The result of a Go function that either returns a value or panics. *)
Inductive outcome (A : Type) : Type :=
| Val (a : A)
| Panic.

Arguments Val {A} a.
Arguments Panic {A}.

Definition obind {A B : Type} (m : outcome A) (f : A -> outcome B) : outcome B :=
  match m with
  | Val a => f a
  | Panic => Panic
  end.

Declare Scope outcome_scope.
Delimit Scope outcome_scope with outcome.
Notation "x <- m ;; k" := (obind m (fun x => k))
  (at level 61, m at next level, right associativity) : outcome_scope.
Local Open Scope outcome_scope.

(* ================================================================== *)
(** * The Go standard library functions the package calls *)

Module GoStrings.

(** Bytes as numbers. *)
Definition code (a : ascii) : N := N_of_ascii a.

Definition in_range (lo hi : N) (a : ascii) : bool :=
  (lo <=? code a)%N && (code a <=? hi)%N.

Definition is_digit (a : ascii) : bool := in_range 48 57 a.
Definition is_lower (a : ascii) : bool := in_range 97 122 a.
Definition is_upper (a : ascii) : bool := in_range 65 90 a.

(** [strings.HasPrefix], [strings.HasSuffix], [strings.TrimSuffix]. *)
Definition HasPrefix (s p : string) : bool := String.prefix p s.

Definition HasSuffix (s suffix : string) : bool :=
  (String.length suffix <=? String.length s)%nat &&
  String.eqb (substring (String.length s - String.length suffix)
                        (String.length suffix) s) suffix.

Definition TrimSuffix (s suffix : string) : string :=
  if HasSuffix s suffix
  then substring 0 (String.length s - String.length suffix) s
  else s.

(** [strings.Split(s, sep)] for a non-empty separator: the substrings
    between the occurrences of [sep], scanned from the left.  [skip]
    counts the bytes of a separator that is being stepped over, [cur]
    holds the current piece in reverse. *)
Fixpoint split_from (sep : string) (skip : nat) (cur : list ascii) (s : string)
  : list string :=
  match s with
  | EmptyString => [string_of_list_ascii (rev cur)]
  | String a s' =>
      match skip with
      | S n => split_from sep n cur s'
      | O =>
          if String.prefix sep s
          then string_of_list_ascii (rev cur)
                 :: split_from sep (String.length sep - 1) [] s'
          else split_from sep 0 (a :: cur) s'
      end
  end.

Definition Split (s sep : string) : list string := split_from sep 0 [] s.

(** [strings.SplitN(s, sep, 2)]: cut at the first occurrence of [sep]. *)
Fixpoint cut_from (sep : string) (cur : list ascii) (s : string) : list string :=
  match s with
  | EmptyString => [string_of_list_ascii (rev cur)]
  | String a s' =>
      if String.prefix sep s
      then [string_of_list_ascii (rev cur);
            substring (String.length sep) (String.length s) s]
      else cut_from sep (a :: cur) s'
  end.

Definition SplitN2 (s sep : string) : list string := cut_from sep [] s.

(** [strings.Join]. *)
Definition Join (elems : list string) (sep : string) : string :=
  String.concat sep elems.

(** [strings.Compare]: bytewise lexicographic comparison, as -1, 0, +1. *)
Definition Compare (a b : string) : Z :=
  match String.compare a b with
  | Lt => (-1)%Z
  | Eq => 0%Z
  | Gt => 1%Z
  end.

(** The two runes outside ASCII whose simple case folding reaches an
    ASCII letter: U+212A KELVIN SIGN (folds to k) and U+017F LATIN SMALL
    LETTER LONG S (folds to s), in UTF-8. *)
Definition kelvin : list ascii :=
  [ascii_of_N 226; ascii_of_N 132; ascii_of_N 170].
Definition long_s : list ascii :=
  [ascii_of_N 197; ascii_of_N 191].

Definition lower_byte (a : ascii) : ascii :=
  if is_upper a then ascii_of_N (code a + 32) else a.

(** [strings.ToLower] on the texts the package applies it to, which are
    captures of the version grammar: ASCII letters are lowered, the
    Kelvin sign becomes [k], every other byte is kept (the lower case of
    the long s is the long s itself). *)
Fixpoint lower_bytes (l : list ascii) : list ascii :=
  match l with
  | [] => []
  | a :: l' =>
      if (code a =? 226)%N then
        match l' with
        | b :: c :: l'' =>
            if ((code b =? 132) && (code c =? 170))%N
            then "k"%char :: lower_bytes l''
            else a :: lower_bytes l'
        | _ => a :: lower_bytes l'
        end
      else lower_byte a :: lower_bytes l'
  end.

Definition ToLower (s : string) : string :=
  string_of_list_ascii (lower_bytes (list_ascii_of_string s)).

(** The key under which [strings.EqualFold] compares: ASCII letters by
    their lower case, the Kelvin sign as [k], the long s as [s]. *)
Fixpoint fold_bytes (l : list ascii) : list ascii :=
  match l with
  | [] => []
  | a :: l' =>
      if (code a =? 226)%N then
        match l' with
        | b :: c :: l'' =>
            if ((code b =? 132) && (code c =? 170))%N
            then "k"%char :: fold_bytes l''
            else a :: fold_bytes l'
        | _ => a :: fold_bytes l'
        end
      else if (code a =? 197)%N then
        match l' with
        | b :: l'' =>
            if (code b =? 191)%N
            then "s"%char :: fold_bytes l''
            else a :: fold_bytes l'
        | _ => a :: fold_bytes l'
        end
      else lower_byte a :: fold_bytes l'
  end.

(** [strings.EqualFold] where one operand is a canonical version string
    (ASCII and long s only): equality under simple case folding. *)
Definition EqualFold (s t : string) : bool :=
  if list_eq_dec ascii_dec (fold_bytes (list_ascii_of_string s))
                           (fold_bytes (list_ascii_of_string t))
  then true else false.

(** Decimal rendering of a natural number ([%s] of a big integer and
    [strconv]'s digits). *)
Definition decimal (n : N) : string := NilZero.string_of_uint (N.to_uint n).

Definition parse_decimal (s : string) : option N :=
  option_map N.of_uint (NilZero.uint_of_string s).

(** [strconv.Atoi] on a 64-bit platform: an optional sign, then decimal
    digits, and the value must fit in an [int]. *)
Definition Atoi (s : string) : option Z :=
  let signed (neg : bool) (digits : string) :=
    match parse_decimal digits with
    | Some n =>
        let z := if neg then (- Z.of_N n)%Z else Z.of_N n in
        if ((- 2 ^ 63 <=? z) && (z <? 2 ^ 63))%Z then Some z else None
    | None => None
    end in
  match s with
  | String "+"%char d => signed false d
  | String "-"%char d => signed true d
  | _ => signed false s
  end.

End GoStrings.

Import GoStrings.

(* ================================================================== *)
(** * Regular expressions ([regexp])

    The package matches three anchored patterns with
    [FindStringSubmatch].  Go's matcher prefers, among the ways in which
    a pattern matches, the one a backtracking matcher finds first
    (leftmost-first); the patterns are anchored at both ends, so the
    match is the first way of matching the whole text.  [rmatch] is that
    backtracking matcher, in continuation-passing style. *)

Module Regexp.

Inductive regex : Type :=
| Eps                                  (* the empty pattern *)
| Cls (p : ascii -> bool)              (* one byte of a class *)
| Seq (r1 r2 : regex)                  (* r1 r2 *)
| Alt (r1 r2 : regex)                  (* r1|r2, r1 preferred *)
| Star (r : regex)                     (* r*, greedy *)
| Group (i : nat) (r : regex).         (* the i-th capturing group *)

(** The greedy option and the greedy non-empty repetition. *)
Definition Opt (r : regex) : regex := Alt r Eps.
Definition Plus (r : regex) : regex := Seq r (Star r).

(** The text captured by each group; a group that did not take part in
    the match holds the empty text, as in the result of
    [FindStringSubmatch]. *)
Definition caps : Type := nat -> list ascii.

Definition no_caps : caps := fun _ => [].

Definition set_cap (i : nat) (w : list ascii) (c : caps) : caps :=
  fun j => if Nat.eqb j i then w else c j.

Definition cont : Type := list ascii -> caps -> option caps.

(** The iterations of [r*]: every iteration must consume input, so
    [length s] iterations are enough. *)
Fixpoint star_loop (body : list ascii -> caps -> cont -> option caps)
         (fuel : nat) (s : list ascii) (c : caps) (k : cont) : option caps :=
  match fuel with
  | O => k s c
  | S n =>
      match body s c (fun s' c' =>
                        if (List.length s' <? List.length s)%nat
                        then star_loop body n s' c' k else None) with
      | Some x => Some x
      | None => k s c
      end
  end.

Fixpoint rmatch (r : regex) (s : list ascii) (c : caps) (k : cont)
  : option caps :=
  match r with
  | Eps => k s c
  | Cls p =>
      match s with
      | a :: s' => if p a then k s' c else None
      | [] => None
      end
  | Seq r1 r2 => rmatch r1 s c (fun s' c' => rmatch r2 s' c' k)
  | Alt r1 r2 =>
      match rmatch r1 s c k with
      | Some x => Some x
      | None => rmatch r2 s c k
      end
  | Star r' => star_loop (rmatch r') (List.length s) s c k
  | Group i r' =>
      rmatch r' s c
        (fun s' c' =>
           k s' (set_cap i (firstn (List.length s - List.length s') s) c'))
  end.

(** The end of the text. *)
Definition at_end : cont :=
  fun s c => match s with [] => Some c | _ :: _ => None end.

(** [re.FindStringSubmatch(s)] for an anchored pattern [r] with [n] groups:
    the whole match and the text of the groups 1..n, or [None] (nil). *)
Definition FindStringSubmatch (r : regex) (n : nat) (s : string)
  : option (list string) :=
  match rmatch (Group 0 r) (list_ascii_of_string s) no_caps at_end with
  | Some c => Some (map (fun i => string_of_list_ascii (c i)) (seq 0 (S n)))
  | None => None
  end.

(** Pattern atoms. *)
Definition chr (a : ascii) : regex := Cls (Ascii.eqb a).

Fixpoint bytes (l : list ascii) : regex :=
  match l with
  | [] => Eps
  | [a] => chr a
  | a :: l' => Seq (chr a) (bytes l')
  end.

Definition lit (s : string) : regex := bytes (list_ascii_of_string s).

Fixpoint alts (rs : list regex) : regex :=
  match rs with
  | [] => Cls (fun _ => false)
  | [r] => r
  | r :: rs' => Alt r (alts rs')
  end.

(** White space: tab, line feed, form feed, carriage return, space. *)
Definition is_space (a : ascii) : bool :=
  match code a with
  | 9%N | 10%N | 12%N | 13%N | 32%N => true
  | _ => false
  end.

(** Under the case-insensitivity flag a letter matches every rune of its case
    folding orbit: both ASCII cases, and for [k] and [s] also the Kelvin
    sign and the long s. *)
Definition same_letter (a b : ascii) : bool :=
  Ascii.eqb (lower_byte a) (lower_byte b).

Definition ci_chr (a : ascii) : regex :=
  if Ascii.eqb (lower_byte a) "k" then Alt (Cls (same_letter a)) (bytes kelvin)
  else if Ascii.eqb (lower_byte a) "s" then Alt (Cls (same_letter a)) (bytes long_s)
  else Cls (same_letter a).

Fixpoint ci_bytes (l : list ascii) : regex :=
  match l with
  | [] => Eps
  | [a] => ci_chr a
  | a :: l' => Seq (ci_chr a) (ci_bytes l')
  end.

Definition ci_lit (s : string) : regex := ci_bytes (list_ascii_of_string s).

(** The class of ASCII letters and digits under case folding. *)
Definition is_alnum (a : ascii) : bool :=
  is_digit a || is_lower a || is_upper a.

Definition ci_alnum : regex :=
  Alt (Cls is_alnum) (Alt (bytes kelvin) (bytes long_s)).

End Regexp.

Import Regexp.

(* ================================================================== *)
(** * The ordered values of package [part] *)

Module part.

(** The scalar types that implement the interface [Part]. *)
Definition BigInt : Type := N.
Definition String : Type := string.
Definition PreString : Type := string.

(** Modelled from the spec: package [part] of
    github.com/rstudio/go-version, which this repository imports and
    does not contain.  A [Part] is a tagged value in a total order: a
    concrete value (an integer, a string, or a [PreString], the string
    that sorts below the integers), the sentinels [NegativeInfinity] and
    [Infinity], or the sequence [Parts]. *)
#[local] Unset Elimination Schemes.
Inductive Part : Type :=
| of_BigInt (n : BigInt)
| of_String (s : String)
| of_PreString (s : PreString)
| Infinity
| NegativeInfinity
| of_Parts (ps : list Part).
#[local] Set Elimination Schemes.

Definition Parts : Type := list Part.

Definition Zero : BigInt := 0%N.

(** Modelled from the spec: [part.NewBigInt], which reads a run of
    decimal digits of any length as a non-negative integer and fails on
    every other text. *)
Definition NewBigInt (s : string) : option BigInt := parse_decimal s.

(** Modelled from the spec: [part.NewPreString]. *)
Definition NewPreString (s : string) : PreString := s.

(** Modelled from the spec: [BigInt.Compare] on two integers. *)
Definition BigInt_Compare (a b : BigInt) : Z :=
  match N.compare a b with
  | Lt => (-1)%Z
  | Eq => 0%Z
  | Gt => 1%Z
  end.

(** Modelled from the spec: [Compare] of the interface [Part].
    Integers compare numerically and strings bytewise; a [PreString]
    sorts below every integer and [String] above; [NegativeInfinity] is
    below and [Infinity] above every other value; two sequences compare
    element by element from the left, and when one runs out first, the
    shorter one is the smaller (no padding).  A scalar against a
    sequence, which [cmpkey] never produces, sorts above it. *)
Fixpoint Compare (p o : Part) {struct p} : Z :=
  match p, o with
  | Infinity, Infinity => 0
  | Infinity, _ => 1
  | NegativeInfinity, NegativeInfinity => 0
  | NegativeInfinity, _ => -1
  | _, Infinity => -1
  | _, NegativeInfinity => 1
  | of_BigInt a, of_BigInt b => BigInt_Compare a b
  | of_BigInt _, of_String _ => -1
  | of_BigInt _, of_PreString _ => 1
  | of_String _, of_BigInt _ => 1
  | of_PreString _, of_BigInt _ => -1
  | of_String a, of_String b => GoStrings.Compare a b
  | of_String a, of_PreString b => GoStrings.Compare a b
  | of_PreString a, of_String b => GoStrings.Compare a b
  | of_PreString a, of_PreString b => GoStrings.Compare a b
  | of_Parts ps, of_Parts os =>
      (fix zip (ps os : list Part) {struct ps} : Z :=
         match ps, os with
         | [], [] => 0
         | [], _ :: _ => -1
         | _ :: _, [] => 1
         | l :: ps', r :: os' =>
             match Compare l r with
             | 0 => zip ps' os'
             | result => result
             end
         end) ps os
  | of_Parts _, _ => -1
  | _, of_Parts _ => 1
  end%Z.

(** Modelled from the spec: [IsNull], the zero integer, the empty
    string, the empty sequence. *)
Definition IsNull (p : Part) : bool :=
  match p with
  | of_BigInt n => (n =? 0)%N
  | of_String s => String.eqb s ""
  | of_PreString s => String.eqb s ""
  | Infinity => false
  | NegativeInfinity => false
  | of_Parts ps => match ps with [] => true | _ :: _ => false end
  end.

(** Modelled from the spec: [part.BigIntSliceToParts]. *)
Definition BigIntSliceToParts (l : list BigInt) : Parts := map of_BigInt l.

(** Modelled from the spec: [Parts.Normalize] removes the trailing null
    elements (the trailing zeros of a release). *)
Fixpoint Normalize (ps : Parts) : Parts :=
  match ps with
  | [] => []
  | p :: ps' =>
      match Normalize ps' with
      | [] => if IsNull p then [] else [p]
      | q :: qs => p :: q :: qs
      end
  end.

(** Modelled from the spec: [Parts.Padding(size, padding)] appends
    [padding] until the sequence has [size] elements. *)
Definition Padding (ps : Parts) (size : nat) (padding : Part) : Parts :=
  ps ++ repeat padding (size - List.length ps).

End part.

(* ================================================================== *)
(** * version.go *)

(** [preReleaseAliases] and [postReleaseAliases]; a Go map yields the
    zero value, the empty string, for a key it does not hold. *)
Definition preReleaseAliases : list (string * string) :=
  [("a", "a"); ("alpha", "a"); ("b", "b"); ("beta", "b");
   ("rc", "rc"); ("c", "rc"); ("pre", "rc"); ("preview", "rc")].

Definition postReleaseAliases : list (string * string) :=
  [("post", "post"); ("rev", "post"); ("r", "post")].

Fixpoint map_index (m : list (string * string)) (k : string) : string :=
  match m with
  | [] => ""
  | (k', v) :: m' => if String.eqb k k' then v else map_index m' k
  end.


(** The raw pattern [regex] of the source. *)
Definition regex_source : string := String.concat "" [
  "v?";
  "(?:";
  "(?:(?P<epoch>[0-9]+)!)?";
  "(?P<release>[0-9]+(?:\.[0-9]+)*)";
  "(?P<pre>[-_\.]?(?P<pre_l>(a|b|c|rc|alpha|beta|pre|preview))[-_\.]?(?P<pre_n>[0-9]+)?)?";
  "(?P<post>(?:-(?P<post_n1>[0-9]+))|(?:[-_\.]?(?P<post_l>post|rev|r)[-_\.]?(?P<post_n2>[0-9]+)?))?";
  "(?P<dev>[-_\.]?(?P<dev_l>dev)[-_\.]?(?P<dev_n>[0-9]+)?)?)";
  "(?:\+(?P<local>[a-z0-9]+(?:[-_\.][a-z0-9]+)*))?"].

(** The same pattern as a [regex], piece by piece, with the groups
    numbered in the order of their opening parentheses. *)
Definition is_sep (a : ascii) : bool :=
  Ascii.eqb a "-" || Ascii.eqb a "_" || Ascii.eqb a ".".

Definition sep_opt : regex := Opt (Cls is_sep).
Definition digits : regex := Plus (Cls is_digit).

(** The epoch segment, group 1. *)
Definition epoch_re : regex := Opt (Seq (Group 1 digits) (chr "!")).

(** The release segment, group 2. *)
Definition release_re : regex :=
  Group 2 (Seq digits (Star (Seq (chr ".") digits))).

(** The pre-release segment: groups 3 (pre), 4 (pre_l), 5 (the unnamed
    group around the letters) and 6 (pre_n). *)
Definition pre_letters : regex :=
  alts [ci_lit "a"; ci_lit "b"; ci_lit "c"; ci_lit "rc"; ci_lit "alpha";
        ci_lit "beta"; ci_lit "pre"; ci_lit "preview"].

Definition pre_re : regex :=
  Opt (Group 3 (Seq sep_opt (Seq (Group 4 (Group 5 pre_letters))
                 (Seq sep_opt (Opt (Group 6 digits)))))).

(** The post-release segment: groups 7 (post), 8 (post_n1), 9 (post_l)
    and 10 (post_n2). *)
Definition post_letters : regex :=
  alts [ci_lit "post"; ci_lit "rev"; ci_lit "r"].

Definition post_re : regex :=
  Opt (Group 7 (Alt (Seq (chr "-") (Group 8 digits))
                    (Seq sep_opt (Seq (Group 9 post_letters)
                      (Seq sep_opt (Opt (Group 10 digits))))))).

(** The development segment: groups 11 (dev), 12 (dev_l), 13 (dev_n). *)
Definition dev_re : regex :=
  Opt (Group 11 (Seq sep_opt (Seq (Group 12 (ci_lit "dev"))
                  (Seq sep_opt (Opt (Group 13 digits)))))).

(** The local segment, group 14. *)
Definition local_body : regex :=
  Seq (Plus ci_alnum) (Star (Seq (Cls is_sep) (Plus ci_alnum))).

Definition local_re : regex := Opt (Seq (chr "+") (Group 14 local_body)).

(** [versionRegex], which [init] compiles from [regex] between the
    case-insensitivity flag, the anchors and optional white space. *)
Definition versionRegex : regex :=
  Seq (Star (Cls is_space))
   (Seq (Opt (ci_chr "v"))
    (Seq epoch_re (Seq release_re (Seq pre_re (Seq post_re (Seq dev_re
     (Seq local_re (Star (Cls is_space))))))))).

Definition versionRegex_NumSubexp : nat := 14.

(** [versionRegex.SubexpNames()]. *)
Definition versionRegex_SubexpNames : list string :=
  [""; "epoch"; "release"; "pre"; "pre_l"; ""; "pre_n"; "post"; "post_n1";
   "post_l"; "post_n2"; "dev"; "dev_l"; "dev_n"; "local"].


Record letterNumber : Type := mkLetterNumber {
  letter : part.String;
  number : part.BigInt
}.

Definition letterNumber_isNull (ln : letterNumber) : bool :=
  part.IsNull (part.of_String (letter ln)) &&
  part.IsNull (part.of_BigInt (number ln)).

Record key : Type := mkKey {
  key_epoch : part.BigInt;
  key_release : part.Parts;
  key_pre : part.Part;
  key_post : part.Part;
  key_dev : part.Part;
  key_local : part.Part
}.

Definition key_compare (k o : key) : Z :=
  let p1 := [part.of_BigInt (key_epoch k); part.of_Parts (key_release k);
             key_pre k; key_post k; key_dev k; key_local k] in
  let p2 := [part.of_BigInt (key_epoch o); part.of_Parts (key_release o);
             key_pre o; key_post o; key_dev o; key_local o] in
  part.Compare (part.of_Parts p1) (part.of_Parts p2).

Record Version : Type := mkVersion {
  epoch : part.BigInt;
  release : list part.BigInt;
  pre : letterNumber;
  post : letterNumber;
  dev : letterNumber;
  local : string;
  vkey : key;
  preReleaseIncluded : bool;
  original : string
}.

(** [cmpkey]. *)
Definition local_part (l : string) : part.Part :=
  match part.NewBigInt l with
  | Some p => part.of_BigInt p
  | None => part.of_PreString (part.NewPreString l)
  end.

Definition cmpkey (epoch : part.BigInt) (release : list part.BigInt)
           (pre post dev : letterNumber) (local : string) : key :=
  {| key_epoch := epoch;
     key_release := part.Normalize (part.BigIntSliceToParts release);
     key_pre :=
       if letterNumber_isNull pre && letterNumber_isNull post
          && negb (letterNumber_isNull dev)
       then part.NegativeInfinity
       else if letterNumber_isNull pre then part.Infinity
       else part.of_Parts [part.of_String (letter pre);
                           part.of_BigInt (number pre)];
     key_post :=
       if letterNumber_isNull post then part.NegativeInfinity
       else part.of_Parts [part.of_String (letter post);
                           part.of_BigInt (number post)];
     key_dev :=
       if letterNumber_isNull dev then part.Infinity
       else part.of_Parts [part.of_String (letter dev);
                           part.of_BigInt (number dev)];
     key_local :=
       if String.eqb local "" then part.NegativeInfinity
       else part.of_Parts (map local_part (Split local ".")) |}.

(** The variables that the loop of [Parse] assigns. *)
Record fields : Type := mkFields {
  f_epoch : part.BigInt;
  f_preN : part.BigInt;
  f_postN : part.BigInt;
  f_devN : part.BigInt;
  f_preL : part.String;
  f_postL : part.String;
  f_devL : part.String;
  f_release : list part.BigInt;
  f_local : string
}.

Definition fields_zero : fields :=
  mkFields part.Zero part.Zero part.Zero part.Zero "" "" "" [] "".

(** The release case: every dot-separated piece becomes an integer. *)
Fixpoint parse_release (release : list part.BigInt) (strs : list string)
  : option (list part.BigInt) :=
  match strs with
  | [] => Some release
  | str :: strs' =>
      match part.NewBigInt str with
      | Some val => parse_release (release ++ [val]) strs'
      | None => None
      end
  end.

(** One iteration of the loop over [versionRegex.SubexpNames()], for the
    group [name] with the matched text [m]; [None] is the error return. *)
Definition parse_group (f : fields) (name m : string) : option fields :=
  if String.eqb m "" then Some f
  else if String.eqb name "epoch" then
    option_map (fun n => mkFields n (f_preN f) (f_postN f) (f_devN f)
                  (f_preL f) (f_postL f) (f_devL f) (f_release f) (f_local f))
               (part.NewBigInt m)
  else if String.eqb name "release" then
    option_map (fun r => mkFields (f_epoch f) (f_preN f) (f_postN f) (f_devN f)
                  (f_preL f) (f_postL f) (f_devL f) r (f_local f))
               (parse_release (f_release f) (Split m "."))
  else if String.eqb name "pre_l" then
    Some (mkFields (f_epoch f) (f_preN f) (f_postN f) (f_devN f)
            (map_index preReleaseAliases (ToLower m))
            (f_postL f) (f_devL f) (f_release f) (f_local f))
  else if String.eqb name "pre_n" then
    option_map (fun n => mkFields (f_epoch f) n (f_postN f) (f_devN f)
                  (f_preL f) (f_postL f) (f_devL f) (f_release f) (f_local f))
               (part.NewBigInt m)
  else if String.eqb name "post_l" then
    Some (mkFields (f_epoch f) (f_preN f) (f_postN f) (f_devN f)
            (f_preL f) (map_index postReleaseAliases (ToLower m))
            (f_devL f) (f_release f) (f_local f))
  else if String.eqb name "post_n1" || String.eqb name "post_n2" then
    let postL := if String.eqb (f_postL f) "" then "post" else f_postL f in
    option_map (fun n => mkFields (f_epoch f) (f_preN f) n (f_devN f)
                  (f_preL f) postL (f_devL f) (f_release f) (f_local f))
               (part.NewBigInt m)
  else if String.eqb name "dev_l" then
    Some (mkFields (f_epoch f) (f_preN f) (f_postN f) (f_devN f)
            (f_preL f) (f_postL f) (ToLower m) (f_release f) (f_local f))
  else if String.eqb name "dev_n" then
    option_map (fun n => mkFields (f_epoch f) (f_preN f) (f_postN f) n
                  (f_preL f) (f_postL f) (f_devL f) (f_release f) (f_local f))
               (part.NewBigInt m)
  else if String.eqb name "local" then
    Some (mkFields (f_epoch f) (f_preN f) (f_postN f) (f_devN f)
            (f_preL f) (f_postL f) (f_devL f) (f_release f) (ToLower m))
  else Some f.

Fixpoint parse_groups (f : fields) (names matches : list string)
  : option fields :=
  match names, matches with
  | name :: names', m :: matches' =>
      match parse_group f name m with
      | Some f' => parse_groups f' names' matches'
      | None => None
      end
  | _, _ => Some f
  end.

(** [Parse]. *)
Definition Parse (v : string) : option Version :=
  match FindStringSubmatch versionRegex versionRegex_NumSubexp v with
  | None => None
  | Some matches =>
      match parse_groups fields_zero versionRegex_SubexpNames matches with
      | None => None
      | Some f =>
          let pre := mkLetterNumber (f_preL f) (f_preN f) in
          let post := mkLetterNumber (f_postL f) (f_postN f) in
          let dev := mkLetterNumber (f_devL f) (f_devN f) in
          Some {| epoch := f_epoch f;
                  release := f_release f;
                  pre := pre;
                  post := post;
                  dev := dev;
                  local := f_local f;
                  vkey := cmpkey (f_epoch f) (f_release f) pre post dev
                                 (f_local f);
                  preReleaseIncluded := false;
                  original := v |}
      end
  end.

(** [MustParse]. *)
Definition MustParse (v : string) : outcome Version :=
  match Parse v with
  | Some ver => Val ver
  | None => Panic
  end.

(** The part of [String] and [BaseVersion] that renders the epoch and
    the release; indexing [v.release[0]] panics on an empty release. *)
Definition render_base (v : Version) : outcome string :=
  match release v with
  | [] => Panic
  | r0 :: rs =>
      Val ((if (part.Compare (part.of_BigInt (epoch v))
                             (part.of_BigInt part.Zero) =? 1)%Z
            then decimal (epoch v) ++ "!" else "")
           ++ decimal r0
           ++ String.concat "" (map (fun r => "." ++ decimal r) rs))%string
  end.

(** [Version.String]. *)
Definition Version_String (v : Version) : outcome string :=
  base <- render_base v ;;
  Val (base
       ++ (if negb (letterNumber_isNull (pre v))
           then letter (pre v) ++ decimal (number (pre v)) else "")
       ++ (if negb (letterNumber_isNull (post v))
           then ".post" ++ decimal (number (post v)) else "")
       ++ (if negb (letterNumber_isNull (dev v))
           then ".dev" ++ decimal (number (dev v)) else "")
       ++ (if negb (String.eqb (local v) "")
           then "+" ++ local v else ""))%string.

(** [Version.Compare]. *)
Definition Version_Compare (v other : Version) : outcome Z :=
  s1 <- Version_String v ;;
  s2 <- Version_String other ;;
  if String.eqb s1 s2 then Val 0%Z
  else
    let k1 := vkey v in
    let k2 := vkey other in
    let k1 := mkKey (key_epoch k1)
                (part.Padding (key_release k1) (List.length (key_release k2))
                              (part.of_BigInt part.Zero))
                (key_pre k1) (key_post k1) (key_dev k1) (key_local k1) in
    let k2 := mkKey (key_epoch k2)
                (part.Padding (key_release k2) (List.length (key_release k2))
                              (part.of_BigInt part.Zero))
                (key_pre k2) (key_post k2) (key_dev k2) (key_local k2) in
    Val (key_compare k1 k2).

Definition Equal (v o : Version) : outcome bool :=
  c <- Version_Compare v o ;; Val (c =? 0)%Z.
Definition GreaterThan (v o : Version) : outcome bool :=
  c <- Version_Compare v o ;; Val (c >? 0)%Z.
Definition GreaterThanOrEqual (v o : Version) : outcome bool :=
  c <- Version_Compare v o ;; Val (c >=? 0)%Z.
Definition LessThan (v o : Version) : outcome bool :=
  c <- Version_Compare v o ;; Val (c <? 0)%Z.
Definition LessThanOrEqual (v o : Version) : outcome bool :=
  c <- Version_Compare v o ;; Val (c <=? 0)%Z.

(** [BaseVersion], [Original], [Local], [Public]. *)
Definition BaseVersion (v : Version) : outcome string := render_base v.

Definition Original (v : Version) : string := original v.

Definition Local (v : Version) : string := local v.

Definition Public (v : Version) : outcome string :=
  s <- Version_String v ;;
  match SplitN2 s "+" with
  | p :: _ => Val p
  | [] => Panic
  end.

(** [IsPreRelease], [IsPostRelease]. *)
Definition IsPreRelease (v : Version) : bool :=
  if preReleaseIncluded v then false
  else negb (letterNumber_isNull (pre v)) || negb (letterNumber_isNull (dev v)).

Definition IsPostRelease (v : Version) : bool :=
  negb (letterNumber_isNull (post v)).

(** [SortedVersions], a slice of versions with the methods of
    [sort.Interface].  The indices are Go integers; an index expression
    panics outside the slice. *)
Definition SortedVersions : Type := list Version.

(** The index expression [s[i]]. *)
Definition index (s : SortedVersions) (i : Z) : outcome Version :=
  if (i <? 0)%Z then Panic
  else match nth_error s (Z.to_nat i) with
       | Some v => Val v
       | None => Panic
       end.

(** The assignment [s[n] = v] to an element of the slice. *)
Fixpoint store (s : SortedVersions) (n : nat) (v : Version) : SortedVersions :=
  match s, n with
  | [], _ => []
  | _ :: s', O => v :: s'
  | a :: s', S n' => a :: store s' n' v
  end.

Definition Len (s : SortedVersions) : Z := Z.of_nat (List.length s).

Definition Less (s : SortedVersions) (i j : Z) : outcome bool :=
  a <- index s i ;;
  b <- index s j ;;
  LessThan a b.

(** [Swap]: in [s[i], s[j] = s[j], s[i]] both right-hand sides are read
    before the two assignments are carried out from left to right; the
    result is the content of the slice afterwards. *)
Definition Swap (s : SortedVersions) (i j : Z) : outcome SortedVersions :=
  vj <- index s j ;;
  vi <- index s i ;;
  Val (store (store s (Z.to_nat i) vj) (Z.to_nat j) vi).


(* ================================================================== *)
(** * specifier.go *)

(** The raw patterns of the source. *)
Definition specifierRegex_source : string :=
  "(?P<operator>(~=|===|==|!=|<=|>=|<|>))\s*(?P<version>[^\s]*)".

Definition prefixRegexp_source : string :=
  "^([0-9]+)((?:a|b|c|rc)[0-9]+)$".

(** [specifierRegexp]: group 1 is [operator], group 2 the unnamed group
    around the alternatives, group 3 is [version]. *)
Definition operator_re : regex :=
  alts [lit "~="; lit "==="; lit "=="; lit "!="; lit "<="; lit ">=";
        lit "<"; lit ">"].

Definition specifierRegexp : regex :=
  Seq (Star (Cls is_space))
   (Seq (Group 1 (Group 2 operator_re))
    (Seq (Star (Cls is_space))
     (Seq (Group 3 (Star (Cls (fun a => negb (is_space a)))))
          (Star (Cls is_space))))).

Definition specifierRegexp_NumSubexp : nat := 3.

(** [specifierRegexp.SubexpIndex]. *)
Definition specifierRegexp_SubexpIndex (name : string) : nat :=
  if String.eqb name "operator" then 1
  else if String.eqb name "version" then 3
  else 0.

(** [prefixRegexp] (case-sensitive): groups 1 and 2. *)
Definition prefixRegexp : regex :=
  Seq (Group 1 digits)
      (Group 2 (Seq (alts [lit "a"; lit "b"; lit "c"; lit "rc"]) digits)).

Definition prefixRegexp_NumSubexp : nat := 2.

(** A value of the function type [operatorFunc]. *)
Definition operatorFunc : Type := Version -> string -> outcome bool.

(** A [constraint]; [operator] is [None] for a nil function value,
    whose call panics. *)
Record constraint : Type := mkConstraint {
  c_version : string;
  c_operator : option operatorFunc;
  c_original : string
}.

Record Constraints : Type := mkConstraints {
  constraints : list (list constraint)
}.

(** [versionSplit]. *)
Fixpoint versionSplit_loop (result : list string) (vs : list string)
  : list string :=
  match vs with
  | [] => result
  | v :: vs' =>
      match FindStringSubmatch prefixRegexp prefixRegexp_NumSubexp v with
      | Some m => versionSplit_loop (result ++ tl m) vs'
      | None => versionSplit_loop (result ++ [v]) vs'
      end
  end.

Definition versionSplit (version : string) : list string :=
  versionSplit_loop [] (Split version ".").

(** [isDigist]. *)
Definition isDigist (s : string) : bool :=
  match Atoi s with
  | Some _ => true
  | None => false
  end.

(** The slice expression [l[n:]], which panics when [n] exceeds the
    length. *)
Definition slice_from (l : list string) (n : nat) : outcome (list string) :=
  if (n <=? List.length l)%nat then Val (skipn n l) else Panic.

(** The slice expression [l[:n]]. *)
Definition slice_to (l : list string) (n : nat) : outcome (list string) :=
  if (n <=? List.length l)%nat then Val (firstn n l) else Panic.

(** The loop [for i := 0; i < len(other)-len(rel); i++ { rel = append(rel, "0") }],
    whose bound is computed again after every append.  [fuel] bounds the
    number of iterations. *)
Fixpoint pad_loop (fuel : nat) (i : Z) (other : nat) (rel : list string)
  : list string :=
  match fuel with
  | O => rel
  | S fuel' =>
      if (i <? Z.of_nat other - Z.of_nat (List.length rel))%Z
      then pad_loop fuel' (i + 1)%Z other (rel ++ ["0"])
      else rel
  end.

(** [padVersion]. *)
Definition padVersion (left right : list string)
  : outcome (list string * list string) :=
  let leftRelease := filter isDigist left in
  let rightRelease := filter isDigist right in
  leftRest <- slice_from left (List.length leftRelease) ;;
  rightRest <- slice_from left (List.length rightRelease) ;;
  let rightRelease :=
    pad_loop (List.length leftRelease) 0 (List.length leftRelease) rightRelease in
  let leftRelease :=
    pad_loop (List.length rightRelease) 0 (List.length rightRelease) leftRelease in
  Val (leftRelease ++ leftRest, rightRelease ++ rightRest).

(** [reflect.DeepEqual] on two non-nil slices of strings. *)
Definition DeepEqual (a b : list string) : bool :=
  if list_eq_dec string_dec a b then true else false.

(** [specifierEqual]. *)
Definition specifierEqual (prospective : Version) (spec : string)
  : outcome bool :=
  if HasSuffix spec ".*" then
    pub <- Public prospective ;;
    prospective <- MustParse pub ;;
    let splitSpec := versionSplit (TrimSuffix spec ".*") in
    str <- Version_String prospective ;;
    let splitProspective := versionSplit str in
    splitProspective <-
      (if (List.length splitSpec <? List.length splitProspective)%nat
       then slice_to splitProspective (List.length splitSpec)
       else Val splitProspective) ;;
    padded <- padVersion splitSpec splitProspective ;;
    Val (DeepEqual (fst padded) (snd padded))
  else
    specVersion <- MustParse spec ;;
    prospective <-
      (if String.eqb (local specVersion) ""
       then pub <- Public prospective ;; MustParse pub
       else Val prospective) ;;
    Equal specVersion prospective.

(** [specifierNotEqual]. *)
Definition specifierNotEqual (prospective : Version) (spec : string)
  : outcome bool :=
  b <- specifierEqual prospective spec ;; Val (negb b).

(** The test [MustParse(prospective.BaseVersion()).Equal(MustParse(s.BaseVersion()))]
    shared by the strict comparisons. *)
Definition same_base (prospective s : Version) : outcome bool :=
  pb <- BaseVersion prospective ;;
  p <- MustParse pb ;;
  sb <- BaseVersion s ;;
  s' <- MustParse sb ;;
  Equal p s'.

(** [specifierLessThan]. *)
Definition specifierLessThan (prospective : Version) (spec : string)
  : outcome bool :=
  s <- MustParse spec ;;
  lt <- LessThan prospective s ;;
  if negb lt then Val false
  else if negb (IsPreRelease s) && IsPreRelease prospective then
    eq <- same_base prospective s ;;
    if eq then Val false else Val true
  else Val true.

(** [specifierGreaterThan]. *)
Definition specifierGreaterThan (prospective : Version) (spec : string)
  : outcome bool :=
  s <- MustParse spec ;;
  gt <- GreaterThan prospective s ;;
  if negb gt then Val false
  else
    excluded <-
      (if negb (IsPostRelease s) && IsPostRelease prospective
       then same_base prospective s else Val false) ;;
    if excluded then Val false
    else if negb (String.eqb (local prospective) "") then
      eq <- same_base prospective s ;;
      if eq then Val false else Val true
    else Val true.

(** [specifierArbitrary]. *)
Definition specifierArbitrary (prospective : Version) (spec : string)
  : outcome bool :=
  str <- Version_String prospective ;;
  Val (EqualFold str spec).

(** [specifierLessThanEqual]. *)
Definition specifierLessThanEqual (prospective : Version) (spec : string)
  : outcome bool :=
  pub <- Public prospective ;;
  p <- MustParse pub ;;
  s <- MustParse spec ;;
  LessThanOrEqual p s.

(** [specifierGreaterThanEqual]. *)
Definition specifierGreaterThanEqual (prospective : Version) (spec : string)
  : outcome bool :=
  pub <- Public prospective ;;
  p <- MustParse pub ;;
  s <- MustParse spec ;;
  GreaterThanOrEqual p s.

(** The loop of [specifierCompatible] that collects [prefixElements]
    up to the first post or dev token. *)
Fixpoint prefixElements_loop (prefixElements : list string) (ss : list string)
  : list string :=
  match ss with
  | [] => prefixElements
  | s :: ss' =>
      if HasPrefix s "post" || HasPrefix s "dev" then prefixElements
      else prefixElements_loop (prefixElements ++ [s]) ss'
  end.

(** [specifierCompatible]. *)
Definition specifierCompatible (prospective : Version) (spec : string)
  : outcome bool :=
  let prefixElements := prefixElements_loop [] (versionSplit spec) in
  init <-
    (match prefixElements with
     | [] => Panic
     | _ :: _ => slice_to prefixElements (List.length prefixElements - 1)
     end) ;;
  let prefix := Join init "." in
  let prefix := (prefix ++ ".*")%string in
  ge <- specifierGreaterThanEqual prospective spec ;;
  if ge then specifierEqual prospective prefix else Val false.

(** [specifierOperators]. *)
Definition specifierOperators (operator : string) : option operatorFunc :=
  if String.eqb operator "==" then Some specifierEqual
  else if String.eqb operator "!=" then Some specifierNotEqual
  else if String.eqb operator ">" then Some specifierGreaterThan
  else if String.eqb operator "<" then Some specifierLessThan
  else if String.eqb operator ">=" then Some specifierGreaterThanEqual
  else if String.eqb operator "<=" then Some specifierLessThanEqual
  else if String.eqb operator "===" then Some specifierArbitrary
  else if String.eqb operator "~=" then Some specifierCompatible
  else None.

(** [validate]; [None] is the nil error, [Some msg] an error. *)
Definition validate (operator version : string) : option string :=
  let hasWildcard := HasSuffix version ".*" in
  let version := if hasWildcard then TrimSuffix version ".*" else version in
  match Parse version with
  | None => Some "version parse error"
  | Some v =>
      if String.eqb operator "==" || String.eqb operator "!=" then
        if hasWildcard && (negb (letterNumber_isNull (dev v))
                           || negb (String.eqb (local v) ""))
        then Some "the (non)equality operators don't allow to use a wild card and a dev or local version together"
        else None
      else if String.eqb operator "~=" then
        if hasWildcard then Some "a wild card is not allowed"
        else if (List.length (release v) <? 2)%nat
        then Some "the compatible operator requires at least two digits in the release segment"
        else if negb (String.eqb (local v) "")
        then Some "local versions cannot be specified"
        else None
      else
        if hasWildcard then Some "a wild card is not allowed"
        else if negb (String.eqb (local v) "")
        then Some "local versions cannot be specified"
        else None
  end.

(** [newConstraint]. *)
Definition newConstraint (c : string) : option constraint :=
  match FindStringSubmatch specifierRegexp specifierRegexp_NumSubexp c with
  | None => None
  | Some m =>
      let operator := nth (specifierRegexp_SubexpIndex "operator") m "" in
      let version := nth (specifierRegexp_SubexpIndex "version") m "" in
      match (if negb (String.eqb operator "===")
             then validate operator version else None) with
      | Some _ => None
      | None => Some {| c_version := version;
                        c_operator := specifierOperators operator;
                        c_original := c |}
      end
  end.

(** [NewConstraints]: the inner loop over the clauses of one group, and
    the outer loop over the groups; the first error ends both. *)
Fixpoint newConstraints_group (cs : list constraint) (singles : list string)
  : option (list constraint) :=
  match singles with
  | [] => Some cs
  | single :: singles' =>
      match newConstraint single with
      | None => None
      | Some c => newConstraints_group (cs ++ [c]) singles'
      end
  end.

Fixpoint newConstraints_groups (css : list (list constraint))
         (vvs : list string) : option (list (list constraint)) :=
  match vvs with
  | [] => Some css
  | vv :: vvs' =>
      match newConstraints_group [] (Split vv ",") with
      | None => None
      | Some cs => newConstraints_groups (css ++ [cs]) vvs'
      end
  end.

Definition NewConstraints (v : string) : option Constraints :=
  match newConstraints_groups [] (Split v "||") with
  | None => None
  | Some css => Some {| constraints := css |}
  end.

(** [constraint.check]. *)
Definition check (c : constraint) (v : Version) : outcome bool :=
  match c_operator c with
  | Some operator => operator v (c_version c)
  | None => Panic
  end.

(** [andCheck]. *)
Fixpoint andCheck (v : Version) (constraints : list constraint)
  : outcome bool :=
  match constraints with
  | [] => Val true
  | c :: constraints' =>
      b <- check c v ;;
      if negb b then Val false else andCheck v constraints'
  end.

(** [Constraints.Check]. *)
Fixpoint Check_loop (css : list (list constraint)) (v : Version)
  : outcome bool :=
  match css with
  | [] => Val false
  | c :: css' =>
      b <- andCheck v c ;;
      if b then Val true else Check_loop css' v
  end.

Definition Check (cs : Constraints) (v : Version) : outcome bool :=
  Check_loop (constraints cs) v.

(* ================================================================== *)
(** * Definitions of the statements and of their proofs *)

(** The ways in which a pattern matches a text, with the captures before
    and after the match. *)
Inductive Sem : regex -> list ascii -> caps -> caps -> Prop :=
| Sem_Eps c : Sem Eps [] c c
| Sem_Cls p a c : p a = true -> Sem (Cls p) [a] c c
| Sem_Seq r1 r2 w1 w2 c c1 c2 :
    Sem r1 w1 c c1 -> Sem r2 w2 c1 c2 -> Sem (Seq r1 r2) (w1 ++ w2) c c2
| Sem_AltL r1 r2 w c c' : Sem r1 w c c' -> Sem (Alt r1 r2) w c c'
| Sem_AltR r1 r2 w c c' : Sem r2 w c c' -> Sem (Alt r1 r2) w c c'
| Sem_Star0 r c : Sem (Star r) [] c c
| Sem_StarS r w1 w2 c c1 c2 :
    w1 <> [] -> Sem r w1 c c1 -> Sem (Star r) w2 c1 c2 ->
    Sem (Star r) (w1 ++ w2) c c2
| Sem_Group i r w c c' :
    Sem r w c c' -> Sem (Group i r) w c (set_cap i w c').

(** [Accepts r w rest c c']: on the text [w ++ rest] the matcher's first
    way through [r] consumes [w] and leaves the captures [c'], whatever
    follows. *)
Definition Accepts (r : regex) (w rest : list ascii) (c c' : caps) : Prop :=
  forall (k : cont) (x : caps),
    k rest c' = Some x -> rmatch r (w ++ rest) c k = Some x.

(** [Rejects r s c]: no way through [r] starts the text [s]. *)
Definition Rejects (r : regex) (s : list ascii) (c : caps) : Prop :=
  forall k : cont, rmatch r s c k = None.

(** The iterations of a star, for any sufficient fuel. *)
Definition AcceptsLoop (r : regex) (w rest : list ascii) (c c' : caps) : Prop :=
  forall (n : nat) (k : cont) (x : caps),
    (List.length (w ++ rest) <= n)%nat ->
    k rest c' = Some x ->
    star_loop (rmatch r) n (w ++ rest) c k = Some x.

(** A run of bytes of one class is taken whole when the text after it
    does not go on in the class. *)
Definition stops (p : ascii -> bool) (rest : list ascii) : Prop :=
  match rest with
  | [] => True
  | a :: _ => p a = false
  end.

(** * Well-formed versions *)

(** A lowered letter or digit of a local segment: an ASCII digit or
    lower-case letter, or the long s. *)
Inductive latom : list ascii -> Prop :=
| latom_byte b : is_digit b || is_lower b = true -> latom [b]
| latom_long_s : latom long_s.

Inductive lrun : list ascii -> Prop :=
| lrun_one a : latom a -> lrun a
| lrun_cons a w : latom a -> lrun w -> lrun (a ++ w).

Inductive ltail : list ascii -> Prop :=
| ltail_nil : ltail []
| ltail_cons b w t : is_sep b = true -> lrun w -> ltail t -> ltail (b :: w ++ t).

(** The texts of a local segment that [Parse] stores. *)
Definition lshape (l : list ascii) : Prop :=
  exists w t, l = w ++ t /\ lrun w /\ ltail t.

Definition local_ok (l : string) : Prop :=
  l = "" \/ lshape (list_ascii_of_string l).

Definition pre_ok (ln : letterNumber) : Prop :=
  (letter ln = "" /\ number ln = 0%N) \/
  letter ln = "a" \/ letter ln = "b" \/ letter ln = "rc".

Definition post_ok (ln : letterNumber) : Prop :=
  (letter ln = "" /\ number ln = 0%N) \/ letter ln = "post".

Definition dev_ok (ln : letterNumber) : Prop :=
  (letter ln = "" /\ number ln = 0%N) \/ letter ln = "dev".

(** What [Parse] guarantees of the structured fields. *)
Record wfFields (release : list part.BigInt) (pre post dev : letterNumber)
       (local : string) : Prop := mkWfFields {
  wf_release : release <> [];
  wf_pre : pre_ok pre;
  wf_post : post_ok post;
  wf_dev : dev_ok dev;
  wf_local : local_ok local
}.

Record wfVersion (v : Version) : Prop := mkWfVersion {
  wf_fields : wfFields (release v) (pre v) (post v) (dev v) (local v);
  wf_key : vkey v = cmpkey (epoch v) (release v) (pre v) (post v) (dev v)
                           (local v);
  wf_included : preReleaseIncluded v = false
}.

(** The canonical text of the fields, as [String] writes it. *)
Definition render_release (r0 : part.BigInt) (rs : list part.BigInt) : string :=
  (decimal r0 ++ String.concat "" (map (fun r => "." ++ decimal r) rs))%string.

Definition render_epoch (epoch : part.BigInt) : string :=
  if (part.Compare (part.of_BigInt epoch) (part.of_BigInt part.Zero) =? 1)%Z
  then (decimal epoch ++ "!")%string else "".

Definition render_pre (pre : letterNumber) : string :=
  if negb (letterNumber_isNull pre)
  then (letter pre ++ decimal (number pre))%string else "".

Definition render_post (post : letterNumber) : string :=
  if negb (letterNumber_isNull post)
  then (".post" ++ decimal (number post))%string else "".

Definition render_dev (dev : letterNumber) : string :=
  if negb (letterNumber_isNull dev)
  then (".dev" ++ decimal (number dev))%string else "".

Definition render_local (local : string) : string :=
  if negb (String.eqb local "") then ("+" ++ local)%string else "".

Definition render (epoch : part.BigInt) (r0 : part.BigInt)
           (rs : list part.BigInt) (pre post dev : letterNumber)
           (local : string) : string :=
  ((render_epoch epoch ++ render_release r0 rs)
     ++ render_pre pre ++ render_post post ++ render_dev dev
     ++ render_local local)%string.

(** The version that [Parse] builds from the fields and the input. *)
Definition mkParsed (epoch : part.BigInt) (release : list part.BigInt)
           (pre post dev : letterNumber) (local original : string) : Version :=
  {| epoch := epoch; release := release; pre := pre; post := post;
     dev := dev; local := local;
     vkey := cmpkey epoch release pre post dev local;
     preReleaseIncluded := false; original := original |}.

Abbreviation L := list_ascii_of_string.

(** What may follow a segment of a canonical version text. *)
Inductive tail5 : list ascii -> Prop :=
| tail5_nil : tail5 []
| tail5_local t : tail5 ("+"%char :: t).

Inductive tail4 : list ascii -> Prop :=
| tail4_dev t : tail4 (L ".dev" ++ t)
| tail4_next r : tail5 r -> tail4 r.

Inductive tail3 : list ascii -> Prop :=
| tail3_post t : tail3 (L ".post" ++ t)
| tail3_next r : tail4 r -> tail3 r.

Inductive tail2 : list ascii -> Prop :=
| tail2_a t : tail2 (L "a" ++ t)
| tail2_b t : tail2 (L "b" ++ t)
| tail2_rc t : tail2 (L "rc" ++ t)
| tail2_next r : tail3 r -> tail2 r.

(** The release segment. *)
Definition L_release_rest (rs : list part.BigInt) : list ascii :=
  L (String.concat "" (map (fun r => ("." ++ decimal r)%string) rs)).

(** The bodies of the optional segments. *)
Definition pre_body : regex :=
  Group 3 (Seq sep_opt (Seq (Group 4 (Group 5 pre_letters))
            (Seq sep_opt (Opt (Group 6 digits))))).

Definition post_body : regex :=
  Group 7 (Alt (Seq (chr "-") (Group 8 digits))
               (Seq sep_opt (Seq (Group 9 post_letters)
                 (Seq sep_opt (Opt (Group 10 digits)))))).

Definition dev_body : regex :=
  Group 11 (Seq sep_opt (Seq (Group 12 (ci_lit "dev"))
             (Seq sep_opt (Opt (Group 13 digits))))).

Definition caps_pre (l : string) (n : N) (c : caps) : caps :=
  set_cap 3 (L l ++ L (decimal n))
    (set_cap 6 (L (decimal n)) (set_cap 4 (L l) (set_cap 5 (L l) c))).

Definition caps_post (n : N) (c : caps) : caps :=
  set_cap 7 (L ".post" ++ L (decimal n))
    (set_cap 10 (L (decimal n)) (set_cap 9 (L "post") c)).

Definition caps_dev (n : N) (c : caps) : caps :=
  set_cap 11 (L ".dev" ++ L (decimal n))
    (set_cap 13 (L (decimal n)) (set_cap 12 (L "dev") c)).

(** The text after a run of letters and digits: the end, or a separator. *)
Definition run_end (rest : list ascii) : Prop :=
  match rest with
  | [] => True
  | b :: _ => is_sep b = true
  end.

(** The epoch is written when it is positive. *)
Definition epoch_written (epoch : part.BigInt) : bool :=
  (part.Compare (part.of_BigInt epoch) (part.of_BigInt part.Zero) =? 1)%Z.

(** The captures of the first match of [versionRegex] on a canonical
    text. *)
Definition caps_of (epoch r0 : part.BigInt) (rs : list part.BigInt)
           (pre post dev : letterNumber) (local : string) : caps :=
  let c1 := if epoch_written epoch
            then set_cap 1 (L (decimal epoch)) no_caps else no_caps in
  let c2 := set_cap 2 (L (render_release r0 rs)) c1 in
  let c3 := if letterNumber_isNull pre then c2
            else caps_pre (letter pre) (number pre) c2 in
  let c4 := if letterNumber_isNull post then c3
            else caps_post (number post) c3 in
  let c5 := if letterNumber_isNull dev then c4
            else caps_dev (number dev) c4 in
  if String.eqb local "" then c5 else set_cap 14 (L local) c5.

(** The result of [FindStringSubmatch] on a canonical text. *)
Definition matches_of (epoch r0 : part.BigInt) (rs : list part.BigInt)
           (pre post dev : letterNumber) (local : string) : list string :=
  [render epoch r0 rs pre post dev local;
   if epoch_written epoch then decimal epoch else "";
   render_release r0 rs;
   render_pre pre;
   if letterNumber_isNull pre then "" else letter pre;
   if letterNumber_isNull pre then "" else letter pre;
   if letterNumber_isNull pre then "" else decimal (number pre);
   render_post post;
   "";
   if letterNumber_isNull post then "" else "post";
   if letterNumber_isNull post then "" else decimal (number post);
   render_dev dev;
   if letterNumber_isNull dev then "" else "dev";
   if letterNumber_isNull dev then "" else decimal (number dev);
   local].

(** Whether the group [i] occurs in a pattern. *)
Fixpoint has_group (i : nat) (r : regex) : bool :=
  match r with
  | Eps => false
  | Cls _ => false
  | Seq r1 r2 => has_group i r1 || has_group i r2
  | Alt r1 r2 => has_group i r1 || has_group i r2
  | Star r' => has_group i r'
  | Group j r' => Nat.eqb i j || has_group i r'
  end.

Fixpoint groupless (r : regex) : bool :=
  match r with
  | Eps => true
  | Cls _ => true
  | Seq r1 r2 => groupless r1 && groupless r2
  | Alt r1 r2 => groupless r1 && groupless r2
  | Star r' => groupless r'
  | Group _ _ => false
  end.

(** A letter whose case folding orbit is its two ASCII cases. *)
Definition plain_letter (a : ascii) : bool :=
  negb (Ascii.eqb (lower_byte a) "k") && negb (Ascii.eqb (lower_byte a) "s")
  && (code (lower_byte a) <? 128)%N.

Ltac inv_sem :=
  repeat match goal with
         | H : Sem (Seq _ _) _ _ _ |- _ => inversion H; subst; clear H
         | H : Sem (Alt _ _) _ _ _ |- _ => inversion H; subst; clear H
         | H : Sem (Group _ _) _ _ _ |- _ => inversion H; subst; clear H
         | H : Sem (Opt _) _ _ _ |- _ => inversion H; subst; clear H
         | H : Sem Eps _ _ _ |- _ => inversion H; subst; clear H
         | H : Sem (Cls _) _ _ _ |- _ => inversion H; subst; clear H
         end.

(** The letters of a pre-release are keys of [preReleaseAliases]. *)
Definition valid_pre (w : list ascii) : Prop :=
  let l := map_index preReleaseAliases (ToLower (string_of_list_ascii w)) in
  l = "a" \/ l = "b" \/ l = "rc".

(** What a match of [versionRegex] guarantees of the captured groups. *)
Record caps_ok (c : caps) : Prop := mkCapsOk {
  ok_release : c 2 <> [];
  ok_pre_n : c 4 = [] -> c 6 = [];
  ok_pre_l : c 4 <> [] -> valid_pre (c 4);
  ok_post : c 8 <> [] -> c 9 = [] /\ c 10 = [];
  ok_dev_n : c 12 = [] -> c 13 = [];
  ok_dev_l : c 12 <> [] -> ToLower (string_of_list_ascii (c 12)) = "dev";
  ok_local : c 14 = [] \/ lshape (lower_bytes (c 14))
}.

(** The absent pre-, post- or development release. *)
Definition null_ln : letterNumber := mkLetterNumber "" 0%N.

(** The public and the base version of a version, as versions. *)
Definition public_of (v : Version) : Version :=
  mkParsed (epoch v) (release v) (pre v) (post v) (dev v) ""
           (match release v with
            | [] => ""
            | r0 :: rs => render (epoch v) r0 rs (pre v) (post v) (dev v) ""
            end).

Definition base_of (v : Version) : Version :=
  mkParsed (epoch v) (release v) null_ln null_ln null_ln ""
           (match release v with
            | [] => ""
            | r0 :: rs => render (epoch v) r0 rs null_ln null_ln null_ln ""
            end).

(** * The order of the keys *)

(** The comparison of two sequences of parts. *)
Definition Parts_Compare (ps os : list part.Part) : Z :=
  part.Compare (part.of_Parts ps) (part.of_Parts os).

(** A set of parts on which [Compare] is the three-way comparison of a
    total preorder. *)
Record Comparator (S : part.Part -> Prop) : Prop := mkComparator {
  cmp_refl : forall x, S x -> part.Compare x x = 0%Z;
  cmp_opp : forall x y, S x -> S y -> part.Compare y x = (- part.Compare x y)%Z;
  cmp_range : forall x y, S x -> S y ->
      part.Compare x y = 0%Z \/ part.Compare x y = 1%Z
      \/ part.Compare x y = (-1)%Z;
  cmp_trans : forall x y z, S x -> S y -> S z ->
      part.Compare x y = (-1)%Z -> part.Compare y z = (-1)%Z ->
      part.Compare x z = (-1)%Z;
  cmp_congr : forall x y z, S x -> S y -> S z ->
      part.Compare x y = 0%Z -> part.Compare x z = part.Compare y z
}.

(** The sequences whose [i]-th element lies in [pos i]. *)
Fixpoint all_at (pos : nat -> part.Part -> Prop) (i : nat)
         (l : list part.Part) : Prop :=
  match l with
  | [] => True
  | x :: l' => pos i x /\ all_at pos (S i) l'
  end.

Definition PartsOf (pos : nat -> part.Part -> Prop) (p : part.Part) : Prop :=
  exists l, p = part.of_Parts l /\ all_at pos 0 l.

Definition IsInt (p : part.Part) : Prop := exists n, p = part.of_BigInt n.
Definition IsStr (p : part.Part) : Prop := exists s, p = part.of_String s.
Definition IsTok (p : part.Part) : Prop :=
  (exists n, p = part.of_BigInt n) \/ (exists s, p = part.of_PreString s).

Definition Ext (S : part.Part -> Prop) (p : part.Part) : Prop :=
  p = part.Infinity \/ p = part.NegativeInfinity \/ S p.

Definition pos_letterNumber (i : nat) : part.Part -> Prop :=
  match i with
  | O => IsStr
  | _ => IsInt
  end.

(** The sets in which the six components of a key lie. *)
Definition pos_key (i : nat) : part.Part -> Prop :=
  match i with
  | 0 => IsInt
  | 1 => PartsOf (fun _ => IsInt)
  | 2 | 3 | 4 => Ext (PartsOf pos_letterNumber)
  | _ => Ext (PartsOf (fun _ => IsTok))
  end.

Definition key_parts (k : key) : list part.Part :=
  [part.of_BigInt (key_epoch k); part.of_Parts (key_release k);
   key_pre k; key_post k; key_dev k; key_local k].

Definition cmp3 (c : comparison) : Z :=
  match c with
  | Lt => (-1)%Z
  | Eq => 0%Z
  | Gt => 1%Z
  end.

(** A release key: integers without trailing zeros. *)
Definition release_key (l : list part.Part) : Prop :=
  all_at (fun _ => IsInt) 0 l /\ part.Normalize l = l.

Definition zero_part : part.Part := part.of_BigInt part.Zero.

Definition is_cmpkey (k : key) : Prop :=
  exists e r p q d l, k = cmpkey e r p q d l.

(** The comparison of two keys after the padding of [Version.Compare]. *)
Definition padded_compare (k1 k2 : key) : Z :=
  key_compare
    (mkKey (key_epoch k1)
           (part.Padding (key_release k1) (List.length (key_release k2))
                         (part.of_BigInt part.Zero))
           (key_pre k1) (key_post k1) (key_dev k1) (key_local k1))
    (mkKey (key_epoch k2)
           (part.Padding (key_release k2) (List.length (key_release k2))
                         (part.of_BigInt part.Zero))
           (key_pre k2) (key_post k2) (key_dev k2) (key_local k2)).

(** A text without the sign that starts the local segment. *)
Definition no_plus (s : string) : Prop :=
  Forall (fun a => Ascii.eqb a "+" = false) (L s).

(** The first non-zero result of a sequence of comparisons. *)
Fixpoint lexicographic (cs : list Z) : Z :=
  match cs with
  | [] => 0%Z
  | c :: cs' => if (c =? 0)%Z then lexicographic cs' else c
  end.

(** [Compare] as the specification words it: equal canonical texts are
    equal versions; otherwise both release keys are padded with zeros to
    the length of the other, and the six components are compared in
    order. *)
Definition Compare_spec (v other : Version) : outcome Z :=
  s1 <- Version_String v ;;
  s2 <- Version_String other ;;
  if String.eqb s1 s2 then Val 0%Z
  else
    let k1 := vkey v in
    let k2 := vkey other in
    let r1 := part.Padding (key_release k1) (List.length (key_release k2))
                           (part.of_BigInt part.Zero) in
    let r2 := part.Padding (key_release k2) (List.length (key_release k1))
                           (part.of_BigInt part.Zero) in
    Val (lexicographic
           [part.Compare (part.of_BigInt (key_epoch k1))
                         (part.of_BigInt (key_epoch k2));
            part.Compare (part.of_Parts r1) (part.of_Parts r2);
            part.Compare (key_pre k1) (key_pre k2);
            part.Compare (key_post k1) (key_post k2);
            part.Compare (key_dev k1) (key_dev k2);
            part.Compare (key_local k1) (key_local k2)]).

(** The chain of the specification, in ascending order. *)
Definition ordering_chain : list string :=
  ["1.0.dev1"; "1.0a1"; "1.0a1.post1.dev1"; "1.0a1.post1"; "1.0b1";
   "1.0rc1"; "1.0"; "1.0.post1"; "1.1.dev1"].

Definition parsed_less (a b : string) : bool :=
  match Parse a, Parse b with
  | Some x, Some y =>
      match LessThan x y with
      | Val true => true
      | _ => false
      end
  | _, _ => false
  end.

(** Every element is less than every later one. *)
Fixpoint strictly_ascending (l : list string) : bool :=
  match l with
  | [] => true
  | a :: l' => forallb (parsed_less a) l' && strictly_ascending l'
  end.

(** The longest prefix of a list whose elements satisfy [p]. *)
Fixpoint take_while {A : Type} (p : A -> bool) (l : list A) : list A :=
  match l with
  | [] => []
  | x :: l' => if p x then x :: take_while p l' else []
  end.

(** The tokens of the release and of the pre-release of a version, as
    the specification counts them: one for each release number, then
    the pre-release as a token of its own.  The post-release and the
    development release are no such tokens, however they were
    written. *)
Definition release_and_pre_tokens (s : Version) : list string :=
  map decimal (release s)
  ++ (if letterNumber_isNull (pre s) then []
      else [(letter (pre s) ++ decimal (number (pre s)))%string]).

(** The prefix of a compatible-release clause as the specification words
    it: the release and pre-release tokens of the clause's version, post
    and dev tokens left out, without the last of them, joined by dots
    and followed by the wild card.  An epoch stays in front of the
    first token, where the version text has it. *)
Definition compatible_prefix_spec (s : Version) : string :=
  ((if (0 <? epoch s)%N then decimal (epoch s) ++ "!" else "")
   ++ Join (removelast (release_and_pre_tokens s)) "." ++ ".*")%string.

(** The compatible-release clause as the specification words it: the
    [>=] clause of the version together with the [==] clause of that
    prefix. *)
Definition compatible_spec (spec : string) (s : Version) : Constraints :=
  {| constraints :=
       [[mkConstraint spec (Some specifierGreaterThanEqual)
                      (">=" ++ spec)%string;
         mkConstraint (compatible_prefix_spec s) (Some specifierEqual)
                      ("==" ++ compatible_prefix_spec s)%string]] |}.

(** The constraints that [NewConstraints] builds for the expressions of
    the specification's examples. *)
Definition compatible_2_2 : Constraints :=
  {| constraints := [[mkConstraint "2.2" (Some specifierCompatible) "~=2.2"]] |}.

Definition at_least_2_2_and_2_any : Constraints :=
  {| constraints :=
       [[mkConstraint "2.2" (Some specifierGreaterThanEqual) ">=2.2";
         mkConstraint "2.*" (Some specifierEqual) "==2.*"]] |}.

Definition compatible_2_2_post3 : Constraints :=
  {| constraints :=
       [[mkConstraint "2.2.post3" (Some specifierCompatible) "~=2.2.post3"]] |}.

Definition at_least_2_2_post3_and_2_any : Constraints :=
  {| constraints :=
       [[mkConstraint "2.2.post3" (Some specifierGreaterThanEqual) ">=2.2.post3";
         mkConstraint "2.*" (Some specifierEqual) "==2.*"]] |}.

(** The constraints that [NewConstraints] builds for a compatible
    release clause whose post-release is written with the alias [rev],
    and for the pair of clauses with the prefix that [specifierCompatible]
    computes for it. *)
Definition compatible_2_2_rev3 : Constraints :=
  {| constraints :=
       [[mkConstraint "2.2.rev3" (Some specifierCompatible) "~=2.2.rev3"]] |}.

Definition at_least_2_2_rev3_and_2_2_any : Constraints :=
  {| constraints :=
       [[mkConstraint "2.2.rev3" (Some specifierGreaterThanEqual) ">=2.2.rev3";
         mkConstraint "2.2.*" (Some specifierEqual) "==2.2.*"]] |}.

(** The wildcard match as the specification words it: the numeric-only
    leading tokens of both sides are padded with zeros to one length,
    and each side keeps its own remaining tokens. *)
Definition padVersion_spec (left right : list string)
  : list string * list string :=
  let leftRelease := take_while isDigist left in
  let rightRelease := take_while isDigist right in
  let leftRest := skipn (List.length leftRelease) left in
  let rightRest := skipn (List.length rightRelease) right in
  (leftRelease
     ++ repeat "0" (List.length rightRelease - List.length leftRelease)
     ++ leftRest,
   rightRelease
     ++ repeat "0" (List.length leftRelease - List.length rightRelease)
     ++ rightRest).

Definition wildcard_match_spec (spec : string) (prospective : Version)
  : outcome bool :=
  pub <- Public prospective ;;
  prospective <- MustParse pub ;;
  str <- Version_String prospective ;;
  let splitSpec := versionSplit (TrimSuffix spec ".*") in
  let splitProspective := firstn (List.length splitSpec) (versionSplit str) in
  let padded := padVersion_spec splitSpec splitProspective in
  Val (DeepEqual (fst padded) (snd padded)).

(** A text without white space. *)
Definition no_space (s : string) : Prop :=
  Forall (fun a => is_space a = false) (L s).

(** The first byte of a token is neither [p] nor [d], so that the token
    starts neither with [post] nor with [dev]. *)
Definition head_not_pd (s : string) : bool :=
  match s with
  | EmptyString => true
  | String a _ => negb (Ascii.eqb a "p") && negb (Ascii.eqb a "d")
  end.

(** The operators of [specifierRegex]. *)
Definition operators : list string :=
  ["~="; "==="; "=="; "!="; "<="; ">="; "<"; ">"].

(** The version text of a constraint without a trailing wild card. *)
Definition stored_version (c : constraint) : string :=
  if HasSuffix (c_version c) ".*" then TrimSuffix (c_version c) ".*"
  else c_version c.

(** What construction establishes of a constraint: its check returns on
    every well-formed version, and unless its operator is [===] its
    version text parses once a trailing wild card is removed. *)
Definition safe (c : constraint) : Prop :=
  (forall v, wfVersion v -> exists b, check c v = Val b) /\
  (c_operator c = Some specifierArbitrary \/
   exists sv, Parse (stored_version c) = Some sv).

(** The constraints that [NewConstraints] builds for the expression
    [~=1.4.5a4, !=1.5.* || ===anything || >2.0.post1]. *)
Definition mixed_constraints : Constraints :=
  {| constraints :=
       [[mkConstraint "1.4.5a4" (Some specifierCompatible) "~=1.4.5a4";
         mkConstraint "1.5.*" (Some specifierNotEqual) " !=1.5.* "];
        [mkConstraint "anything" (Some specifierArbitrary) " ===anything "];
        [mkConstraint "2.0.post1" (Some specifierGreaterThan) " >2.0.post1"]] |}.

(** An index within the slice. *)
Definition within (s : SortedVersions) (i : Z) : Prop :=
  (0 <= i < Len s)%Z.

(** A run of white space. *)
Definition spaces (w : list ascii) : Prop :=
  Forall (fun a => is_space a = true) w.

(** The constraints of the clauses of one group, and of the groups of an
    expression, in their order. *)
Definition built_group (group : string) (cs : list constraint) : Prop :=
  Forall2 (fun clause c => newConstraint clause = Some c) (Split group ",") cs.

Definition built_groups (expr : string) (css : list (list constraint)) : Prop :=
  Forall2 built_group (Split expr "||") css.

(** The first byte of a version text: white space, the letter [v] in
    either case, or a digit. *)
Definition version_start (a : ascii) : bool :=
  is_space a || Ascii.eqb a "v" || Ascii.eqb a "V" || is_digit a.

(** Numbers that fit in an [int]. *)
Definition small (n : N) : Prop := (n < 2 ^ 63)%N.

(** [q] is the beginning of the release [r]. *)
Definition release_prefix (q r : list part.BigInt) : bool :=
  if list_eq_dec N.eq_dec (firstn (List.length q) r) q then true else false.

(** A byte with which an operator can start. *)
Definition operator_byte (a : ascii) : bool :=
  Ascii.eqb a "~" || Ascii.eqb a "=" || Ascii.eqb a "!"
  || Ascii.eqb a "<" || Ascii.eqb a ">".

(** The version pattern after the leading white space and the optional
    letter [v]. *)
Definition version_body : regex :=
  Seq epoch_re (Seq release_re (Seq pre_re (Seq post_re (Seq dev_re
   (Seq local_re (Star (Cls is_space))))))).

(** Two results of the matcher that are both failures, or both
    successes with captures in the relation [R]. *)
Definition related (R : caps -> caps -> Prop) (o o' : option caps) : Prop :=
  match o, o' with
  | Some x, Some x' => R x x'
  | None, None => True
  | _, _ => False
  end.

(** Captures that agree on every group but the whole match. *)
Definition agree (x x' : caps) : Prop := forall i, i <> 0%nat -> x i = x' i.

(* ================================================================== *)
(** * Properties *)

Section RegexpFacts.

Lemma firstn_app_length (w s : list ascii) :
  firstn (List.length (w ++ s) - List.length s) (w ++ s) = w.
Proof.
  rewrite length_app, Nat.add_sub.
  rewrite firstn_app, Nat.sub_diag, firstn_all. simpl. apply app_nil_r.
Qed.

Lemma star_loop_sound (body : list ascii -> caps -> cont -> option caps)
      (r : regex) :
  (forall s c k x, body s c k = Some x ->
     exists w s' c', s = w ++ s' /\ Sem r w c c' /\ k s' c' = Some x) ->
  forall n s c k x, star_loop body n s c k = Some x ->
    exists w s' c', s = w ++ s' /\ Sem (Star r) w c c' /\ k s' c' = Some x.
Proof.
  intros Hbody n. induction n as [|n IH]; intros s c k x H; simpl in H.
  - exists [], s, c. repeat split; auto. constructor.
  - destruct (body s c _) as [y|] eqn:E.
    + injection H as ->.
      apply Hbody in E. destruct E as (w1 & s1 & c1 & -> & Hw1 & Hk).
      destruct (List.length s1 <? List.length (w1 ++ s1))%nat eqn:L; [|discriminate].
      apply IH in Hk. destruct Hk as (w2 & s2 & c2 & -> & Hw2 & Hk).
      exists (w1 ++ w2), s2, c2. rewrite app_assoc. repeat split; auto.
      apply Sem_StarS with c1; auto.
      intros ->. simpl in L. apply Nat.ltb_lt in L. lia.
    + exists [], s, c. repeat split; auto. constructor.
Qed.

Lemma rmatch_sound (r : regex) :
  forall s c k x, rmatch r s c k = Some x ->
    exists w s' c', s = w ++ s' /\ Sem r w c c' /\ k s' c' = Some x.
Proof.
  induction r as [|p|r1 IH1 r2 IH2|r1 IH1 r2 IH2|r IH|i r IH];
    intros s c k x H; simpl in H.
  - exists [], s, c. repeat split; auto. constructor.
  - destruct s as [|a s]; [discriminate|].
    destruct (p a) eqn:E; [|discriminate].
    exists [a], s, c. repeat split; auto. constructor; auto.
  - apply IH1 in H. destruct H as (w1 & s1 & c1 & -> & H1 & H).
    apply IH2 in H. destruct H as (w2 & s2 & c2 & -> & H2 & H).
    exists (w1 ++ w2), s2, c2. rewrite app_assoc. repeat split; auto.
    econstructor; eauto.
  - destruct (rmatch r1 s c k) as [y|] eqn:E.
    + injection H as ->. apply IH1 in E.
      destruct E as (w & s' & c' & -> & H1 & H).
      exists w, s', c'. repeat split; auto. apply Sem_AltL; auto.
    + apply IH2 in H. destruct H as (w & s' & c' & -> & H1 & H).
      exists w, s', c'. repeat split; auto. apply Sem_AltR; auto.
  - eapply star_loop_sound; eauto.
  - apply IH in H. destruct H as (w & s' & c' & -> & H1 & H).
    rewrite firstn_app_length in H.
    exists w, s', (set_cap i w c'). repeat split; auto. constructor; auto.
Qed.

(** ** The calculus of first matches *)

Lemma Accepts_Eps rest c : Accepts Eps [] rest c c.
Proof. intros k x H. exact H. Qed.

Lemma Accepts_Cls p a rest c : p a = true -> Accepts (Cls p) [a] rest c c.
Proof. intros Hp k x H. simpl. rewrite Hp. exact H. Qed.

Lemma Accepts_Seq r1 r2 w1 w2 rest c c1 c2 :
  Accepts r1 w1 (w2 ++ rest) c c1 -> Accepts r2 w2 rest c1 c2 ->
  Accepts (Seq r1 r2) (w1 ++ w2) rest c c2.
Proof.
  intros H1 H2 k x H. simpl. rewrite <- app_assoc.
  apply H1. apply H2. exact H.
Qed.

Lemma Accepts_AltL r1 r2 w rest c c' :
  Accepts r1 w rest c c' -> Accepts (Alt r1 r2) w rest c c'.
Proof. intros H1 k x H. simpl. rewrite (H1 k x H). reflexivity. Qed.

Lemma Accepts_AltR r1 r2 w rest c c' :
  Rejects r1 (w ++ rest) c -> Accepts r2 w rest c c' ->
  Accepts (Alt r1 r2) w rest c c'.
Proof. intros H1 H2 k x H. simpl. rewrite H1. apply H2, H. Qed.

Lemma Accepts_Group i r w rest c c' :
  Accepts r w rest c c' -> Accepts (Group i r) w rest c (set_cap i w c').
Proof.
  intros H1 k x H. simpl. apply H1. rewrite firstn_app_length. exact H.
Qed.

Lemma Accepts_Opt_some r w rest c c' :
  Accepts r w rest c c' -> Accepts (Opt r) w rest c c'.
Proof. apply Accepts_AltL. Qed.

Lemma Accepts_Opt_none r rest c :
  Rejects r rest c -> Accepts (Opt r) [] rest c c.
Proof. intros H. apply Accepts_AltR; [exact H | apply Accepts_Eps]. Qed.

Lemma AcceptsLoop_stop r rest c :
  Rejects r rest c -> AcceptsLoop r [] rest c c.
Proof.
  intros H n k x _ Hk. destruct n; simpl; auto. rewrite H. exact Hk.
Qed.

Lemma AcceptsLoop_step r w1 w2 rest c c1 c2 :
  w1 <> [] ->
  Accepts r w1 (w2 ++ rest) c c1 -> AcceptsLoop r w2 rest c1 c2 ->
  AcceptsLoop r (w1 ++ w2) rest c c2.
Proof.
  intros Hne H1 H2 n k x Hn Hk.
  destruct n as [|n].
  - destruct w1; [congruence|]. simpl in Hn. lia.
  - simpl. rewrite <- app_assoc.
    erewrite H1; [reflexivity|].
    rewrite !length_app in *.
    replace (_ <? _)%nat with true.
    2:{ symmetry. apply Nat.ltb_lt. destruct w1; [congruence|]. simpl. lia. }
    apply H2; auto. rewrite length_app. destruct w1; [congruence|]. simpl in Hn. lia.
Qed.

Lemma Accepts_Star r w rest c c' :
  AcceptsLoop r w rest c c' -> Accepts (Star r) w rest c c'.
Proof. intros H k x Hk. simpl. apply H; auto. Qed.

Lemma Rejects_Cls p rest c : stops p rest -> Rejects (Cls p) rest c.
Proof.
  intros H k. destruct rest as [|a rest]; simpl; auto.
  simpl in H. rewrite H. reflexivity.
Qed.

Lemma AcceptsLoop_Cls p w rest c :
  Forall (fun a => p a = true) w -> stops p rest ->
  AcceptsLoop (Cls p) w rest c c.
Proof.
  intros Hw Hs. induction Hw as [|a w Ha Hw IH].
  - apply AcceptsLoop_stop. apply Rejects_Cls, Hs.
  - change (a :: w) with ([a] ++ w).
    apply AcceptsLoop_step with c; auto; [discriminate|].
    apply Accepts_Cls, Ha.
Qed.

Lemma Accepts_Star_Cls p w rest c :
  Forall (fun a => p a = true) w -> stops p rest ->
  Accepts (Star (Cls p)) w rest c c.
Proof. intros. apply Accepts_Star, AcceptsLoop_Cls; auto. Qed.

Lemma Accepts_Plus_Cls p w rest c :
  w <> [] -> Forall (fun a => p a = true) w -> stops p rest ->
  Accepts (Plus (Cls p)) w rest c c.
Proof.
  intros Hne Hw Hs. destruct w as [|a w]; [congruence|].
  inversion Hw; subst.
  change (a :: w) with ([a] ++ w).
  apply Accepts_Seq with c; [apply Accepts_Cls; auto|].
  apply Accepts_Star_Cls; auto.
Qed.

(** Rejection. *)
Lemma Rejects_Seq_l r1 r2 s c : Rejects r1 s c -> Rejects (Seq r1 r2) s c.
Proof. intros H k. simpl. apply H. Qed.

Lemma Rejects_Alt r1 r2 s c :
  Rejects r1 s c -> Rejects r2 s c -> Rejects (Alt r1 r2) s c.
Proof. intros H1 H2 k. simpl. rewrite H1. apply H2. Qed.

Lemma Rejects_Group i r s c : Rejects r s c -> Rejects (Group i r) s c.
Proof. intros H k. simpl. apply H. Qed.

End RegexpFacts.

Section StringFacts.

Lemma list_of_app (a b : string) :
  list_ascii_of_string (a ++ b)%string
  = list_ascii_of_string a ++ list_ascii_of_string b.
Proof. induction a; simpl; congruence. Qed.

Lemma string_of_app (a b : list ascii) :
  string_of_list_ascii (a ++ b)
  = (string_of_list_ascii a ++ string_of_list_ascii b)%string.
Proof. induction a; simpl; congruence. Qed.

Lemma list_of_inj (a b : string) :
  list_ascii_of_string a = list_ascii_of_string b -> a = b.
Proof.
  intros H. rewrite <- (string_of_list_ascii_of_string a),
              <- (string_of_list_ascii_of_string b). congruence.
Qed.

Lemma string_app_assoc (a b c : string) :
  ((a ++ b) ++ c = a ++ (b ++ c))%string.
Proof. induction a; simpl; congruence. Qed.

Lemma string_app_nil_r (a : string) : (a ++ "")%string = a.
Proof. induction a; simpl; congruence. Qed.

Lemma eqb_empty_list (w : list ascii) :
  String.eqb (string_of_list_ascii w) "" = match w with [] => true | _ => false end.
Proof. destruct w; reflexivity. Qed.

(** Decimal numerals. *)
Lemma uint_digits (d : Decimal.uint) :
  Forall (fun a => is_digit a = true)
         (list_ascii_of_string (NilEmpty.string_of_uint d)).
Proof. induction d; simpl; constructor; auto. Qed.

Lemma decimal_digits (n : N) :
  Forall (fun a => is_digit a = true) (list_ascii_of_string (decimal n)).
Proof.
  unfold decimal, NilZero.string_of_uint.
  destruct (N.to_uint n) as [|u|u|u|u|u|u|u|u|u|u];
    [apply (uint_digits (Decimal.D0 Decimal.Nil)) | ..];
    match goal with |- context [NilEmpty.string_of_uint ?d] => apply (uint_digits d) end.
Qed.

Lemma decimal_nonempty (n : N) : decimal n <> "".
Proof.
  unfold decimal, NilZero.string_of_uint.
  destruct (N.to_uint n); simpl; discriminate.
Qed.

Lemma decimal_list_nonempty (n : N) : list_ascii_of_string (decimal n) <> [].
Proof.
  intros H. apply (decimal_nonempty n). apply list_of_inj. exact H.
Qed.

Lemma parse_decimal_decimal (n : N) : parse_decimal (decimal n) = Some n.
Proof.
  unfold parse_decimal, decimal.
  pose proof (Unsigned.of_to n) as Hn.
  destruct (N.to_uint n) as [|u|u|u|u|u|u|u|u|u|u];
    [simpl in *; congruence | ..];
    rewrite NilZero.usu by discriminate; simpl; f_equal; exact Hn.
Qed.

Lemma NewBigInt_decimal (n : N) : part.NewBigInt (decimal n) = Some n.
Proof. apply parse_decimal_decimal. Qed.

Lemma decimal_eqb_empty (n : N) : String.eqb (decimal n) "" = false.
Proof. apply String.eqb_neq, decimal_nonempty. Qed.

End StringFacts.

Section FirstMatch.

#[local] Arguments Ascii.eqb : simpl never.

Ltac inv_tail H :=
  repeat match goal with
         | H : tail2 _ |- _ => inversion H; subst; clear H
         | H : tail3 _ |- _ => inversion H; subst; clear H
         | H : tail4 _ |- _ => inversion H; subst; clear H
         | H : tail5 _ |- _ => inversion H; subst; clear H
         end.

Lemma tail2_stops_digit r : tail2 r -> stops is_digit r.
Proof. intros H. inv_tail H; simpl; auto. Qed.

Lemma tail2_stops_bang r : tail2 r -> stops (Ascii.eqb "!") r.
Proof. intros H. inv_tail H; simpl; auto. Qed.

Lemma tail2_dot r t : tail2 r -> r = "."%char :: t -> stops is_digit t.
Proof. intros H E. subst r. inv_tail H; simpl; auto. Qed.

Lemma tail3_tail2 r : tail3 r -> tail2 r.
Proof. apply tail2_next. Qed.

Lemma Accepts_digits n rest c :
  stops is_digit rest -> Accepts digits (L (decimal n)) rest c c.
Proof.
  intros H. apply Accepts_Plus_Cls; auto.
  - apply decimal_list_nonempty.
  - apply decimal_digits.
Qed.

(** A run of digits that is not followed by [!] is no epoch. *)
Lemma star_loop_digits_reject w rest (k : cont) :
  Forall (fun a => is_digit a = true) w ->
  (forall w', Forall (fun a => is_digit a = true) w' ->
              forall c', k (w' ++ rest) c' = None) ->
  stops is_digit rest ->
  forall n c', star_loop (rmatch (Cls is_digit)) n (w ++ rest) c' k = None.
Proof.
  intros Hw. induction Hw as [|a w Ha Hw IH]; intros Hk Hs n c'.
  - destruct n; simpl; [apply (Hk []); constructor|].
    destruct rest as [|b rest]; simpl; [apply (Hk []); constructor|].
    simpl in Hs. rewrite Hs. apply (Hk []); constructor.
  - destruct n; simpl; [apply (Hk (a :: w)); constructor; auto|].
    rewrite Ha.
    replace (_ <? _)%nat with true by (symmetry; apply Nat.ltb_lt; lia).
    rewrite IH; auto. apply (Hk (a :: w)). constructor; auto.
Qed.

Lemma Rejects_epoch n rest c :
  stops is_digit rest -> stops (Ascii.eqb "!") rest ->
  Rejects (Seq (Group 1 digits) (chr "!")) (L (decimal n) ++ rest) c.
Proof.
  intros Hd Hb k.
  pose proof (decimal_digits n) as Hn.
  pose proof (decimal_list_nonempty n) as Hne.
  destruct (L (decimal n)) as [|a w]; [congruence|].
  inversion Hn as [|? ? Ha Hw]; subst.
  simpl. rewrite Ha.
  apply star_loop_digits_reject; auto.
  intros w' Hw' c'.
  destruct w' as [|b w']; simpl.
  - destruct rest as [|b rest]; auto. simpl in Hb. rewrite Hb. reflexivity.
  - inversion Hw'; subst.
    destruct (Ascii.eqb_spec "!"%char b); auto. subst. discriminate.
Qed.

Lemma L_concat_cons (x : string) (l : list string) :
  L (String.concat "" (x :: l)) = L x ++ L (String.concat "" l).
Proof.
  destruct l as [|y l].
  - simpl. rewrite app_nil_r. reflexivity.
  - cbn [String.concat]. rewrite !list_of_app. reflexivity.
Qed.

Lemma L_release_rest_cons r rs :
  L_release_rest (r :: rs) = ("."%char :: L (decimal r)) ++ L_release_rest rs.
Proof.
  unfold L_release_rest. cbn [map]. rewrite L_concat_cons. reflexivity.
Qed.

Lemma release_rest_stops rs rest :
  stops is_digit rest -> stops is_digit (L_release_rest rs ++ rest).
Proof.
  intros H. destruct rs; [exact H|].
  rewrite L_release_rest_cons. simpl. reflexivity.
Qed.

Lemma release_rest_no_bang rs rest :
  stops (Ascii.eqb "!") rest -> stops (Ascii.eqb "!") (L_release_rest rs ++ rest).
Proof.
  intros H. destruct rs; [exact H|].
  rewrite L_release_rest_cons. simpl. reflexivity.
Qed.

Lemma AcceptsLoop_release rs rest c :
  tail2 rest ->
  AcceptsLoop (Seq (chr ".") digits) (L_release_rest rs) rest c c.
Proof.
  intros Ht. induction rs as [|r rs IH].
  - apply AcceptsLoop_stop. intros k.
    destruct rest as [|a rest]; [reflexivity|].
    simpl. destruct (Ascii.eqb_spec "."%char a); [subst|reflexivity].
    pose proof (tail2_dot Ht eq_refl) as Hs.
    destruct rest as [|b rest]; [reflexivity|]. simpl in Hs. rewrite Hs. reflexivity.
  - rewrite L_release_rest_cons.
    apply AcceptsLoop_step with c; auto; [discriminate|].
    change ("."%char :: L (decimal r)) with (["."%char] ++ L (decimal r)).
    apply Accepts_Seq with c.
    + apply Accepts_Cls. reflexivity.
    + apply Accepts_digits. apply release_rest_stops, tail2_stops_digit, Ht.
Qed.

Lemma L_render_release r0 rs :
  L (render_release r0 rs) = L (decimal r0) ++ L_release_rest rs.
Proof. unfold render_release. rewrite list_of_app. reflexivity. Qed.

Lemma Accepts_release r0 rs rest c :
  tail2 rest ->
  Accepts release_re (L (render_release r0 rs)) rest c
          (set_cap 2 (L (render_release r0 rs)) c).
Proof.
  intros Ht. apply Accepts_Group. rewrite L_render_release.
  apply Accepts_Seq with c.
  - apply Accepts_digits, release_rest_stops, tail2_stops_digit, Ht.
  - apply Accepts_Star, AcceptsLoop_release, Ht.
Qed.

End FirstMatch.

Section FirstMatchSegments.

#[local] Arguments Ascii.eqb : simpl never.

Ltac inv_tail :=
  repeat match goal with
         | H : tail2 _ |- _ => inversion H; subst; clear H
         | H : tail3 _ |- _ => inversion H; subst; clear H
         | H : tail4 _ |- _ => inversion H; subst; clear H
         | H : tail5 _ |- _ => inversion H; subst; clear H
         end.

Lemma digit_not_sep a : is_digit a = true -> is_sep a = false.
Proof.
  destruct a as [[] [] [] [] [] [] [] []]; vm_compute; congruence.
Qed.

Lemma stops_sep_decimal n rest : stops is_sep (L (decimal n) ++ rest).
Proof.
  pose proof (decimal_digits n) as Hn.
  pose proof (decimal_list_nonempty n) as Hne.
  destruct (L (decimal n)) as [|a w]; [congruence|].
  inversion Hn; subst. simpl. apply digit_not_sep; auto.
Qed.

Lemma Accepts_sep_none_decimal n rest c :
  Accepts sep_opt [] (L (decimal n) ++ rest) c c.
Proof. apply Accepts_Opt_none, Rejects_Cls, stops_sep_decimal. Qed.

Lemma Accepts_opt_number i n rest c :
  stops is_digit rest ->
  Accepts (Opt (Group i digits)) (L (decimal n)) rest c
          (set_cap i (L (decimal n)) c).
Proof. intros H. apply Accepts_Opt_some, Accepts_Group, Accepts_digits, H. Qed.

Lemma tail3_stops_digit r : tail3 r -> stops is_digit r.
Proof. intros H. apply tail2_stops_digit, tail2_next, H. Qed.

Lemma tail4_stops_digit r : tail4 r -> stops is_digit r.
Proof. intros H. apply tail3_stops_digit, tail3_next, H. Qed.

Lemma tail5_stops_digit r : tail5 r -> stops is_digit r.
Proof. intros H. apply tail4_stops_digit, tail4_next, H. Qed.

(** The pre-release segment. *)
Lemma Rejects_pre rest c : tail3 rest -> Rejects pre_body rest c.
Proof. intros H k. inv_tail; reflexivity. Qed.

Lemma Accepts_pre_letters l rest c :
  l = "a" \/ l = "b" \/ l = "rc" -> Accepts pre_letters (L l) rest c c.
Proof.
  intros [-> | [-> | ->]] k x H; simpl; rewrite H; reflexivity.
Qed.

Lemma stops_sep_letter l t :
  l = "a" \/ l = "b" \/ l = "rc" -> stops is_sep (L l ++ t).
Proof. intros [-> | [-> | ->]]; reflexivity. Qed.

Lemma Accepts_pre l n rest c :
  l = "a" \/ l = "b" \/ l = "rc" -> tail3 rest ->
  Accepts pre_re (L l ++ L (decimal n)) rest c (caps_pre l n c).
Proof.
  intros Hl Ht. apply Accepts_Opt_some. unfold caps_pre. apply Accepts_Group.
  change (L l ++ L (decimal n)) with ([] ++ (L l ++ L (decimal n))).
  apply Accepts_Seq with c.
  { apply Accepts_Opt_none, Rejects_Cls. rewrite <- app_assoc.
    apply stops_sep_letter, Hl. }
  apply Accepts_Seq with (set_cap 4 (L l) (set_cap 5 (L l) c)).
  { do 2 apply Accepts_Group. apply Accepts_pre_letters, Hl. }
  change (L (decimal n)) with ([] ++ L (decimal n)) at 1.
  apply Accepts_Seq with (set_cap 4 (L l) (set_cap 5 (L l) c)).
  { apply Accepts_sep_none_decimal. }
  apply Accepts_opt_number, tail3_stops_digit, Ht.
Qed.

(** The post-release segment. *)
Lemma Rejects_post rest c : tail4 rest -> Rejects post_body rest c.
Proof. intros H k. inv_tail; reflexivity. Qed.

Lemma Accepts_post n rest c :
  tail4 rest ->
  Accepts post_re (L ".post" ++ L (decimal n)) rest c (caps_post n c).
Proof.
  intros Ht. apply Accepts_Opt_some. unfold caps_post. apply Accepts_Group.
  apply Accepts_AltR.
  { intros k. reflexivity. }
  change (L ".post" ++ L (decimal n))
    with (["."%char] ++ (L "post" ++ L (decimal n))).
  apply Accepts_Seq with c.
  { apply Accepts_Opt_some, Accepts_Cls. reflexivity. }
  apply Accepts_Seq with (set_cap 9 (L "post") c).
  { apply Accepts_Group. intros k x H. simpl. rewrite H. reflexivity. }
  change (L (decimal n)) with ([] ++ L (decimal n)) at 1.
  apply Accepts_Seq with (set_cap 9 (L "post") c).
  { apply Accepts_sep_none_decimal. }
  apply Accepts_opt_number, tail4_stops_digit, Ht.
Qed.

(** The development segment. *)
Lemma Rejects_dev rest c : tail5 rest -> Rejects dev_body rest c.
Proof. intros H k. inv_tail; reflexivity. Qed.

Lemma Accepts_dev n rest c :
  tail5 rest ->
  Accepts dev_re (L ".dev" ++ L (decimal n)) rest c (caps_dev n c).
Proof.
  intros Ht. apply Accepts_Opt_some. unfold caps_dev. apply Accepts_Group.
  change (L ".dev" ++ L (decimal n))
    with (["."%char] ++ (L "dev" ++ L (decimal n))).
  apply Accepts_Seq with c.
  { apply Accepts_Opt_some, Accepts_Cls. reflexivity. }
  apply Accepts_Seq with (set_cap 12 (L "dev") c).
  { apply Accepts_Group. intros k x H. simpl. rewrite H. reflexivity. }
  change (L (decimal n)) with ([] ++ L (decimal n)) at 1.
  apply Accepts_Seq with (set_cap 12 (L "dev") c).
  { apply Accepts_sep_none_decimal. }
  apply Accepts_opt_number, tail5_stops_digit, Ht.
Qed.

(** The local segment. *)
Lemma is_sep_cases b : is_sep b = true -> b = "-"%char \/ b = "_"%char \/ b = "."%char.
Proof.
  unfold is_sep. intros H.
  destruct (Ascii.eqb_spec b "-"); auto.
  destruct (Ascii.eqb_spec b "_"); auto.
  destruct (Ascii.eqb_spec b "."); auto. discriminate.
Qed.

Lemma latom_nonempty a : latom a -> a <> [].
Proof. intros [b Hb|]; discriminate. Qed.

Lemma lrun_nonempty w : lrun w -> w <> [].
Proof.
  intros H. induction H as [a Ha|a w Ha Hw IH].
  - apply latom_nonempty, Ha.
  - intros E. apply app_eq_nil in E. destruct E as [E _].
    revert E. apply latom_nonempty, Ha.
Qed.

Lemma digit_or_lower_alnum b : is_digit b || is_lower b = true -> is_alnum b = true.
Proof.
  unfold is_alnum. intros H. rewrite H. reflexivity.
Qed.

Lemma Accepts_latom a rest c : latom a -> Accepts ci_alnum a rest c c.
Proof.
  intros [b Hb|].
  - apply Accepts_AltL, Accepts_Cls, digit_or_lower_alnum, Hb.
  - intros k x H. simpl. rewrite H. reflexivity.
Qed.

Lemma Rejects_alnum_run_end rest c : run_end rest -> Rejects ci_alnum rest c.
Proof.
  intros H k. destruct rest as [|b rest]; [reflexivity|].
  simpl in H. apply is_sep_cases in H. destruct H as [-> | [-> | ->]]; reflexivity.
Qed.

Lemma AcceptsLoop_lrun w rest c :
  lrun w -> run_end rest -> AcceptsLoop ci_alnum w rest c c.
Proof.
  intros Hw Hr. induction Hw as [a Ha|a w Ha Hw IH].
  - rewrite <- (app_nil_r a).
    apply AcceptsLoop_step with c.
    + apply latom_nonempty, Ha.
    + apply Accepts_latom, Ha.
    + apply AcceptsLoop_stop, Rejects_alnum_run_end, Hr.
  - apply AcceptsLoop_step with c; auto.
    + apply latom_nonempty, Ha.
    + apply Accepts_latom, Ha.
Qed.

Lemma Accepts_lrun w rest c :
  lrun w -> run_end rest -> Accepts (Plus ci_alnum) w rest c c.
Proof.
  intros Hw Hr. inversion Hw as [a Ha|a w' Ha Hw']; subst.
  - rewrite <- (app_nil_r w).
    apply Accepts_Seq with c; [apply Accepts_latom, Ha|].
    apply Accepts_Star, AcceptsLoop_stop, Rejects_alnum_run_end, Hr.
  - apply Accepts_Seq with c; [apply Accepts_latom, Ha|].
    apply Accepts_Star, AcceptsLoop_lrun; auto.
Qed.

Lemma ltail_run_end t : ltail t -> run_end t.
Proof. intros [|b w t' Hb _ _]; simpl; auto. Qed.

Lemma AcceptsLoop_ltail t c :
  ltail t -> AcceptsLoop (Seq (Cls is_sep) (Plus ci_alnum)) t [] c c.
Proof.
  intros Ht. induction Ht as [|b w t Hb Hw Ht IH].
  - apply AcceptsLoop_stop. intros k. reflexivity.
  - change (b :: w ++ t) with ((b :: w) ++ t).
    apply AcceptsLoop_step with c; auto; [discriminate|].
    change (b :: w) with ([b] ++ w).
    apply Accepts_Seq with c; [apply Accepts_Cls, Hb|].
    apply Accepts_lrun; auto. rewrite app_nil_r. apply ltail_run_end, Ht.
Qed.

Lemma Accepts_local_body l c : lshape l -> Accepts local_body l [] c c.
Proof.
  intros (w & t & -> & Hw & Ht).
  apply Accepts_Seq with c.
  - apply Accepts_lrun; auto. rewrite app_nil_r. apply ltail_run_end, Ht.
  - apply Accepts_Star, AcceptsLoop_ltail, Ht.
Qed.

Lemma Accepts_local l c :
  lshape l ->
  Accepts local_re ("+"%char :: l) [] c (set_cap 14 l c).
Proof.
  intros Hl. apply Accepts_Opt_some.
  change ("+"%char :: l) with (["+"%char] ++ l).
  apply Accepts_Seq with c; [apply Accepts_Cls; reflexivity|].
  apply Accepts_Group, Accepts_local_body, Hl.
Qed.

(** Lowering leaves a stored local segment as it is. *)
Lemma lowered_byte b :
  is_digit b || is_lower b = true ->
  (code b =? 226)%N = false /\ lower_byte b = b.
Proof.
  destruct b as [[] [] [] [] [] [] [] []]; vm_compute; intros H;
    first [discriminate H | split; reflexivity].
Qed.

Lemma lower_latom a t : latom a -> lower_bytes (a ++ t) = a ++ lower_bytes t.
Proof.
  intros [b Hb|]; [|reflexivity].
  destruct (lowered_byte b Hb) as [E1 E2].
  cbn [app lower_bytes]. rewrite E1, E2. reflexivity.
Qed.

Lemma lower_lrun w t : lrun w -> lower_bytes (w ++ t) = w ++ lower_bytes t.
Proof.
  intros H. induction H as [a Ha|a w Ha Hw IH].
  - apply lower_latom, Ha.
  - rewrite <- !app_assoc, lower_latom, IH by auto. reflexivity.
Qed.

Lemma lower_ltail t : ltail t -> lower_bytes t = t.
Proof.
  intros H. induction H as [|b w t Hb Hw Ht IH]; [reflexivity|].
  change (b :: w ++ t) with ([b] ++ (w ++ t)).
  assert (E : forall u, lower_bytes ([b] ++ u) = b :: lower_bytes u).
  { intros u. apply is_sep_cases in Hb. destruct Hb as [-> | [-> | ->]]; reflexivity. }
  rewrite E, lower_lrun, IH by auto. reflexivity.
Qed.

Lemma lower_lshape l : lshape l -> lower_bytes l = l.
Proof.
  intros (w & t & -> & Hw & Ht). rewrite lower_lrun, lower_ltail; auto.
Qed.

End FirstMatchSegments.

Section CanonicalText.

Lemma pre_cases pre :
  pre_ok pre ->
  (letterNumber_isNull pre = true /\ letter pre = "" /\ number pre = 0%N) \/
  (letterNumber_isNull pre = false /\
   (letter pre = "a" \/ letter pre = "b" \/ letter pre = "rc")).
Proof.
  destruct pre as [l n]. unfold pre_ok, letterNumber_isNull. simpl.
  intros [[-> ->] | [-> | [-> | ->]]]; auto.
Qed.

Lemma post_cases post :
  post_ok post ->
  (letterNumber_isNull post = true /\ letter post = "" /\ number post = 0%N) \/
  (letterNumber_isNull post = false /\ letter post = "post").
Proof.
  destruct post as [l n]. unfold post_ok, letterNumber_isNull. simpl.
  intros [[-> ->] | ->]; auto.
Qed.

Lemma dev_cases dev :
  dev_ok dev ->
  (letterNumber_isNull dev = true /\ letter dev = "" /\ number dev = 0%N) \/
  (letterNumber_isNull dev = false /\ letter dev = "dev").
Proof.
  destruct dev as [l n]. unfold dev_ok, letterNumber_isNull. simpl.
  intros [[-> ->] | ->]; auto.
Qed.

Lemma lshape_nonempty l : lshape l -> l <> [].
Proof.
  intros (w & t & -> & Hw & _) E. apply app_eq_nil in E.
  destruct E as [E _]. revert E. apply lrun_nonempty, Hw.
Qed.

Lemma local_cases local :
  local_ok local ->
  local = "" \/ (String.eqb local "" = false /\ lshape (L local)).
Proof.
  intros [->|H]; auto. right. split; auto.
  apply String.eqb_neq. intros ->. apply lshape_nonempty in H. apply H. reflexivity.
Qed.

Lemma epoch_written_false e : epoch_written e = false -> e = 0%N.
Proof.
  unfold epoch_written, part.Zero. simpl. unfold part.BigInt_Compare.
  destruct (N.compare_spec e 0); auto; try discriminate. lia.
Qed.

(** The tails of a canonical text. *)
Lemma tail5_render_local local : local_ok local -> tail5 (L (render_local local)).
Proof.
  intros H. apply local_cases in H. unfold render_local.
  destruct H as [-> | [E _]]; [constructor|]. rewrite E. simpl. constructor.
Qed.

Lemma tail4_render_dev dev r : dev_ok dev -> tail5 r -> tail4 (L (render_dev dev) ++ r).
Proof.
  intros H Hr. apply dev_cases in H. unfold render_dev.
  destruct H as [(E & _) | (E & _)]; rewrite E; simpl.
  - apply tail4_next, Hr.
  - apply (tail4_dev (L (decimal (number dev)) ++ r)).
Qed.

Lemma tail3_render_post post r : post_ok post -> tail4 r -> tail3 (L (render_post post) ++ r).
Proof.
  intros H Hr. apply post_cases in H. unfold render_post.
  destruct H as [(E & _) | (E & _)]; rewrite E; simpl.
  - apply tail3_next, Hr.
  - apply (tail3_post (L (decimal (number post)) ++ r)).
Qed.

Lemma tail2_render_pre pre r : pre_ok pre -> tail3 r -> tail2 (L (render_pre pre) ++ r).
Proof.
  intros H Hr. apply pre_cases in H. unfold render_pre.
  destruct H as [(E & _) | (E & Hl)]; rewrite E; simpl.
  - apply tail2_next, Hr.
  - rewrite list_of_app, <- app_assoc.
    destruct Hl as [-> | [-> | ->]]; constructor.
Qed.

Lemma Accepts_versionRegex epoch r0 rs pre post dev local :
  wfFields (r0 :: rs) pre post dev local ->
  Accepts versionRegex (L (render epoch r0 rs pre post dev local)) []
          no_caps (caps_of epoch r0 rs pre post dev local).
Proof.
  intros [_ Hpre Hpost Hdev Hlocal].
  pose proof (tail5_render_local Hlocal) as T5.
  pose proof (tail4_render_dev Hdev T5) as T4.
  pose proof (tail3_render_post Hpost T4) as T3.
  pose proof (tail2_render_pre Hpre T3) as T2.
  unfold render. rewrite !list_of_app.
  set (lE := L (render_epoch epoch)) in *.
  set (lR := L (render_release r0 rs)) in *.
  set (lP := L (render_pre pre)) in *.
  set (lPo := L (render_post post)) in *.
  set (lD := L (render_dev dev)) in *.
  set (lL := L (render_local local)) in *.
  unfold caps_of. fold lR.
  set (c1 := if epoch_written epoch then _ else _).
  set (c2 := set_cap 2 lR c1).
  set (c3 := if letterNumber_isNull pre then _ else _).
  set (c4 := if letterNumber_isNull post then _ else _).
  set (c5 := if letterNumber_isNull dev then _ else _).
  set (c6 := if String.eqb local "" then _ else _).
  assert (HlR : exists a u, lR = a :: u /\ is_digit a = true).
  { subst lR. rewrite L_render_release.
    pose proof (decimal_digits r0) as Hn.
    pose proof (decimal_list_nonempty r0) as Hne.
    destruct (L (decimal r0)) as [|a w]; [congruence|].
    inversion Hn; subst. exists a. eexists. split; [reflexivity|auto]. }
  assert (Hfirst : exists a u, (lE ++ lR) ++ lP ++ lPo ++ lD ++ lL = a :: u
                               /\ is_digit a = true).
  { destruct HlR as (a & u & E & Ha). subst lE. unfold render_epoch.
    destruct (part.Compare _ _ =? 1)%Z.
    - rewrite list_of_app.
      pose proof (decimal_digits epoch) as Hn.
      pose proof (decimal_list_nonempty epoch) as Hne.
      destruct (L (decimal epoch)) as [|b w]; [congruence|].
      inversion Hn; subst. exists b. eexists. split; [reflexivity|auto].
    - rewrite E. exists a. eexists. split; [reflexivity|auto]. }
  unfold versionRegex.
  change ((lE ++ lR) ++ lP ++ lPo ++ lD ++ lL)
    with ([] ++ ((lE ++ lR) ++ lP ++ lPo ++ lD ++ lL)).
  apply Accepts_Seq with no_caps.
  { apply Accepts_Star_Cls; [constructor|]. rewrite app_nil_r.
    destruct Hfirst as (a & u & -> & Ha). simpl.
    revert Ha. destruct a as [[] [] [] [] [] [] [] []]; vm_compute; congruence. }
  change ((lE ++ lR) ++ lP ++ lPo ++ lD ++ lL)
    with ([] ++ ((lE ++ lR) ++ lP ++ lPo ++ lD ++ lL)).
  apply Accepts_Seq with no_caps.
  { apply Accepts_Opt_none. rewrite app_nil_r.
    destruct Hfirst as (a & u & -> & Ha). intros k. simpl.
    revert Ha. destruct a as [[] [] [] [] [] [] [] []]; vm_compute; congruence. }
  rewrite <- app_assoc.
  apply Accepts_Seq with c1.
  { rewrite app_nil_r. subst lE c1. unfold render_epoch. fold (epoch_written epoch).
    destruct (epoch_written epoch).
    - apply Accepts_Opt_some. rewrite list_of_app.
      apply Accepts_Seq with (set_cap 1 (L (decimal epoch)) no_caps).
      + apply Accepts_Group, Accepts_digits. reflexivity.
      + apply Accepts_Cls. reflexivity.
    - apply Accepts_Opt_none. simpl. subst lR. rewrite L_render_release, <- app_assoc.
      apply Rejects_epoch.
      + apply release_rest_stops, tail2_stops_digit, T2.
      + apply release_rest_no_bang, tail2_stops_bang, T2. }
  apply Accepts_Seq with c2.
  { rewrite app_nil_r. apply Accepts_release, T2. }
  apply Accepts_Seq with c3.
  { rewrite app_nil_r. subst lP c3. unfold render_pre.
    destruct (pre_cases Hpre) as [(E & _) | (E & Hl)]; rewrite E; simpl.
    - apply Accepts_Opt_none. apply (@Rejects_pre _ c2), T3.
    - rewrite list_of_app. apply Accepts_pre; auto. }
  apply Accepts_Seq with c4.
  { rewrite app_nil_r. subst lPo c4. unfold render_post.
    destruct (post_cases Hpost) as [(E & _) | (E & Hl)]; rewrite E; simpl negb; cbv iota.
    - apply Accepts_Opt_none. apply (@Rejects_post _ c3), T4.
    - rewrite list_of_app. apply Accepts_post; auto. }
  apply Accepts_Seq with c5.
  { rewrite app_nil_r. subst lD c5. unfold render_dev.
    destruct (dev_cases Hdev) as [(E & _) | (E & Hl)]; rewrite E; simpl negb; cbv iota.
    - apply Accepts_Opt_none. apply (@Rejects_dev _ c4), T5.
    - rewrite list_of_app. apply Accepts_dev; auto. }
  rewrite <- (app_nil_r lL).
  apply Accepts_Seq with c6.
  { subst lL c6. unfold render_local.
    destruct (local_cases Hlocal) as [-> | (E & Hl)].
    - simpl. apply Accepts_Opt_none. intros k. reflexivity.
    - rewrite E. simpl negb. cbv iota. apply Accepts_local, Hl. }
  apply Accepts_Star_Cls; simpl; auto.
Qed.

End CanonicalText.

Section ParseCanonical.

Lemma FindStringSubmatch_render epoch r0 rs pre post dev local :
  wfFields (r0 :: rs) pre post dev local ->
  FindStringSubmatch versionRegex versionRegex_NumSubexp
                     (render epoch r0 rs pre post dev local)
  = Some (matches_of epoch r0 rs pre post dev local).
Proof.
  intros Hwf. unfold FindStringSubmatch.
  pose proof (Accepts_Group 0 (Accepts_versionRegex epoch Hwf)) as H.
  rewrite <- (app_nil_r (L (render epoch r0 rs pre post dev local))) at 1.
  rewrite (H at_end _ eq_refl). f_equal.
  unfold matches_of, caps_of, versionRegex_NumSubexp, render_pre, render_post, render_dev.
  destruct Hwf as [_ Hpre Hpost Hdev Hlocal].
  destruct (local_cases Hlocal) as [-> | (El & _)]; [|rewrite El];
  destruct (epoch_written epoch);
  destruct (letterNumber_isNull pre);
  destruct (letterNumber_isNull post);
  destruct (letterNumber_isNull dev);
  cbv [map seq set_cap caps_pre caps_post caps_dev no_caps Nat.eqb negb String.eqb];
  rewrite <- ?list_of_app, ?string_of_list_ascii_of_string; reflexivity.
Qed.

(** The loop of [Parse] on these groups. *)
Lemma parse_group_empty f name : parse_group f name "" = Some f.
Proof. reflexivity. Qed.

Lemma parse_group_ignored f name m :
  name = "" \/ name = "pre" \/ name = "post" \/ name = "dev" ->
  parse_group f name m = Some f.
Proof.
  intros [-> | [-> | [-> | ->]]]; unfold parse_group;
    destruct (String.eqb m ""); reflexivity.
Qed.

Lemma parse_release_decimal acc (l : list part.BigInt) :
  parse_release acc (map decimal l) = Some (acc ++ l).
Proof.
  revert acc. induction l as [|n l IH]; intros acc; simpl.
  - rewrite app_nil_r. reflexivity.
  - rewrite NewBigInt_decimal, IH, <- app_assoc. reflexivity.
Qed.

(** Splitting a canonical release at its dots. *)
Lemma prefix_dot_digit a s :
  is_digit a = true -> String.prefix "." (String a s) = false.
Proof.
  destruct a as [[] [] [] [] [] [] [] []]; vm_compute; congruence.
Qed.

Lemma prefix_dot_dot s : String.prefix "." (String "." s) = true.
Proof. destruct s; reflexivity. Qed.

Lemma split_from_digits (d : string) cur (s : string) :
  Forall (fun a => is_digit a = true) (L d) ->
  split_from "." 0 cur (d ++ s)%string
  = split_from "." 0 (rev (L d) ++ cur) s.
Proof.
  revert cur. induction d as [|a d IH]; intros cur H; [reflexivity|].
  inversion H; subst. cbn [append split_from].
  rewrite prefix_dot_digit by auto.
  rewrite IH by auto. cbn [L rev]. rewrite <- app_assoc. reflexivity.
Qed.

Lemma split_from_decimal n (s : string) :
  split_from "." 0 [] (decimal n ++ s)%string
  = split_from "." 0 (rev (L (decimal n))) s.
Proof.
  rewrite split_from_digits by apply decimal_digits.
  rewrite app_nil_r. reflexivity.
Qed.

Lemma concat_empty_cons (x : string) (l : list string) :
  String.concat "" (x :: l) = (x ++ String.concat "" l)%string.
Proof.
  destruct l as [|y l]; [simpl; rewrite string_app_nil_r|]; reflexivity.
Qed.

Lemma Split_release_rest n rs :
  split_from "." 0 (rev (L (decimal n)))
             (String.concat "" (map (fun r => ("." ++ decimal r)%string) rs))
  = map decimal (n :: rs).
Proof.
  revert n. induction rs as [|r rs IH]; intros n.
  - simpl. rewrite rev_involutive, string_of_list_ascii_of_string. reflexivity.
  - assert (E : String.concat "" (map (fun r => ("." ++ decimal r)%string) (r :: rs))
                = ("." ++ (decimal r ++ String.concat ""
                             (map (fun r => ("." ++ decimal r)%string) rs)))%string).
    { cbn [map]. rewrite concat_empty_cons. reflexivity. }
    rewrite E. cbn [append split_from].
    rewrite prefix_dot_dot.
    rewrite rev_involutive, string_of_list_ascii_of_string.
    cbn [map]. f_equal.
    change (String.length "." - 1)%nat with 0%nat.
    rewrite split_from_decimal. apply IH.
Qed.

Lemma Split_render_release r0 rs :
  Split (render_release r0 rs) "." = map decimal (r0 :: rs).
Proof.
  unfold Split, render_release. rewrite split_from_decimal.
  apply Split_release_rest.
Qed.

End ParseCanonical.

Section ParseCanonicalFields.

Lemma pg_epoch f n :
  parse_group f "epoch" (decimal n)
  = Some (mkFields n (f_preN f) (f_postN f) (f_devN f) (f_preL f) (f_postL f)
                   (f_devL f) (f_release f) (f_local f)).
Proof.
  unfold parse_group. rewrite decimal_eqb_empty, NewBigInt_decimal. reflexivity.
Qed.

Lemma pg_release f r0 rs :
  parse_group f "release" (render_release r0 rs)
  = Some (mkFields (f_epoch f) (f_preN f) (f_postN f) (f_devN f) (f_preL f)
                   (f_postL f) (f_devL f) (f_release f ++ r0 :: rs) (f_local f)).
Proof.
  unfold parse_group.
  replace (String.eqb (render_release r0 rs) "") with false.
  2:{ symmetry. apply String.eqb_neq. unfold render_release.
      pose proof (decimal_nonempty r0). destruct (decimal r0); [congruence|discriminate]. }
  rewrite Split_render_release, parse_release_decimal. reflexivity.
Qed.

Lemma pg_pre_l f l :
  l = "a" \/ l = "b" \/ l = "rc" ->
  parse_group f "pre_l" l
  = Some (mkFields (f_epoch f) (f_preN f) (f_postN f) (f_devN f) l (f_postL f)
                   (f_devL f) (f_release f) (f_local f)).
Proof. intros [-> | [-> | ->]]; reflexivity. Qed.

Lemma pg_pre_n f n :
  parse_group f "pre_n" (decimal n)
  = Some (mkFields (f_epoch f) n (f_postN f) (f_devN f) (f_preL f) (f_postL f)
                   (f_devL f) (f_release f) (f_local f)).
Proof.
  unfold parse_group. rewrite decimal_eqb_empty, NewBigInt_decimal. reflexivity.
Qed.

Lemma pg_post_l f :
  parse_group f "post_l" "post"
  = Some (mkFields (f_epoch f) (f_preN f) (f_postN f) (f_devN f) (f_preL f)
                   "post" (f_devL f) (f_release f) (f_local f)).
Proof. reflexivity. Qed.

Lemma pg_post_n2 f n :
  f_postL f = "post" ->
  parse_group f "post_n2" (decimal n)
  = Some (mkFields (f_epoch f) (f_preN f) n (f_devN f) (f_preL f) "post"
                   (f_devL f) (f_release f) (f_local f)).
Proof.
  intros E. unfold parse_group.
  rewrite decimal_eqb_empty, NewBigInt_decimal, E. reflexivity.
Qed.

Lemma pg_dev_l f :
  parse_group f "dev_l" "dev"
  = Some (mkFields (f_epoch f) (f_preN f) (f_postN f) (f_devN f) (f_preL f)
                   (f_postL f) "dev" (f_release f) (f_local f)).
Proof. reflexivity. Qed.

Lemma pg_dev_n f n :
  parse_group f "dev_n" (decimal n)
  = Some (mkFields (f_epoch f) (f_preN f) (f_postN f) n (f_preL f) (f_postL f)
                   (f_devL f) (f_release f) (f_local f)).
Proof.
  unfold parse_group. rewrite decimal_eqb_empty, NewBigInt_decimal. reflexivity.
Qed.

Lemma ToLower_lshape l : lshape (L l) -> ToLower l = l.
Proof.
  intros H. unfold ToLower. rewrite lower_lshape by auto.
  apply string_of_list_ascii_of_string.
Qed.

Lemma pg_local f l :
  String.eqb l "" = false -> lshape (L l) ->
  parse_group f "local" l
  = Some (mkFields (f_epoch f) (f_preN f) (f_postN f) (f_devN f) (f_preL f)
                   (f_postL f) (f_devL f) (f_release f) l).
Proof.
  intros E H. unfold parse_group. rewrite E, ToLower_lshape by auto. reflexivity.
Qed.

Lemma parse_groups_cons f name names m ms :
  parse_groups f (name :: names) (m :: ms)
  = match parse_group f name m with
    | Some f' => parse_groups f' names ms
    | None => None
    end.
Proof. reflexivity. Qed.

Ltac pg_step :=
  rewrite parse_groups_cons;
  lazymatch goal with
  | |- context [parse_group ?f ?name ""] => rewrite (parse_group_empty f name)
  | |- context [parse_group ?f "epoch" (decimal ?n)] => rewrite (pg_epoch f n)
  | |- context [parse_group ?f "release" (render_release ?r0 ?rs)] =>
      rewrite (pg_release f r0 rs)
  | |- context [parse_group ?f "pre_l" ?l] => rewrite (@pg_pre_l f l) by auto
  | |- context [parse_group ?f "pre_n" (decimal ?n)] => rewrite (pg_pre_n f n)
  | |- context [parse_group ?f "post_l" "post"] => rewrite (pg_post_l f)
  | |- context [parse_group ?f "post_n2" (decimal ?n)] =>
      rewrite (@pg_post_n2 f n) by reflexivity
  | |- context [parse_group ?f "dev_l" "dev"] => rewrite (pg_dev_l f)
  | |- context [parse_group ?f "dev_n" (decimal ?n)] => rewrite (pg_dev_n f n)
  | |- context [parse_group ?f "local" ?l] => rewrite (@pg_local f l) by auto
  | |- context [parse_group ?f ?name ?m] =>
      rewrite (@parse_group_ignored f name m) by auto
  end;
  cbv beta iota;
  cbn [f_epoch f_preN f_postN f_devN f_preL f_postL f_devL f_release f_local
       fields_zero app].

Lemma parse_groups_render epoch r0 rs pre post dev local :
  wfFields (r0 :: rs) pre post dev local ->
  parse_groups fields_zero versionRegex_SubexpNames
               (matches_of epoch r0 rs pre post dev local)
  = Some (mkFields epoch (number pre) (number post) (number dev)
                   (letter pre) (letter post) (letter dev) (r0 :: rs) local).
Proof.
  intros [_ Hpre Hpost Hdev Hlocal].
  unfold matches_of, versionRegex_SubexpNames.
  destruct pre as [pl pn], post as [ql qn], dev as [dl dn].
  destruct (pre_cases Hpre) as [(E1 & El1 & En1) | (E1 & Hl1)];
  destruct (post_cases Hpost) as [(E2 & El2 & En2) | (E2 & El2)];
  destruct (dev_cases Hdev) as [(E3 & El3 & En3) | (E3 & El3)];
  destruct (local_cases Hlocal) as [-> | (E4 & Hl4)];
  destruct (epoch_written epoch) eqn:E5;
  try (apply epoch_written_false in E5; subst epoch);
  cbn [letter number] in *; subst; rewrite ?E1, ?E2, ?E3;
  do 15 pg_step; reflexivity.
Qed.

(** [Parse] reads a canonical text back into the fields it was written
    from. *)
Lemma Parse_render epoch r0 rs pre post dev local :
  wfFields (r0 :: rs) pre post dev local ->
  Parse (render epoch r0 rs pre post dev local)
  = Some (mkParsed epoch (r0 :: rs) pre post dev local
                   (render epoch r0 rs pre post dev local)).
Proof.
  intros H. unfold Parse.
  rewrite FindStringSubmatch_render, parse_groups_render by auto.
  unfold mkParsed. destruct pre, post, dev. reflexivity.
Qed.

End ParseCanonicalFields.

Section MatchFacts.

Lemma Sem_frame r w c c' i :
  Sem r w c c' -> has_group i r = false -> c' i = c i.
Proof.
  intros H. induction H; simpl; intros Hg; auto.
  - apply orb_false_iff in Hg. destruct Hg. rewrite IHSem2, IHSem1; auto.
  - apply orb_false_iff in Hg. destruct Hg. auto.
  - apply orb_false_iff in Hg. destruct Hg. auto.
  - rewrite IHSem2, IHSem1; auto.
  - apply orb_false_iff in Hg. destruct Hg as [Hij Hg].
    unfold set_cap. rewrite Hij. auto.
Qed.

Lemma Sem_groupless r w c c' : Sem r w c c' -> groupless r = true -> c' = c.
Proof.
  intros H. induction H; simpl; intros Hg; auto; try discriminate.
  - apply andb_true_iff in Hg. destruct Hg. rewrite IHSem2, IHSem1; auto.
  - apply andb_true_iff in Hg. destruct Hg. auto.
  - apply andb_true_iff in Hg. destruct Hg. auto.
  - rewrite IHSem2, IHSem1; auto.
Qed.

Lemma Sem_digits_nonempty w c c' : Sem digits w c c' -> w <> [].
Proof. unfold digits, Plus. intros H. inv_sem. discriminate. Qed.

(** Letters matched without regard to case. *)
Lemma plain_lower a b t :
  plain_letter a = true -> same_letter a b = true ->
  lower_bytes (b :: t) = lower_byte a :: lower_bytes t.
Proof.
  unfold plain_letter, same_letter. intros Hp Hs.
  apply Ascii.eqb_eq in Hs.
  apply andb_true_iff in Hp. destruct Hp as [_ Hp]. apply N.ltb_lt in Hp.
  cbn [lower_bytes].
  destruct (N.eqb_spec (code b) 226) as [E|E].
  - exfalso. rewrite Hs in Hp. unfold lower_byte in Hp.
    replace (is_upper b) with false in Hp.
    + rewrite E in Hp. lia.
    + unfold is_upper, in_range. rewrite E. reflexivity.
  - rewrite Hs. reflexivity.
Qed.

Lemma Sem_ci_chr_plain a w c c' t :
  plain_letter a = true -> Sem (ci_chr a) w c c' ->
  c' = c /\ w <> [] /\ lower_bytes (w ++ t) = lower_byte a :: lower_bytes t.
Proof.
  intros Hp H. unfold ci_chr in H.
  unfold plain_letter in Hp.
  destruct (Ascii.eqb (lower_byte a) "k") eqn:Ek; [discriminate|].
  destruct (Ascii.eqb (lower_byte a) "s") eqn:Es; [discriminate|].
  inv_sem. repeat split; [discriminate|].
  apply plain_lower; auto. unfold plain_letter. rewrite Ek, Es. exact Hp.
Qed.

Lemma Sem_ci_bytes_plain l : forall w c c' t,
  forallb plain_letter l = true -> l <> [] -> Sem (ci_bytes l) w c c' ->
  c' = c /\ w <> [] /\ lower_bytes (w ++ t) = map lower_byte l ++ lower_bytes t.
Proof.
  induction l as [|a l IH]; intros w c c' t Hp Hne H; [congruence|].
  cbn [forallb] in Hp. apply andb_true_iff in Hp. destruct Hp as [Ha Hl].
  destruct l as [|b l].
  - cbn [ci_bytes] in H. apply Sem_ci_chr_plain with (t := t) in H; auto.
  - cbn [ci_bytes] in H. fold (ci_bytes (b :: l)) in H.
    inversion H; subst; clear H.
    match goal with
    | H1 : Sem (ci_chr a) ?w1 _ ?c1, H2 : Sem _ ?w2 ?c1 _ |- _ =>
        change (Sem (ci_bytes (b :: l)) w2 c1 c') in H2;
        apply (IH w2 c1 c' t Hl ltac:(discriminate)) in H2;
        destruct H2 as (-> & Hw2 & E2);
        apply Sem_ci_chr_plain with (t := w2 ++ t) in H1; auto;
        destruct H1 as (-> & Hw1 & E1)
    end.
    repeat split.
    + intros E. apply app_eq_nil in E. destruct E. contradiction.
    + rewrite <- app_assoc, E1, E2. reflexivity.
Qed.

Lemma Sem_ci_lit_lower s w c c' :
  forallb plain_letter (L s) = true -> L s <> [] -> Sem (ci_lit s) w c c' ->
  c' = c /\ w <> [] /\
  ToLower (string_of_list_ascii w) = string_of_list_ascii (map lower_byte (L s)).
Proof.
  intros Hp Hne H. unfold ci_lit in H.
  apply (@Sem_ci_bytes_plain (L s) w c c' [] Hp Hne) in H.
  destruct H as (-> & Hw & E). repeat split; auto.
  unfold ToLower. rewrite list_ascii_of_string_of_list_ascii.
  rewrite !app_nil_r in E. rewrite E. reflexivity.
Qed.

Lemma Sem_pre_letters w c c' :
  Sem pre_letters w c c' -> c' = c /\ w <> [] /\ valid_pre w.
Proof.
  unfold pre_letters, alts. intros H. unfold valid_pre.
  inv_sem;
    match goal with
    | H : Sem (ci_lit ?s) _ _ _ |- _ =>
        apply Sem_ci_lit_lower in H; [|reflexivity|discriminate];
        destruct H as (-> & Hw & E); rewrite E
    end; repeat split; auto; cbv; auto.
Qed.

Lemma Sem_dev_letters w c c' :
  Sem (ci_lit "dev") w c c' ->
  c' = c /\ w <> [] /\ ToLower (string_of_list_ascii w) = "dev".
Proof.
  intros H. apply Sem_ci_lit_lower in H; [|reflexivity|discriminate]. exact H.
Qed.

End MatchFacts.

Section MatchedGroups.

Lemma Sem_Star_ind (r : regex) (P : list ascii -> caps -> caps -> Prop) :
  (forall c, P [] c c) ->
  (forall w1 w2 c c1 c2, w1 <> [] -> Sem r w1 c c1 -> Sem (Star r) w2 c1 c2 ->
     P w2 c1 c2 -> P (w1 ++ w2) c c2) ->
  forall w c c', Sem (Star r) w c c' -> P w c c'.
Proof.
  intros H0 HS w c c' H. remember (Star r) as r0 eqn:E.
  induction H; inversion E; subst; eauto.
Qed.

Lemma alnum_lowered b :
  is_alnum b = true ->
  (code b =? 226)%N = false /\ is_digit (lower_byte b) || is_lower (lower_byte b) = true.
Proof.
  destruct b as [[] [] [] [] [] [] [] []]; vm_compute; intros H;
    first [discriminate H | split; reflexivity].
Qed.

Lemma Sem_alnum_lower a c c' :
  Sem ci_alnum a c c' ->
  c' = c /\ exists la, latom la /\ forall t, lower_bytes (a ++ t) = la ++ lower_bytes t.
Proof.
  unfold ci_alnum, kelvin, long_s, bytes, chr. intros H. inv_sem.
  - match goal with H : is_alnum ?b = true |- _ =>
      destruct (alnum_lowered b H) as [E1 E2]; split; auto;
      exists [lower_byte b]; split; [constructor; exact E2|];
      intros t; cbn [app lower_bytes]; rewrite E1; reflexivity
    end.
  - repeat match goal with H : Ascii.eqb _ _ = true |- _ =>
             apply Ascii.eqb_eq in H; subst end.
    split; auto. exists ["k"%char]. split; [constructor; reflexivity|].
    intros t. reflexivity.
  - repeat match goal with H : Ascii.eqb _ _ = true |- _ =>
             apply Ascii.eqb_eq in H; subst end.
    split; auto. exists long_s. split; [constructor|]. intros t. reflexivity.
Qed.

Lemma Sem_alnum_star w c c' :
  Sem (Star ci_alnum) w c c' ->
  c' = c /\
  (w = [] \/ exists lw, lrun lw /\ forall t, lower_bytes (w ++ t) = lw ++ lower_bytes t).
Proof.
  revert w c c'. apply Sem_Star_ind.
  - intros c. auto.
  - intros w1 w2 c c1 c2 _ H1 _ [-> IH].
    apply Sem_alnum_lower in H1. destruct H1 as (-> & la & Hla & E1).
    split; auto. right. destruct IH as [-> | (lw & Hlw & E2)].
    + exists la. split; [constructor; auto|]. rewrite app_nil_r. exact E1.
    + exists (la ++ lw). split; [constructor 2; auto|].
      intros t. rewrite <- !app_assoc, E1, E2. reflexivity.
Qed.

Lemma Sem_alnum_plus w c c' :
  Sem (Plus ci_alnum) w c c' ->
  c' = c /\ exists lw, lrun lw /\ forall t, lower_bytes (w ++ t) = lw ++ lower_bytes t.
Proof.
  unfold Plus. intros H. inversion H; subst; clear H.
  match goal with
  | H1 : Sem ci_alnum _ _ _, H2 : Sem (Star ci_alnum) _ _ _ |- _ =>
      apply Sem_alnum_lower in H1; destruct H1 as (-> & la & Hla & E1);
      apply Sem_alnum_star in H2; destruct H2 as (-> & IH)
  end.
  split; auto. destruct IH as [-> | (lw & Hlw & E2)].
  - exists la. split; [constructor; auto|]. rewrite app_nil_r. exact E1.
  - exists (la ++ lw). split; [constructor 2; auto|].
    intros t. rewrite <- !app_assoc, E1, E2. reflexivity.
Qed.

Lemma lower_sep b t : is_sep b = true -> lower_bytes (b :: t) = b :: lower_bytes t.
Proof.
  intros H. apply is_sep_cases in H. destruct H as [-> | [-> | ->]]; reflexivity.
Qed.

Lemma Sem_local_tail w c c' :
  Sem (Star (Seq (Cls is_sep) (Plus ci_alnum))) w c c' ->
  c' = c /\ exists lt, ltail lt /\ forall t, lower_bytes (w ++ t) = lt ++ lower_bytes t.
Proof.
  revert w c c'. apply Sem_Star_ind.
  - intros c. split; auto. exists []. split; [constructor|reflexivity].
  - intros w1 w2 c c1 c2 _ H1 _ (-> & lt & Hlt & E2).
    inversion H1; subst; clear H1.
    match goal with
    | H1 : Sem (Cls is_sep) _ _ _, H2 : Sem (Plus ci_alnum) _ _ _ |- _ =>
        inversion H1; subst; clear H1;
        apply Sem_alnum_plus in H2; destruct H2 as (-> & lw & Hlw & E1)
    end.
    split; auto.
    match goal with H : is_sep ?b = true |- _ =>
      exists (b :: lw ++ lt); split; [constructor; auto|];
      intros t; cbn [app]; rewrite <- !app_assoc, lower_sep, E1, E2 by auto
    end.
    reflexivity.
Qed.

Lemma Sem_local_body w c c' :
  Sem local_body w c c' -> c' = c /\ lshape (lower_bytes w).
Proof.
  unfold local_body. intros H. inversion H; subst; clear H.
  match goal with
  | H1 : Sem (Plus ci_alnum) _ _ _, H2 : Sem (Star _) _ _ _ |- _ =>
      apply Sem_alnum_plus in H1; destruct H1 as (-> & lw & Hlw & E1);
      apply Sem_local_tail in H2; destruct H2 as (-> & lt & Hlt & E2)
  end.
  split; auto. exists lw, lt. split; auto.
  rewrite E1. f_equal. specialize (E2 []). rewrite !app_nil_r in E2. exact E2.
Qed.

(** The segments. *)
Lemma Sem_release_re w c c' : Sem release_re w c c' -> c' 2 <> [].
Proof.
  unfold release_re. intros H. inversion H; subst; clear H.
  match goal with H : Sem (Seq digits _) _ _ _ |- _ =>
    inversion H; subst; clear H end.
  match goal with H : Sem digits _ _ _ |- _ => apply Sem_digits_nonempty in H end.
  cbv [set_cap Nat.eqb]. intros E. apply app_eq_nil in E. destruct E. contradiction.
Qed.

Lemma Sem_opt_number i w c c' :
  Sem (Opt (Group i digits)) w c c' -> c' = c \/ c' = set_cap i w c.
Proof.
  intros H. unfold Opt in H. inv_sem; auto.
  match goal with H : Sem digits _ _ _ |- _ =>
    apply Sem_groupless in H; [subst|reflexivity] end.
  auto.
Qed.

Lemma Sem_sep_opt w c c' : Sem sep_opt w c c' -> c' = c.
Proof. intros H. apply Sem_groupless in H; auto. Qed.

Ltac seg_clean :=
  repeat match goal with
         | H : Sem sep_opt _ _ _ |- _ => apply Sem_sep_opt in H; subst
         | H : Sem digits _ _ _ |- _ =>
             apply Sem_groupless in H; [subst|reflexivity]
         | H : Sem post_letters _ _ _ |- _ =>
             apply Sem_groupless in H; [subst|reflexivity]
         | H : Sem pre_letters _ _ _ |- _ =>
             apply Sem_pre_letters in H; destruct H as (-> & ? & ?)
         | H : Sem (ci_lit "dev") _ _ _ |- _ =>
             apply Sem_dev_letters in H; destruct H as (-> & ? & ?)
         end.

Lemma Sem_pre_re w c c' :
  Sem pre_re w c c' -> c 4 = [] -> c 6 = [] ->
  (c' 4 = [] -> c' 6 = []) /\ (c' 4 <> [] -> valid_pre (c' 4)).
Proof.
  unfold pre_re. intros H H4 H6. inv_sem; seg_clean;
    cbv [set_cap Nat.eqb]; intuition congruence.
Qed.

Lemma Sem_post_re w c c' :
  Sem post_re w c c' -> c 8 = [] -> c 9 = [] -> c 10 = [] ->
  c' 8 <> [] -> c' 9 = [] /\ c' 10 = [].
Proof.
  unfold post_re, chr. intros H H8 H9 H10. inv_sem; seg_clean;
    cbv [set_cap Nat.eqb]; intuition congruence.
Qed.

Lemma Sem_dev_re w c c' :
  Sem dev_re w c c' -> c 12 = [] -> c 13 = [] ->
  (c' 12 = [] -> c' 13 = []) /\
  (c' 12 <> [] -> ToLower (string_of_list_ascii (c' 12)) = "dev").
Proof.
  unfold dev_re. intros H H12 H13. inv_sem; seg_clean;
    cbv [set_cap Nat.eqb]; intuition congruence.
Qed.

Lemma Sem_local_re w c c' :
  Sem local_re w c c' -> c 14 = [] ->
  c' 14 = [] \/ lshape (lower_bytes (c' 14)).
Proof.
  unfold local_re. intros H H14. inv_sem; auto.
  match goal with H : Sem local_body _ _ _ |- _ =>
    apply Sem_local_body in H; destruct H as (-> & Hs) end.
  cbv [set_cap Nat.eqb]. auto.
Qed.

Lemma Sem_versionRegex w c :
  Sem versionRegex w no_caps c -> caps_ok c.
Proof.
  unfold versionRegex. intros H.
  repeat match goal with
         | H : Sem (Seq _ _) _ _ _ |- _ => inversion H; subst; clear H
         end.
  repeat match goal with
         | H : Sem (Star (Cls is_space)) _ _ _ |- _ =>
             apply Sem_groupless in H; [subst|reflexivity]
         | H : Sem (Opt (ci_chr "v")) _ _ _ |- _ =>
             apply Sem_groupless in H; [subst|reflexivity]
         end.
  match goal with
  | He : Sem epoch_re _ no_caps ?c1, Hr : Sem release_re _ ?c1 ?c2,
    Hp : Sem pre_re _ ?c2 ?c3, Hq : Sem post_re _ ?c3 ?c4,
    Hd : Sem dev_re _ ?c4 ?c5, Hl : Sem local_re _ ?c5 ?c6 |- _ =>
      assert (F1 : forall i, has_group i epoch_re = false -> c1 i = [])
        by (intros i Hi; rewrite (Sem_frame i He Hi); reflexivity);
      assert (F2 : forall i, has_group i epoch_re = false ->
                             has_group i release_re = false -> c2 i = [])
        by (intros i Hi Hj; rewrite (Sem_frame i Hr Hj); auto);
      assert (F3 : forall i, has_group i epoch_re = false ->
                             has_group i release_re = false ->
                             has_group i pre_re = false -> c3 i = [])
        by (intros i Hi Hj Hk; rewrite (Sem_frame i Hp Hk); auto);
      assert (F4 : forall i, has_group i epoch_re = false ->
                             has_group i release_re = false ->
                             has_group i pre_re = false ->
                             has_group i post_re = false -> c4 i = [])
        by (intros i Hi Hj Hk Hm; rewrite (Sem_frame i Hq Hm); auto);
      assert (F5 : forall i, has_group i epoch_re = false ->
                             has_group i release_re = false ->
                             has_group i pre_re = false ->
                             has_group i post_re = false ->
                             has_group i dev_re = false -> c5 i = [])
        by (intros i Hi Hj Hk Hm Hn; rewrite (Sem_frame i Hd Hn); auto);
      pose proof (Sem_release_re Hr) as R;
      pose proof (Sem_pre_re Hp (F2 4 eq_refl eq_refl) (F2 6 eq_refl eq_refl)) as [P1 P2];
      pose proof (Sem_post_re Hq (F3 8 eq_refl eq_refl eq_refl)
                    (F3 9 eq_refl eq_refl eq_refl)
                    (F3 10 eq_refl eq_refl eq_refl)) as Q;
      pose proof (Sem_dev_re Hd (F4 12 eq_refl eq_refl eq_refl eq_refl)
                    (F4 13 eq_refl eq_refl eq_refl eq_refl)) as [D1 D2];
      pose proof (Sem_local_re Hl (F5 14 eq_refl eq_refl eq_refl eq_refl eq_refl)) as Lo;
      constructor;
      repeat first [ rewrite (Sem_frame 2 Hl eq_refl)
                   | rewrite (Sem_frame 4 Hl eq_refl)
                   | rewrite (Sem_frame 6 Hl eq_refl)
                   | rewrite (Sem_frame 8 Hl eq_refl)
                   | rewrite (Sem_frame 9 Hl eq_refl)
                   | rewrite (Sem_frame 10 Hl eq_refl)
                   | rewrite (Sem_frame 12 Hl eq_refl)
                   | rewrite (Sem_frame 13 Hl eq_refl)
                   | rewrite (Sem_frame 2 Hd eq_refl)
                   | rewrite (Sem_frame 4 Hd eq_refl)
                   | rewrite (Sem_frame 6 Hd eq_refl)
                   | rewrite (Sem_frame 8 Hd eq_refl)
                   | rewrite (Sem_frame 9 Hd eq_refl)
                   | rewrite (Sem_frame 10 Hd eq_refl)
                   | rewrite (Sem_frame 2 Hq eq_refl)
                   | rewrite (Sem_frame 4 Hq eq_refl)
                   | rewrite (Sem_frame 6 Hq eq_refl)
                   | rewrite (Sem_frame 2 Hp eq_refl) ];
      auto
  end.
Qed.

End MatchedGroups.

Section ParsedFields.

Lemma pgi_ignored f name m f' :
  name = "" \/ name = "pre" \/ name = "post" \/ name = "dev" ->
  parse_group f name m = Some f' -> f' = f.
Proof. intros Hn H. rewrite parse_group_ignored in H by auto. congruence. Qed.

Lemma fields_eta f :
  f = mkFields (f_epoch f) (f_preN f) (f_postN f) (f_devN f) (f_preL f)
               (f_postL f) (f_devL f) (f_release f) (f_local f).
Proof. destruct f. reflexivity. Qed.

Lemma pgi_epoch f m f' :
  parse_group f "epoch" m = Some f' ->
  exists n, f' = mkFields n (f_preN f) (f_postN f) (f_devN f) (f_preL f)
                          (f_postL f) (f_devL f) (f_release f) (f_local f).
Proof.
  unfold parse_group. destruct (String.eqb m "").
  - intros [= <-]. exists (f_epoch f). apply fields_eta.
  - cbn. destruct (part.NewBigInt m); intros [= <-]. eauto.
Qed.

Lemma parse_release_length strs : forall acc r,
  parse_release acc strs = Some r ->
  List.length r = (List.length acc + List.length strs)%nat.
Proof.
  induction strs as [|s strs IH]; intros acc r H; simpl in H.
  - injection H as <-. simpl. lia.
  - destruct (part.NewBigInt s); [|discriminate].
    apply IH in H. rewrite H, length_app. simpl. lia.
Qed.

Lemma split_from_nonempty sep s : forall skip cur, split_from sep skip cur s <> [].
Proof.
  induction s as [|a s IH]; intros skip cur; cbn [split_from]; [discriminate|].
  destruct skip; auto. destruct (String.prefix sep (String a s)); [discriminate|auto].
Qed.

Lemma pgi_release f m f' :
  parse_group f "release" m = Some f' ->
  exists r, f' = mkFields (f_epoch f) (f_preN f) (f_postN f) (f_devN f)
                          (f_preL f) (f_postL f) (f_devL f) r (f_local f)
            /\ (m <> "" -> r <> []).
Proof.
  unfold parse_group. destruct (String.eqb_spec m "").
  - intros [= <-]. exists (f_release f). split; [apply fields_eta|congruence].
  - cbn. destruct (parse_release (f_release f) (Split m ".")) as [r|] eqn:E;
      intros [= <-]. exists r. split; auto. intros _ ->.
    apply parse_release_length in E. simpl in E.
    pose proof (@split_from_nonempty "." m 0 []) as Hs. unfold Split in E.
    destruct (split_from "." 0 [] m); [congruence|simpl in E; lia].
Qed.

Lemma pgi_pre_l f m f' :
  parse_group f "pre_l" m = Some f' ->
  f' = mkFields (f_epoch f) (f_preN f) (f_postN f) (f_devN f)
                (if String.eqb m "" then f_preL f
                 else map_index preReleaseAliases (ToLower m))
                (f_postL f) (f_devL f) (f_release f) (f_local f).
Proof.
  unfold parse_group. destruct (String.eqb m ""); intros [= <-];
    [apply fields_eta|reflexivity].
Qed.

Lemma pgi_pre_n f m f' :
  parse_group f "pre_n" m = Some f' ->
  exists n, f' = mkFields (f_epoch f) n (f_postN f) (f_devN f) (f_preL f)
                          (f_postL f) (f_devL f) (f_release f) (f_local f)
            /\ (m = "" -> n = f_preN f).
Proof.
  unfold parse_group. destruct (String.eqb_spec m "").
  - intros [= <-]. exists (f_preN f). split; [apply fields_eta|auto].
  - cbn. destruct (part.NewBigInt m); intros [= <-]. eexists. split; eauto.
    intros; contradiction.
Qed.

Lemma pgi_post_n f name m f' :
  name = "post_n1" \/ name = "post_n2" ->
  parse_group f name m = Some f' ->
  exists n, f' = mkFields (f_epoch f) (f_preN f) n (f_devN f) (f_preL f)
                          (if String.eqb m "" then f_postL f
                           else if String.eqb (f_postL f) "" then "post"
                                else f_postL f)
                          (f_devL f) (f_release f) (f_local f)
            /\ (m = "" -> n = f_postN f).
Proof.
  intros Hn. unfold parse_group. destruct (String.eqb_spec m "").
  - intros [= <-]. exists (f_postN f). split; [apply fields_eta|auto].
  - destruct Hn as [-> | ->]; cbn; destruct (part.NewBigInt m); intros [= <-];
      eexists; (split; [reflexivity|intros; contradiction]).
Qed.

Lemma pgi_post_l f m f' :
  parse_group f "post_l" m = Some f' ->
  f' = mkFields (f_epoch f) (f_preN f) (f_postN f) (f_devN f) (f_preL f)
                (if String.eqb m "" then f_postL f
                 else map_index postReleaseAliases (ToLower m))
                (f_devL f) (f_release f) (f_local f).
Proof.
  unfold parse_group. destruct (String.eqb m ""); intros [= <-];
    [apply fields_eta|reflexivity].
Qed.

Lemma pgi_dev_l f m f' :
  parse_group f "dev_l" m = Some f' ->
  f' = mkFields (f_epoch f) (f_preN f) (f_postN f) (f_devN f) (f_preL f)
                (f_postL f) (if String.eqb m "" then f_devL f else ToLower m)
                (f_release f) (f_local f).
Proof.
  unfold parse_group. destruct (String.eqb m ""); intros [= <-];
    [apply fields_eta|reflexivity].
Qed.

Lemma pgi_dev_n f m f' :
  parse_group f "dev_n" m = Some f' ->
  exists n, f' = mkFields (f_epoch f) (f_preN f) (f_postN f) n (f_preL f)
                          (f_postL f) (f_devL f) (f_release f) (f_local f)
            /\ (m = "" -> n = f_devN f).
Proof.
  unfold parse_group. destruct (String.eqb_spec m "").
  - intros [= <-]. exists (f_devN f). split; [apply fields_eta|auto].
  - cbn. destruct (part.NewBigInt m); intros [= <-]. eexists. split; eauto.
    intros; contradiction.
Qed.

Lemma pgi_local f m f' :
  parse_group f "local" m = Some f' ->
  f' = mkFields (f_epoch f) (f_preN f) (f_postN f) (f_devN f) (f_preL f)
                (f_postL f) (f_devL f) (f_release f)
                (if String.eqb m "" then f_local f else ToLower m).
Proof.
  unfold parse_group. destruct (String.eqb m ""); intros [= <-];
    [apply fields_eta|reflexivity].
Qed.

Lemma map_index_post x :
  map_index postReleaseAliases x = "post" \/ map_index postReleaseAliases x = "".
Proof.
  unfold postReleaseAliases, map_index.
  repeat match goal with |- context [String.eqb x ?k] => destruct (String.eqb x k) end; auto.
Qed.

Lemma string_of_empty_iff (w : list ascii) : string_of_list_ascii w = "" <-> w = [].
Proof. split; [destruct w; [auto|discriminate] | intros ->; reflexivity]. Qed.

Ltac pg_inv H lem :=
  rewrite parse_groups_cons in H;
  let f1 := fresh "f" in
  let E := fresh "E" in
  match type of H with
  | match parse_group ?f ?name ?m with _ => _ end = _ =>
      destruct (parse_group f name m) as [f1|] eqn:E; [|discriminate H];
      apply lem in E;
      [cbn [f_epoch f_preN f_postN f_devN f_preL f_postL f_devL f_release
            f_local fields_zero] in E | ..]
  end.

Lemma parse_groups_wf (c : caps) (m0 : string) (f : fields) :
  caps_ok c ->
  parse_groups fields_zero versionRegex_SubexpNames
    (m0 :: map (fun i => string_of_list_ascii (c i)) (seq 1 14)) = Some f ->
  wfFields (f_release f) (mkLetterNumber (f_preL f) (f_preN f))
           (mkLetterNumber (f_postL f) (f_postN f))
           (mkLetterNumber (f_devL f) (f_devN f)) (f_local f).
Proof.
  intros [Hr Hpn Hpl Hq Hdn Hdl Hlo] H.
  unfold versionRegex_SubexpNames in H. cbn [map seq] in H.
  pg_inv H (@pgi_ignored fields_zero "" m0). 2:{ auto. } subst.
  pg_inv H pgi_epoch. destruct E as (ne & ->).
  pg_inv H pgi_release. destruct E as (r & -> & Hrne).
  pg_inv H (@pgi_ignored). 2:{ auto. } subst.
  pg_inv H pgi_pre_l. subst.
  pg_inv H (@pgi_ignored). 2:{ auto. } subst.
  pg_inv H pgi_pre_n. destruct E as (n6 & -> & Hn6).
  pg_inv H (@pgi_ignored). 2:{ auto. } subst.
  pg_inv H (@pgi_post_n). 2:{ auto. } destruct E as (n8 & -> & Hn8).
  pg_inv H pgi_post_l. subst.
  pg_inv H (@pgi_post_n). 2:{ auto. } destruct E as (n10 & -> & Hn10).
  pg_inv H (@pgi_ignored). 2:{ auto. } subst.
  pg_inv H pgi_dev_l. subst.
  pg_inv H pgi_dev_n. destruct E as (n13 & -> & Hn13).
  pg_inv H pgi_local. subst.
  cbn [parse_groups] in H. injection H as <-.
  cbn [f_epoch f_preN f_postN f_devN f_preL f_postL f_devL f_release f_local
       fields_zero] in *.
  rewrite ?eqb_empty_list in *. rewrite ?string_of_empty_iff in *.
  constructor.
  - apply Hrne, Hr.
  - unfold pre_ok. cbn [letter number].
    destruct (c 4) eqn:E4;
      [left; split; [reflexivity | apply Hn6, Hpn; reflexivity]
      | right; apply Hpl; discriminate].
  - unfold post_ok. cbn [letter number].
    destruct (c 8) eqn:E8.
    + destruct (c 10) eqn:E10.
      * rewrite Hn10, Hn8 by reflexivity.
        destruct (c 9) as [|a l]; [left; split; reflexivity|].
        destruct (map_index_post (ToLower (string_of_list_ascii (a :: l))))
          as [E | E]; unfold map_index, postReleaseAliases in E; rewrite E;
          [right | left; split]; reflexivity.
      * right. destruct (c 9) as [|a0 l0]; [reflexivity|].
        destruct (map_index_post (ToLower (string_of_list_ascii (a0 :: l0))))
          as [E | E]; unfold map_index, postReleaseAliases in E; rewrite E;
          reflexivity.
    + destruct Hq as [-> ->]; [discriminate|]. right. reflexivity.
  - unfold dev_ok. cbn [letter number].
    destruct (c 12) eqn:E12;
      [left; split; [reflexivity | apply Hn13, Hdn; reflexivity]
      | right; apply Hdl; discriminate].
  - unfold local_ok. destruct (c 14) eqn:E14; [left; reflexivity|].
    right. destruct Hlo as [Hlo | Hlo]; [discriminate|].
    unfold ToLower. rewrite !list_ascii_of_string_of_list_ascii. exact Hlo.
Qed.

End ParsedFields.

Section ParsedVersions.

Lemma FindStringSubmatch_versionRegex s matches :
  FindStringSubmatch versionRegex versionRegex_NumSubexp s = Some matches ->
  exists c, caps_ok c /\
            matches = s :: map (fun i => string_of_list_ascii (c i)) (seq 1 14).
Proof.
  unfold FindStringSubmatch.
  destruct (rmatch _ _ _ _) as [c|] eqn:E; [|discriminate].
  intros [= <-]. apply rmatch_sound in E.
  destruct E as (w & s' & c' & Hs & Hsem & Hend).
  destruct s' as [|? ?]; [|discriminate]. injection Hend as <-.
  rewrite app_nil_r in Hs. subst w.
  inversion Hsem; subst; clear Hsem.
  match goal with H : Sem versionRegex _ _ ?c9 |- _ =>
    exists c9; split; [apply (Sem_versionRegex H)|] end.
  cbn [map seq versionRegex_NumSubexp]. cbv [set_cap Nat.eqb].
  rewrite string_of_list_ascii_of_string. reflexivity.
Qed.

(** [Parse] yields well-formed versions. *)
Lemma Parse_inv s v :
  Parse s = Some v ->
  wfVersion v /\ original v = s.
Proof.
  unfold Parse.
  destruct (FindStringSubmatch _ _ s) as [matches|] eqn:E; [|discriminate].
  apply FindStringSubmatch_versionRegex in E. destruct E as (c & Hc & ->).
  destruct (parse_groups _ _ _) as [f|] eqn:F; [|discriminate].
  intros [= <-]. apply parse_groups_wf in F; [|exact Hc].
  split; [|reflexivity]. constructor; auto.
Qed.

Lemma Parse_wf s v : Parse s = Some v -> wfVersion v.
Proof. intros H. apply Parse_inv in H. tauto. Qed.

Lemma Version_String_render v r0 rs :
  release v = r0 :: rs ->
  Version_String v
  = Val (render (epoch v) r0 rs (pre v) (post v) (dev v) (local v)).
Proof.
  intros E. unfold Version_String, render_base. rewrite E. reflexivity.
Qed.

Lemma wf_release_cons v :
  wfVersion v -> exists r0 rs, release v = r0 :: rs.
Proof.
  intros [[Hr _ _ _ _] _ _]. destruct (release v) as [|r0 rs]; [congruence|eauto].
Qed.

Lemma wfVersion_eta v :
  wfVersion v ->
  v = mkParsed (epoch v) (release v) (pre v) (post v) (dev v) (local v)
               (original v).
Proof.
  intros [_ Hk Hi]. destruct v. unfold mkParsed. simpl in *. subst. reflexivity.
Qed.

(** Parsing the canonical text of a well-formed version gives the version
    back, up to the recorded input. *)
Lemma Parse_String v :
  wfVersion v ->
  exists str,
    Version_String v = Val str /\
    Parse str = Some (mkParsed (epoch v) (release v) (pre v) (post v) (dev v)
                               (local v) str).
Proof.
  intros Hwf. destruct (wf_release_cons Hwf) as (r0 & rs & E).
  exists (render (epoch v) r0 rs (pre v) (post v) (dev v) (local v)).
  split; [apply Version_String_render, E|].
  rewrite E. apply Parse_render. rewrite <- E. apply Hwf.
Qed.

Lemma wfVersion_mkParsed e r p q d l o :
  wfFields r p q d l -> wfVersion (mkParsed e r p q d l o).
Proof. intros H. constructor; auto. Qed.

End ParsedVersions.

Section KeyOrder.

Lemma Parts_Compare_nil_nil : Parts_Compare [] [] = 0%Z.
Proof. reflexivity. Qed.

Lemma Parts_Compare_nil_cons r os : Parts_Compare [] (r :: os) = (-1)%Z.
Proof. reflexivity. Qed.

Lemma Parts_Compare_cons_nil l ps : Parts_Compare (l :: ps) [] = 1%Z.
Proof. reflexivity. Qed.

Lemma Parts_Compare_cons l ps r os :
  Parts_Compare (l :: ps) (r :: os)
  = match part.Compare l r with
    | 0%Z => Parts_Compare ps os
    | result => result
    end.
Proof. reflexivity. Qed.

Lemma Compare_Parts ps os :
  part.Compare (part.of_Parts ps) (part.of_Parts os) = Parts_Compare ps os.
Proof. reflexivity. Qed.

(** Strings. *)
Lemma ascii_compare_refl a : Ascii.compare a a = Eq.
Proof. apply N.compare_refl. Qed.

Lemma string_compare_refl s : String.compare s s = Eq.
Proof. induction s; simpl; auto. rewrite ascii_compare_refl. auto. Qed.

Lemma string_compare_lt_trans a : forall b c,
  String.compare a b = Lt -> String.compare b c = Lt -> String.compare a c = Lt.
Proof.
  induction a as [|x a IH]; intros [|y b] [|z c]; simpl; try congruence; auto.
  unfold Ascii.compare.
  destruct (N.compare_spec (N_of_ascii x) (N_of_ascii y)) as [E1|L1|G1];
    destruct (N.compare_spec (N_of_ascii y) (N_of_ascii z)) as [E2|L2|G2];
    try congruence; intros H1 H2.
  - rewrite E1, E2, N.compare_refl. eauto.
  - rewrite E1. apply N.compare_lt_iff in L2. rewrite L2. reflexivity.
  - rewrite <- E2. apply N.compare_lt_iff in L1. rewrite L1. reflexivity.
  - assert (L : (N_of_ascii x < N_of_ascii z)%N) by lia.
    apply N.compare_lt_iff in L. rewrite L. reflexivity.
Qed.

Lemma cmp3_opp c : cmp3 (CompOpp c) = (- cmp3 c)%Z.
Proof. destruct c; reflexivity. Qed.

Lemma cmp3_range c : cmp3 c = 0%Z \/ cmp3 c = 1%Z \/ cmp3 c = (-1)%Z.
Proof. destruct c; auto. Qed.

Lemma cmp3_Lt c : cmp3 c = (-1)%Z <-> c = Lt.
Proof. destruct c; simpl; split; congruence. Qed.

Lemma cmp3_Eq c : cmp3 c = 0%Z <-> c = Eq.
Proof. destruct c; simpl; split; congruence. Qed.

Lemma strings_Compare_cmp3 a b : GoStrings.Compare a b = cmp3 (String.compare a b).
Proof. reflexivity. Qed.

Lemma BigInt_Compare_cmp3 a b : part.BigInt_Compare a b = cmp3 (N.compare a b).
Proof. reflexivity. Qed.

Lemma Comparator_IsInt : Comparator IsInt.
Proof.
  constructor.
  - intros x [n ->]. simpl. rewrite BigInt_Compare_cmp3, N.compare_refl. reflexivity.
  - intros x y [n ->] [m ->]. simpl.
    rewrite !BigInt_Compare_cmp3, N.compare_antisym. apply cmp3_opp.
  - intros x y [n ->] [m ->]. simpl. apply cmp3_range.
  - intros x y z [n ->] [m ->] [p ->]. simpl.
    rewrite !BigInt_Compare_cmp3, !cmp3_Lt, !N.compare_lt_iff. lia.
  - intros x y z [n ->] [m ->] [p ->]. simpl.
    rewrite !BigInt_Compare_cmp3, cmp3_Eq, N.compare_eq_iff. intros ->. reflexivity.
Qed.

Lemma Comparator_IsStr : Comparator IsStr.
Proof.
  constructor.
  - intros x [n ->]. simpl. rewrite strings_Compare_cmp3, string_compare_refl. reflexivity.
  - intros x y [n ->] [m ->]. simpl.
    rewrite !strings_Compare_cmp3, String.compare_antisym. apply cmp3_opp.
  - intros x y [n ->] [m ->]. simpl. apply cmp3_range.
  - intros x y z [n ->] [m ->] [p ->]. simpl.
    rewrite !strings_Compare_cmp3, !cmp3_Lt. apply string_compare_lt_trans.
  - intros x y z [n ->] [m ->] [p ->]. simpl.
    rewrite !strings_Compare_cmp3, cmp3_Eq. intros H.
    apply String.compare_eq_iff in H. subst. reflexivity.
Qed.

Lemma Comparator_IsTok : Comparator IsTok.
Proof.
  constructor.
  - intros x [[n ->] | [s ->]]; simpl.
    + rewrite BigInt_Compare_cmp3, N.compare_refl. reflexivity.
    + rewrite strings_Compare_cmp3, string_compare_refl. reflexivity.
  - intros x y [[n ->] | [s ->]] [[m ->] | [t ->]]; simpl; try reflexivity.
    + rewrite !BigInt_Compare_cmp3, N.compare_antisym. apply cmp3_opp.
    + rewrite !strings_Compare_cmp3, String.compare_antisym. apply cmp3_opp.
  - intros x y [[n ->] | [s ->]] [[m ->] | [t ->]]; simpl; auto;
      apply cmp3_range.
  - intros x y z [[n ->] | [s ->]] [[m ->] | [t ->]] [[p ->] | [u ->]]; simpl;
      try congruence.
    + rewrite !BigInt_Compare_cmp3, !cmp3_Lt, !N.compare_lt_iff. lia.
    + rewrite !strings_Compare_cmp3, !cmp3_Lt. apply string_compare_lt_trans.
  - intros x y z [[n ->] | [s ->]] [[m ->] | [t ->]] [[p ->] | [u ->]]; simpl;
      try congruence;
      first [ rewrite !BigInt_Compare_cmp3, cmp3_Eq, N.compare_eq_iff;
              intros ->; reflexivity
            | rewrite ?strings_Compare_cmp3, cmp3_Eq; intros H;
              apply String.compare_eq_iff in H; subst; reflexivity ].
Qed.

(** Sequences. *)
Section Sequences.

Variable pos : nat -> part.Part -> Prop.
Hypothesis Hpos : forall i, Comparator (pos i).

Lemma Parts_Compare_refl l : forall i, all_at pos i l -> Parts_Compare l l = 0%Z.
Proof.
  induction l as [|x l IH]; intros i H; [reflexivity|].
  destruct H as [Hx Hl]. rewrite Parts_Compare_cons.
  rewrite (cmp_refl (Hpos i) x Hx). eauto.
Qed.

Lemma Parts_Compare_opp l : forall i o,
  all_at pos i l -> all_at pos i o ->
  Parts_Compare o l = (- Parts_Compare l o)%Z.
Proof.
  induction l as [|x l IH]; intros i [|y o] Hl Ho; try reflexivity.
  destruct Hl as [Hx Hl], Ho as [Hy Ho]. rewrite !Parts_Compare_cons.
  rewrite (cmp_opp (Hpos i) x y Hx Hy).
  destruct (cmp_range (Hpos i) x y Hx Hy) as [E | [E | E]]; rewrite E; simpl; eauto.
Qed.

Lemma Parts_Compare_range l : forall i o,
  all_at pos i l -> all_at pos i o ->
  Parts_Compare l o = 0%Z \/ Parts_Compare l o = 1%Z
  \/ Parts_Compare l o = (-1)%Z.
Proof.
  induction l as [|x l IH]; intros i [|y o] Hl Ho; simpl; auto.
  destruct Hl as [Hx Hl], Ho as [Hy Ho]. rewrite !Parts_Compare_cons.
  destruct (cmp_range (Hpos i) x y Hx Hy) as [E | [E | E]]; rewrite E; simpl; eauto.
Qed.

Lemma Parts_Compare_congr l : forall i o p,
  all_at pos i l -> all_at pos i o -> all_at pos i p ->
  Parts_Compare l o = 0%Z -> Parts_Compare l p = Parts_Compare o p.
Proof.
  induction l as [|x l IH]; intros i [|y o] [|z p] Hl Ho Hp; try reflexivity;
    try (rewrite ?Parts_Compare_nil_cons, ?Parts_Compare_cons_nil; congruence).
  destruct Hl as [Hx Hl], Ho as [Hy Ho], Hp as [Hz Hp].
    rewrite !Parts_Compare_cons.
    destruct (cmp_range (Hpos i) x y Hx Hy) as [E | [E | E]]; rewrite E;
      try congruence.
    intros H. rewrite (cmp_congr (Hpos i) x y z Hx Hy Hz E).
    destruct (part.Compare y z); eauto.
Qed.

Lemma Parts_Compare_trans l : forall i o p,
  all_at pos i l -> all_at pos i o -> all_at pos i p ->
  Parts_Compare l o = (-1)%Z -> Parts_Compare o p = (-1)%Z ->
  Parts_Compare l p = (-1)%Z.
Proof.
  induction l as [|x l IH]; intros i [|y o] [|z p] Hl Ho Hp; try reflexivity;
    try (rewrite ?Parts_Compare_nil_cons, ?Parts_Compare_cons_nil,
           ?Parts_Compare_nil_nil; congruence).
  destruct Hl as [Hx Hl], Ho as [Hy Ho], Hp as [Hz Hp].
  rewrite !Parts_Compare_cons.
  destruct (cmp_range (Hpos i) x y Hx Hy) as [E1 | [E1 | E1]]; rewrite E1;
    try congruence;
    destruct (cmp_range (Hpos i) y z Hy Hz) as [E2 | [E2 | E2]]; rewrite E2;
    try congruence; intros H1 H2.
  - rewrite (cmp_congr (Hpos i) x y z Hx Hy Hz E1), E2. eauto.
  - rewrite (cmp_congr (Hpos i) x y z Hx Hy Hz E1), E2. reflexivity.
  - assert (E3 : part.Compare x z = (-1)%Z).
    { pose proof (cmp_opp (Hpos i) y z Hy Hz) as O1.
      pose proof (cmp_opp (Hpos i) x z Hx Hz) as O2.
      pose proof (cmp_congr (Hpos i) z y x Hz Hy Hx) as C.
      rewrite E2 in O1. simpl in O1. rewrite (C O1) in O2.
      rewrite (cmp_opp (Hpos i) x y Hx Hy), E1 in O2. simpl in O2.
      lia. }
    rewrite E3. reflexivity.
  - rewrite (cmp_trans (Hpos i) x y z Hx Hy Hz E1 E2). reflexivity.
Qed.

Lemma Comparator_PartsOf : Comparator (PartsOf pos).
Proof.
  constructor.
  - intros x (l & -> & Hl). rewrite Compare_Parts. eapply Parts_Compare_refl; eauto.
  - intros x y (l & -> & Hl) (o & -> & Ho). rewrite !Compare_Parts.
    eapply Parts_Compare_opp; eauto.
  - intros x y (l & -> & Hl) (o & -> & Ho). rewrite !Compare_Parts.
    eapply Parts_Compare_range; eauto.
  - intros x y z (l & -> & Hl) (o & -> & Ho) (p & -> & Hp). rewrite !Compare_Parts.
    eapply Parts_Compare_trans; eauto.
  - intros x y z (l & -> & Hl) (o & -> & Ho) (p & -> & Hp). rewrite !Compare_Parts.
    eapply Parts_Compare_congr; eauto.
Qed.

(** The sentinels around a set of sequences. *)
Lemma Comparator_Ext : Comparator (Ext (PartsOf pos)).
Proof.
  pose proof Comparator_PartsOf as C.
  constructor.
  - intros x [-> | [-> | Hx]]; try reflexivity. apply (cmp_refl C), Hx.
  - intros x y [-> | [-> | Hx]] [-> | [-> | Hy]]; try reflexivity;
      try (destruct Hx as (l & -> & Hl)); try (destruct Hy as (o & -> & Ho));
      try reflexivity.
    apply (cmp_opp C); eexists; eauto.
  - intros x y [-> | [-> | Hx]] [-> | [-> | Hy]];
      try (destruct Hx as (l & -> & Hl)); try (destruct Hy as (o & -> & Ho));
      try (simpl; auto; fail).
    apply (cmp_range C); eexists; eauto.
  - intros x y z [-> | [-> | Hx]] [-> | [-> | Hy]] [-> | [-> | Hz]];
      try (destruct Hx as (l & -> & Hl)); try (destruct Hy as (o & -> & Ho));
      try (destruct Hz as (p & -> & Hp));
      try (simpl; congruence).
    apply (cmp_trans C); eexists; eauto.
  - intros x y z [-> | [-> | Hx]] [-> | [-> | Hy]] [-> | [-> | Hz]];
      try (destruct Hx as (l & -> & Hl)); try (destruct Hy as (o & -> & Ho));
      try (destruct Hz as (p & -> & Hp));
      try (simpl; congruence).
    apply (cmp_congr C); eexists; eauto.
Qed.

End Sequences.

Lemma Comparator_pos_letterNumber i : Comparator (pos_letterNumber i).
Proof. destruct i; [apply Comparator_IsStr | apply Comparator_IsInt]. Qed.

Lemma Comparator_pos_key i : Comparator (pos_key i).
Proof.
  destruct i as [|[|[|[|[|i]]]]]; simpl.
  - apply Comparator_IsInt.
  - apply Comparator_PartsOf. intros; apply Comparator_IsInt.
  - apply Comparator_Ext, Comparator_pos_letterNumber.
  - apply Comparator_Ext, Comparator_pos_letterNumber.
  - apply Comparator_Ext, Comparator_pos_letterNumber.
  - apply Comparator_Ext. intros; apply Comparator_IsTok.
Qed.

End KeyOrder.

Section VersionOrder.

Lemma all_at_const (S : part.Part -> Prop) l : forall i j,
  all_at (fun _ => S) i l -> all_at (fun _ => S) j l.
Proof. induction l; simpl; intros i j H; auto. destruct H. eauto. Qed.

Lemma all_at_Forall (S : part.Part -> Prop) l i :
  all_at (fun _ => S) i l <-> Forall S l.
Proof.
  revert i. induction l as [|x l IH]; intros i; simpl.
  - split; auto.
  - rewrite IH. split; [intros []; constructor; auto | intros H; inversion H; auto].
Qed.

Lemma Normalize_Forall (S : part.Part -> Prop) l :
  Forall S l -> Forall S (part.Normalize l).
Proof.
  intros H. induction H as [|x l Hx Hl IH]; simpl; auto.
  destruct (part.Normalize l); [destruct (part.IsNull x); auto|]. constructor; auto.
Qed.

Lemma Normalize_idem l : part.Normalize (part.Normalize l) = part.Normalize l.
Proof.
  induction l as [|x l IH]; simpl; auto.
  destruct (part.Normalize l) as [|q qs] eqn:E.
  - destruct (part.IsNull x) eqn:N; simpl; auto. rewrite N. reflexivity.
  - remember (q :: qs) as t. simpl. rewrite IH. subst t. reflexivity.
Qed.

Lemma release_key_cmpkey r : release_key (part.Normalize (part.BigIntSliceToParts r)).
Proof.
  split; [|apply Normalize_idem].
  apply all_at_Forall, Normalize_Forall. unfold part.BigIntSliceToParts.
  induction r; simpl; constructor; auto. eexists; reflexivity.
Qed.

Lemma release_key_tail x l : release_key (x :: l) -> release_key l.
Proof.
  intros [[_ H] N]. split; [eapply all_at_const; eauto|].
  simpl in N. destruct (part.Normalize l) as [|q qs] eqn:E.
  - destruct (part.IsNull x); [discriminate|]. injection N as <-. reflexivity.
  - injection N as <-. reflexivity.
Qed.

Lemma release_key_single_nonzero x :
  release_key [x] -> part.Compare zero_part x = (-1)%Z.
Proof.
  intros [[[n ->] _] N]. simpl in N.
  destruct (N.eqb_spec n 0); [discriminate|].
  unfold zero_part, part.Zero. simpl. unfold part.BigInt_Compare.
  destruct (N.compare_spec 0 n); auto; lia.
Qed.

Lemma Compare_zero_int x :
  IsInt x ->
  part.Compare zero_part x = 0%Z \/ part.Compare zero_part x = (-1)%Z.
Proof.
  intros [n ->]. unfold zero_part, part.Zero. simpl. unfold part.BigInt_Compare.
  destruct (N.compare_spec 0 n); auto; lia.
Qed.

Lemma zeros_below_release l :
  release_key l -> l <> [] ->
  Parts_Compare (repeat zero_part (List.length l)) l = (-1)%Z.
Proof.
  induction l as [|x l IH]; intros Hk Hne; [congruence|].
  cbn [List.length repeat]. rewrite Parts_Compare_cons.
  destruct l as [|y l].
  - rewrite (release_key_single_nonzero Hk). reflexivity.
  - destruct Hk as [[Hx Hl] N].
    destruct (Compare_zero_int Hx) as [E | E]; rewrite E; auto.
    apply IH; [|discriminate].
    apply (@release_key_tail x). split; auto. split; auto.
Qed.

Lemma Compare_int_zero x :
  part.Compare x zero_part = (- part.Compare zero_part x)%Z.
Proof.
  destruct x; try reflexivity.
  unfold zero_part, part.Zero. simpl. unfold part.BigInt_Compare.
  rewrite N.compare_antisym. destruct (N.compare 0 n); reflexivity.
Qed.

Lemma release_above_zeros l :
  release_key l -> l <> [] ->
  Parts_Compare l (repeat zero_part (List.length l)) = 1%Z.
Proof.
  induction l as [|x l IH]; intros Hk Hne; [congruence|].
  cbn [List.length repeat]. rewrite Parts_Compare_cons, Compare_int_zero.
  destruct l as [|y l].
  - rewrite (release_key_single_nonzero Hk). reflexivity.
  - destruct Hk as [[Hx Hl] N].
    destruct (Compare_zero_int Hx) as [E | E]; rewrite E; auto.
    apply IH; [|discriminate].
    apply (@release_key_tail x). split; auto. split; auto.
Qed.

(** Padding the receiver alone decides as the unpadded comparison. *)
Lemma Padding_receiver r1 : forall r2,
  release_key r2 ->
  Parts_Compare (part.Padding r1 (List.length r2) zero_part) r2
  = Parts_Compare r1 r2.
Proof.
  unfold part.Padding.
  induction r1 as [|a r1 IH]; intros r2 Hk.
  - cbn [app List.length]. rewrite Nat.sub_0_r.
    destruct r2 as [|b r2]; [reflexivity|].
    rewrite zeros_below_release by (auto; discriminate). reflexivity.
  - destruct r2 as [|b r2]; cbn [List.length Nat.sub app repeat].
    + rewrite app_nil_r. reflexivity.
    + rewrite !Parts_Compare_cons, IH; auto. eapply release_key_tail; eauto.
Qed.

(** Padding both sides decides in the same way. *)
Lemma Padding_both r1 : forall r2,
  release_key r1 -> release_key r2 ->
  Parts_Compare (part.Padding r1 (List.length r2) zero_part)
                (part.Padding r2 (List.length r1) zero_part)
  = Parts_Compare r1 r2.
Proof.
  unfold part.Padding.
  induction r1 as [|a r1 IH]; intros r2 Hk1 Hk2.
  - cbn [app List.length]. rewrite Nat.sub_0_r, app_nil_r.
    destruct r2 as [|b r2]; [reflexivity|].
    rewrite zeros_below_release by (auto; discriminate). reflexivity.
  - destruct r2 as [|b r2].
    + change (List.length (@nil part.Part) - List.length (a :: r1))%nat with 0%nat.
      change (List.length (@nil part.Part)) with 0%nat.
      rewrite Nat.sub_0_r. cbn [repeat app]. rewrite app_nil_r.
      change (zero_part :: repeat zero_part (List.length r1))
        with (repeat zero_part (List.length (a :: r1))).
      rewrite (@release_above_zeros (a :: r1)) by (auto; discriminate). reflexivity.
    + cbn [List.length Nat.sub app repeat].
      rewrite !Parts_Compare_cons, IH; auto; eapply release_key_tail; eauto.
Qed.

(** The keys that [cmpkey] builds. *)
Lemma local_part_IsTok l : IsTok (local_part l).
Proof.
  unfold local_part, IsTok. destruct (part.NewBigInt l); eauto.
Qed.

Lemma cmpkey_class e r p q d l :
  all_at pos_key 0 (key_parts (cmpkey e r p q d l)).
Proof.
  unfold key_parts, cmpkey. cbn [all_at key_epoch key_release key_pre key_post
                                 key_dev key_local pos_key].
  assert (LN : forall ln : letterNumber,
             PartsOf pos_letterNumber
               (part.of_Parts [part.of_String (letter ln); part.of_BigInt (number ln)])).
  { intros ln. eexists. split; [reflexivity|]. simpl.
    repeat split; eexists; reflexivity. }
  repeat split.
  - eexists; reflexivity.
  - eexists. split; [reflexivity|]. apply release_key_cmpkey.
  - destruct (_ && _ && _); [right; left; reflexivity|].
    destruct (letterNumber_isNull p); [left; reflexivity|]. right. right. apply LN.
  - destruct (letterNumber_isNull q); [right; left; reflexivity|]. right. right. apply LN.
  - destruct (letterNumber_isNull d); [left; reflexivity|]. right. right. apply LN.
  - destruct (String.eqb l ""); [right; left; reflexivity|]. right. right.
    eexists. split; [reflexivity|]. apply all_at_Forall.
    induction (Split l "."); simpl; constructor; auto. apply local_part_IsTok.
Qed.

Lemma key_compare_Parts k o :
  key_compare k o = Parts_Compare (key_parts k) (key_parts o).
Proof. reflexivity. Qed.

Lemma is_cmpkey_class k : is_cmpkey k -> all_at pos_key 0 (key_parts k).
Proof. intros (e & r & p & q & d & l & ->). apply cmpkey_class. Qed.

Lemma is_cmpkey_release k : is_cmpkey k -> release_key (key_release k).
Proof. intros (e & r & p & q & d & l & ->). apply release_key_cmpkey. Qed.

Lemma wf_is_cmpkey v : wfVersion v -> is_cmpkey (vkey v).
Proof. intros [_ -> _]. repeat eexists. Qed.

Lemma key_compare_refl k : is_cmpkey k -> key_compare k k = 0%Z.
Proof.
  intros H. rewrite key_compare_Parts.
  eapply Parts_Compare_refl; [apply Comparator_pos_key | apply is_cmpkey_class, H].
Qed.

Lemma key_compare_opp k o :
  is_cmpkey k -> is_cmpkey o -> key_compare o k = (- key_compare k o)%Z.
Proof.
  intros Hk Ho. rewrite !key_compare_Parts.
  eapply Parts_Compare_opp; [apply Comparator_pos_key | | ];
    apply is_cmpkey_class; auto.
Qed.

Lemma key_compare_range k o :
  is_cmpkey k -> is_cmpkey o ->
  key_compare k o = 0%Z \/ key_compare k o = 1%Z \/ key_compare k o = (-1)%Z.
Proof.
  intros Hk Ho. rewrite !key_compare_Parts.
  eapply Parts_Compare_range; [apply Comparator_pos_key | | ];
    apply is_cmpkey_class; auto.
Qed.

Lemma key_compare_trans k o p :
  is_cmpkey k -> is_cmpkey o -> is_cmpkey p ->
  key_compare k o = (-1)%Z -> key_compare o p = (-1)%Z ->
  key_compare k p = (-1)%Z.
Proof.
  intros Hk Ho Hp. rewrite !key_compare_Parts.
  eapply Parts_Compare_trans; [apply Comparator_pos_key | | | ];
    apply is_cmpkey_class; auto.
Qed.

Lemma key_compare_congr k o p :
  is_cmpkey k -> is_cmpkey o -> is_cmpkey p ->
  key_compare k o = 0%Z -> key_compare k p = key_compare o p.
Proof.
  intros Hk Ho Hp. rewrite !key_compare_Parts.
  eapply Parts_Compare_congr; [apply Comparator_pos_key | | | ];
    apply is_cmpkey_class; auto.
Qed.

Lemma Padding_self l p : part.Padding l (List.length l) p = l.
Proof. unfold part.Padding. rewrite Nat.sub_diag. apply app_nil_r. Qed.

Lemma padded_compare_key k1 k2 :
  is_cmpkey k2 -> padded_compare k1 k2 = key_compare k1 k2.
Proof.
  intros H2. unfold padded_compare. rewrite Padding_self.
  rewrite !key_compare_Parts. unfold key_parts.
  cbn [key_epoch key_release key_pre key_post key_dev key_local].
  rewrite !Parts_Compare_cons, !Compare_Parts.
  fold zero_part. rewrite Padding_receiver by (apply is_cmpkey_release, H2).
  reflexivity.
Qed.

(** Two well-formed versions with one canonical text have one key. *)
Lemma same_String_same_key a b s :
  wfVersion a -> wfVersion b ->
  Version_String a = Val s -> Version_String b = Val s -> vkey a = vkey b.
Proof.
  intros Ha Hb Sa Sb.
  destruct (Parse_String Ha) as (sa & Ea & Pa).
  destruct (Parse_String Hb) as (sb & Eb & Pb).
  assert (sa = s) by congruence. assert (sb = s) by congruence. subst sa sb.
  rewrite Pa in Pb. injection Pb as E1 E2 E3 E4 E5 E6.
  rewrite (wf_key Ha), (wf_key Hb). congruence.
Qed.

Lemma wf_String a : wfVersion a -> exists s, Version_String a = Val s.
Proof. intros H. destruct (Parse_String H) as (s & E & _). eauto. Qed.

(** On well-formed versions [Compare] is the comparison of the keys. *)
Lemma Version_Compare_wf a b :
  wfVersion a -> wfVersion b ->
  Version_Compare a b = Val (key_compare (vkey a) (vkey b)).
Proof.
  intros Ha Hb. unfold Version_Compare.
  destruct (wf_String Ha) as (sa & Ea). destruct (wf_String Hb) as (sb & Eb).
  rewrite Ea, Eb. cbn [obind].
  destruct (String.eqb_spec sa sb) as [E | E].
  - subst sb. rewrite (same_String_same_key Ha Hb Ea Eb).
    rewrite key_compare_refl; [reflexivity | apply wf_is_cmpkey, Hb].
  - fold (padded_compare (vkey a) (vkey b)).
    rewrite padded_compare_key; [reflexivity | apply wf_is_cmpkey, Hb].
Qed.

End VersionOrder.

Section PublicAndBase.

Lemma no_plus_app a b : no_plus a -> no_plus b -> no_plus (a ++ b)%string.
Proof. unfold no_plus. rewrite list_of_app, Forall_app. auto. Qed.

Lemma digit_not_plus a : is_digit a = true -> Ascii.eqb a "+" = false.
Proof. destruct a as [[] [] [] [] [] [] [] []]; vm_compute; congruence. Qed.

Lemma no_plus_decimal n : no_plus (decimal n).
Proof.
  unfold no_plus. eapply Forall_impl; [|apply decimal_digits].
  intros a. apply digit_not_plus.
Qed.

Lemma no_plus_closed s :
  forallb (fun a => negb (Ascii.eqb a "+")) (L s) = true -> no_plus s.
Proof.
  unfold no_plus. intros H. apply Forall_forall. intros a Ha.
  rewrite forallb_forall in H. apply H in Ha. destruct (Ascii.eqb a "+"); auto; discriminate.
Qed.

Lemma no_plus_epoch e : no_plus (render_epoch e).
Proof.
  unfold render_epoch. destruct (_ =? 1)%Z.
  - apply no_plus_app; [apply no_plus_decimal | apply no_plus_closed; reflexivity].
  - apply no_plus_closed. reflexivity.
Qed.

Lemma no_plus_release r0 rs : no_plus (render_release r0 rs).
Proof.
  unfold render_release. apply no_plus_app; [apply no_plus_decimal|].
  induction rs as [|r rs IH]; [apply no_plus_closed; reflexivity|].
  cbn [map]. rewrite concat_empty_cons.
  apply no_plus_app; [|exact IH].
  apply (@no_plus_app "." (decimal r)); [apply no_plus_closed; reflexivity|].
  apply no_plus_decimal.
Qed.

Lemma no_plus_pre p : pre_ok p -> no_plus (render_pre p).
Proof.
  intros H. unfold render_pre.
  destruct (pre_cases H) as [(E & _) | (E & Hl)]; rewrite E; simpl.
  - apply no_plus_closed. reflexivity.
  - apply no_plus_app; [|apply no_plus_decimal].
    destruct Hl as [-> | [-> | ->]]; apply no_plus_closed; reflexivity.
Qed.

Lemma no_plus_post q : no_plus (render_post q).
Proof.
  unfold render_post. destruct (negb _); [|apply no_plus_closed; reflexivity].
  apply no_plus_app; [apply no_plus_closed; reflexivity | apply no_plus_decimal].
Qed.

Lemma no_plus_dev d : no_plus (render_dev d).
Proof.
  unfold render_dev. destruct (negb _); [|apply no_plus_closed; reflexivity].
  apply no_plus_app; [apply no_plus_closed; reflexivity | apply no_plus_decimal].
Qed.

Lemma render_public e r0 rs p q d l :
  render e r0 rs p q d l = (render e r0 rs p q d "" ++ render_local l)%string.
Proof.
  unfold render. replace (render_local "") with "" by reflexivity.
  rewrite string_app_nil_r, !string_app_assoc. reflexivity.
Qed.

Lemma no_plus_public e r0 rs p q d :
  pre_ok p -> no_plus (render e r0 rs p q d "").
Proof.
  intros H. unfold render.
  apply no_plus_app; [apply no_plus_app;
                      [apply no_plus_epoch | apply no_plus_release]|].
  apply no_plus_app; [apply no_plus_pre, H|].
  apply no_plus_app; [apply no_plus_post|].
  apply no_plus_app; [apply no_plus_dev|].
  apply no_plus_closed. reflexivity.
Qed.

Lemma prefix_plus a s :
  String.prefix "+" (String a s) = Ascii.eqb a "+".
Proof.
  cbn [String.prefix]. destruct (ascii_dec "+" a) as [<- | N].
  - destruct s; reflexivity.
  - symmetry. apply Ascii.eqb_neq. congruence.
Qed.

Lemma cut_from_no_plus (s1 : string) : forall cur s2,
  no_plus s1 -> (s2 = "" \/ exists l, s2 = String "+" l) ->
  exists rest,
    cut_from "+" cur (s1 ++ s2)%string
    = string_of_list_ascii (rev cur ++ L s1) :: rest.
Proof.
  induction s1 as [|a s1 IH]; intros cur s2 H1 H2.
  - destruct H2 as [-> | [l ->]]; cbn [append L]; rewrite app_nil_r.
    + eexists. reflexivity.
    + cbn [cut_from]. rewrite prefix_plus. eexists. reflexivity.
  - inversion H1 as [|? ? Ha H1']; subst.
    cbn [append cut_from]. rewrite prefix_plus, Ha.
    destruct (IH (a :: cur) s2 H1' H2) as [rest E]. rewrite E.
    exists rest. cbn [rev L]. rewrite <- app_assoc. reflexivity.
Qed.

Lemma wfFields_public r p q d l : wfFields r p q d l -> wfFields r p q d "".
Proof. intros [? ? ? ? ?]. constructor; auto. left. reflexivity. Qed.

Lemma null_ln_ok : pre_ok null_ln /\ post_ok null_ln /\ dev_ok null_ln.
Proof. repeat split; left; split; reflexivity. Qed.

Lemma wfFields_base r p q d l :
  wfFields r p q d l -> wfFields r null_ln null_ln null_ln "".
Proof.
  intros [? ? ? ? ?]. destruct null_ln_ok as (? & ? & ?).
  constructor; auto. left. reflexivity.
Qed.

Lemma wf_public_of v : wfVersion v -> wfVersion (public_of v).
Proof.
  intros H. apply wfVersion_mkParsed. eapply wfFields_public. apply H.
Qed.

Lemma wf_base_of v : wfVersion v -> wfVersion (base_of v).
Proof.
  intros H. apply wfVersion_mkParsed. eapply wfFields_base. apply H.
Qed.

(** [Public] of a well-formed version is the canonical text of its public
    version, and parses to it. *)
Lemma Public_wf v :
  wfVersion v ->
  exists pub, Public v = Val pub /\ MustParse pub = Val (public_of v).
Proof.
  intros Hwf. destruct (wf_release_cons Hwf) as (r0 & rs & E).
  exists (render (epoch v) r0 rs (pre v) (post v) (dev v) "").
  split.
  - unfold Public. rewrite (Version_String_render v E). cbn [obind].
    rewrite render_public. unfold SplitN2.
    destruct (@cut_from_no_plus
                (render (epoch v) r0 rs (pre v) (post v) (dev v) "") []
                (render_local (local v))) as [rest Hc].
    + apply no_plus_public, Hwf.
    + unfold render_local. destruct (negb _); [right; eexists; reflexivity | left; reflexivity].
    + rewrite Hc. cbn [rev app]. rewrite string_of_list_ascii_of_string. reflexivity.
  - unfold MustParse, public_of. rewrite E, Parse_render; [reflexivity|].
    rewrite <- E. eapply wfFields_public. apply Hwf.
Qed.

(** [BaseVersion] likewise. *)
Lemma BaseVersion_wf v :
  wfVersion v ->
  exists base, BaseVersion v = Val base /\ MustParse base = Val (base_of v).
Proof.
  intros Hwf. destruct (wf_release_cons Hwf) as (r0 & rs & E).
  exists (render (epoch v) r0 rs null_ln null_ln null_ln "").
  split.
  - unfold BaseVersion, render_base. rewrite E. f_equal.
    unfold render. change (render_pre null_ln) with "".
    change (render_post null_ln) with "". change (render_dev null_ln) with "".
    change (render_local "") with "". cbn [append].
    rewrite string_app_nil_r. reflexivity.
  - unfold MustParse, base_of. rewrite E, Parse_render; [reflexivity|].
    rewrite <- E. eapply wfFields_base. apply Hwf.
Qed.

End PublicAndBase.

Section VersionProperties.

(** C4. Canonicalization is idempotent: when [Parse] accepts a string
    and yields [v], [Parse] also accepts [v.String()], and the [String()]
    of the result is [v.String()] again. *)
Theorem canonicalization_idempotent (s : string) (v : Version) :
  Parse s = Some v ->
  exists str v',
    Version_String v = Val str /\ Parse str = Some v' /\
    Version_String v' = Val str.
Proof.
  intros H. apply Parse_wf in H.
  destruct (Parse_String H) as (str & E & P).
  exists str. eexists. split; [exact E|]. split; [exact P|].
  destruct (wf_release_cons H) as (r0 & rs & Er).
  rewrite (@Version_String_render _ r0 rs) by exact Er.
  cbn [epoch pre post dev local mkParsed].
  rewrite (Version_String_render v Er) in E. exact E.
Qed.

Lemma canonicalization_idempotent_witness :
  exists v str v',
    Parse " V1!02.0-ALPHA_3.Post.dev4+Ab-1 " = Some v /\
    Version_String v = Val str /\ Parse str = Some v' /\
    Version_String v' = Val str.
Proof.
  eexists.
  assert (P : Parse " V1!02.0-ALPHA_3.Post.dev4+Ab-1 " = Some _)
    by (vm_compute; reflexivity).
  destruct (canonicalization_idempotent _ P) as (str & v' & H).
  exists str, v'. split; [exact P | exact H].
Defined.

Lemma comparisons_wf a b :
  wfVersion a -> wfVersion b ->
  LessThan a b = Val (key_compare (vkey a) (vkey b) <? 0)%Z /\
  Equal a b = Val (key_compare (vkey a) (vkey b) =? 0)%Z /\
  GreaterThan a b = Val (key_compare (vkey a) (vkey b) >? 0)%Z /\
  LessThanOrEqual a b = Val (key_compare (vkey a) (vkey b) <=? 0)%Z /\
  GreaterThanOrEqual a b = Val (key_compare (vkey a) (vkey b) >=? 0)%Z.
Proof.
  intros Ha Hb.
  unfold LessThan, Equal, GreaterThan, LessThanOrEqual, GreaterThanOrEqual.
  rewrite (Version_Compare_wf Ha Hb). repeat split; reflexivity.
Qed.

(** C1. On versions obtained from [Parse] the comparisons form a total
    order: exactly one of [a.LessThan(b)], [a.Equal(b)],
    [a.GreaterThan(b)] holds (and [a.GreaterThan(b)] is [b.LessThan(a)]),
    and [LessThan] is transitive. *)
Theorem total_order (sa sb sc : string) (a b c : Version) :
  Parse sa = Some a -> Parse sb = Some b -> Parse sc = Some c ->
  (exists lt eq gt : bool,
      LessThan a b = Val lt /\ Equal a b = Val eq /\
      GreaterThan a b = Val gt /\ LessThan b a = Val gt /\
      ((lt = true /\ eq = false /\ gt = false) \/
       (lt = false /\ eq = true /\ gt = false) \/
       (lt = false /\ eq = false /\ gt = true))) /\
  (LessThan a b = Val true -> LessThan b c = Val true ->
   LessThan a c = Val true).
Proof.
  intros Ha Hb Hc.
  apply Parse_wf in Ha, Hb, Hc.
  pose proof (wf_is_cmpkey Ha) as Ka.
  pose proof (wf_is_cmpkey Hb) as Kb.
  pose proof (wf_is_cmpkey Hc) as Kc.
  destruct (comparisons_wf Ha Hb) as (Lab & Eab & Gab & _).
  destruct (comparisons_wf Hb Ha) as (Lba & _).
  destruct (comparisons_wf Hb Hc) as (Lbc & _).
  destruct (comparisons_wf Ha Hc) as (Lac & _).
  pose proof (key_compare_opp Ka Kb) as O.
  split.
  - do 3 eexists. split; [exact Lab|]. split; [exact Eab|]. split; [exact Gab|].
    split; [rewrite Lba, O; f_equal;
            destruct (key_compare (vkey a) (vkey b)); reflexivity|].
    destruct (key_compare_range Ka Kb) as [E | [E | E]]; rewrite E; cbn; auto.
  - rewrite Lab, Lbc, Lac. intros [= H1] [= H2]. f_equal.
    destruct (key_compare_range Ka Kb) as [E1 | [E1 | E1]];
      rewrite E1 in H1; try discriminate.
    destruct (key_compare_range Kb Kc) as [E2 | [E2 | E2]];
      rewrite E2 in H2; try discriminate.
    rewrite (key_compare_trans Ka Kb Kc E1 E2). reflexivity.
Qed.

Lemma total_order_witness :
  exists a b c,
    Parse "1.0rc1" = Some a /\ Parse "1.0" = Some b /\
    Parse "1.0.post1" = Some c /\
    (LessThan a b = Val true -> LessThan b c = Val true ->
     LessThan a c = Val true).
Proof.
  do 3 eexists.
  assert (Pa : Parse "1.0rc1" = Some _) by (vm_compute; reflexivity).
  assert (Pb : Parse "1.0" = Some _) by (vm_compute; reflexivity).
  assert (Pc : Parse "1.0.post1" = Some _) by (vm_compute; reflexivity).
  split; [exact Pa|]. split; [exact Pb|]. split; [exact Pc|].
  exact (proj2 (total_order _ _ _ Pa Pb Pc)).
Defined.

Lemma key_compare_lexicographic k o :
  key_compare k o
  = lexicographic
      [part.Compare (part.of_BigInt (key_epoch k)) (part.of_BigInt (key_epoch o));
       part.Compare (part.of_Parts (key_release k)) (part.of_Parts (key_release o));
       part.Compare (key_pre k) (key_pre o);
       part.Compare (key_post k) (key_post o);
       part.Compare (key_dev k) (key_dev o);
       part.Compare (key_local k) (key_local o)].
Proof.
  rewrite key_compare_Parts. unfold key_parts.
  rewrite !Parts_Compare_cons, Parts_Compare_nil_nil.
  generalize (part.Compare (part.of_BigInt (key_epoch k)) (part.of_BigInt (key_epoch o))).
  generalize (part.Compare (part.of_Parts (key_release k)) (part.of_Parts (key_release o))).
  generalize (part.Compare (key_pre k) (key_pre o)).
  generalize (part.Compare (key_post k) (key_post o)).
  generalize (part.Compare (key_dev k) (key_dev o)).
  generalize (part.Compare (key_local k) (key_local o)).
  intros c6 c5 c4 c3 c2 c1. cbn [lexicographic].
  destruct c1; try reflexivity. destruct c2; try reflexivity.
  destruct c3; try reflexivity. destruct c4; try reflexivity.
  destruct c5; try reflexivity. destruct c6; reflexivity.
Qed.

(** C2. [Compare] returns 0 whenever the two canonical texts are the
    same, and otherwise decides as the lexicographic comparison of the
    six key components after both release keys were padded with zeros to
    the length of the other. *)
Theorem Compare_as_specified (sa sb : string) (a b : Version) :
  Parse sa = Some a -> Parse sb = Some b ->
  Version_Compare a b = Compare_spec a b /\
  (forall s, Version_String a = Val s -> Version_String b = Val s ->
             Version_Compare a b = Val 0%Z).
Proof.
  intros Ha Hb. apply Parse_wf in Ha, Hb. split.
  - unfold Version_Compare, Compare_spec.
    destruct (Version_String a) as [s1|]; [|reflexivity].
    destruct (Version_String b) as [s2|]; [|reflexivity]. cbn [obind].
    destruct (String.eqb s1 s2); [reflexivity|]. f_equal.
    fold (padded_compare (vkey a) (vkey b)).
    rewrite padded_compare_key by (apply wf_is_cmpkey, Hb).
    rewrite Compare_Parts. fold zero_part.
    rewrite Padding_both
      by (apply is_cmpkey_release, wf_is_cmpkey; assumption).
    rewrite key_compare_lexicographic, Compare_Parts. reflexivity.
  - intros s Sa Sb. unfold Version_Compare. rewrite Sa, Sb. cbn [obind].
    rewrite String.eqb_refl. reflexivity.
Qed.

Lemma Compare_as_specified_witness :
  exists a b,
    Parse "1.2" = Some a /\ Parse "1.2.0.1" = Some b /\
    Version_Compare a b = Compare_spec a b /\
    Version_Compare b a = Compare_spec b a.
Proof.
  do 2 eexists.
  assert (Pa : Parse "1.2" = Some _) by (vm_compute; reflexivity).
  assert (Pb : Parse "1.2.0.1" = Some _) by (vm_compute; reflexivity).
  split; [exact Pa|]. split; [exact Pb|]. split.
  - exact (proj1 (Compare_as_specified _ _ Pa Pb)).
  - exact (proj1 (Compare_as_specified _ _ Pb Pa)).
Defined.

(** C3. The versions of the chain 1.0.dev1, 1.0a1, 1.0a1.post1.dev1,
    1.0a1.post1, 1.0b1, 1.0rc1, 1.0, 1.0.post1, 1.1.dev1 parse, and each
    is [LessThan] every later one; the key holds [NegativeInfinity] for a
    null pre with null post and non-null dev, [Infinity] for any other
    null pre, [NegativeInfinity] for a null post and [Infinity] for a null
    dev. *)
Theorem pre_post_dev_ordering :
  strictly_ascending ordering_chain = true /\
  (forall e r p q d l,
      key_pre (cmpkey e r p q d l)
      = if letterNumber_isNull p && letterNumber_isNull q
           && negb (letterNumber_isNull d)
        then part.NegativeInfinity
        else if letterNumber_isNull p then part.Infinity
             else part.of_Parts [part.of_String (letter p);
                                 part.of_BigInt (number p)]) /\
  (forall e r p q d l,
      key_post (cmpkey e r p q d l)
      = if letterNumber_isNull q then part.NegativeInfinity
        else part.of_Parts [part.of_String (letter q);
                            part.of_BigInt (number q)]) /\
  (forall e r p q d l,
      key_dev (cmpkey e r p q d l)
      = if letterNumber_isNull d then part.Infinity
        else part.of_Parts [part.of_String (letter d);
                            part.of_BigInt (number d)]) /\
  (forall ps, part.Compare part.NegativeInfinity (part.of_Parts ps) = (-1)%Z
              /\ part.Compare (part.of_Parts ps) part.Infinity = (-1)%Z) /\
  part.Compare part.NegativeInfinity part.Infinity = (-1)%Z.
Proof.
  split; [vm_compute; reflexivity|].
  repeat split.
Qed.

End VersionProperties.

Section SpecifierProperties.

Lemma prefixElements_loop_take_while ss : forall acc,
  prefixElements_loop acc ss
  = acc ++ take_while (fun s => negb (HasPrefix s "post" || HasPrefix s "dev")) ss.
Proof.
  induction ss as [|s ss IH]; intros acc; cbn [prefixElements_loop take_while].
  - rewrite app_nil_r. reflexivity.
  - destruct (HasPrefix s "post" || HasPrefix s "dev"); cbn [negb].
    + rewrite app_nil_r. reflexivity.
    + rewrite IH, <- app_assoc. reflexivity.
Qed.

Lemma firstn_removelast {A : Type} (l : list A) :
  firstn (List.length l - 1) l = removelast l.
Proof.
  induction l as [|x l IH]; [reflexivity|].
  destruct l as [|y l]; [reflexivity|].
  cbn [List.length Nat.sub firstn removelast] in *.
  rewrite Nat.sub_0_r in *. f_equal. exact IH.
Qed.

Lemma Check_compatible_pair v spec init last o1 o2 o3 :
  prefixElements_loop [] (versionSplit spec) = init ++ [last] ->
  Check {| constraints := [[mkConstraint spec (Some specifierCompatible) o1]] |} v
  = Check {| constraints :=
               [[mkConstraint spec (Some specifierGreaterThanEqual) o2;
                 mkConstraint (Join init "." ++ ".*") (Some specifierEqual) o3]] |} v.
Proof.
  intros E. unfold Check.
  cbn [constraints Check_loop andCheck check c_operator c_version].
  unfold specifierCompatible. cbv zeta. rewrite E.
  assert (S : match init ++ [last] with
              | [] => Panic
              | _ :: _ => slice_to (init ++ [last])
                                   (List.length (init ++ [last]) - 1)
              end = Val init).
  { assert (S' : slice_to (init ++ [last]) (List.length (init ++ [last]) - 1)
                 = Val init).
    { unfold slice_to. rewrite firstn_removelast, removelast_last.
      replace (_ <=? _)%nat with true by (symmetry; apply Nat.leb_le; lia).
      reflexivity. }
    destruct (init ++ [last]) eqn:E'; [destruct init; discriminate|exact S']. }
  rewrite S. cbn [obind].
  destruct (specifierGreaterThanEqual v spec) as [[|]|]; reflexivity.
Qed.

(** C5. The two examples hold: for every version the constraints of
    [~=2.2] and of [>=2.2,==2.*] check alike, and so do those of
    [~=2.2.post3] and [>=2.2.post3,==2.*]; in both the prefix is the one
    of the specification.  The general statement does not hold of the
    code: [specifierCompatible] recognises a post or dev token by the
    literal beginning [post] or [dev] of the clause text, so a
    post-release written [rev3], which [validate] accepts and [Parse]
    reads as the post-release 3, stays among the tokens.  [~=2.2.rev3]
    checks as [>=2.2.rev3,==2.2.*] on every version, not as
    [>=2.2.rev3,==2.*]: on 2.3 the code answers false where the clauses
    of the specification answer true. *)
Theorem compatible_prefix_departs_from_specification :
  NewConstraints "~=2.2" = Some compatible_2_2 /\
  NewConstraints ">=2.2,==2.*" = Some at_least_2_2_and_2_any /\
  (forall v, Check compatible_2_2 v = Check at_least_2_2_and_2_any v) /\
  NewConstraints "~=2.2.post3" = Some compatible_2_2_post3 /\
  NewConstraints ">=2.2.post3,==2.*" = Some at_least_2_2_post3_and_2_any /\
  (forall v, Check compatible_2_2_post3 v
             = Check at_least_2_2_post3_and_2_any v) /\
  exists s s' s'' v,
    Parse "2.2" = Some s /\
    compatible_spec "2.2" s = at_least_2_2_and_2_any /\
    Parse "2.2.post3" = Some s' /\
    compatible_spec "2.2.post3" s' = at_least_2_2_post3_and_2_any /\
    validate "~=" "2.2.rev3" = None /\
    Parse "2.2.rev3" = Some s'' /\
    post s'' = post s' /\
    compatible_prefix_spec s'' = "2.*" /\
    prefixElements_loop [] (versionSplit "2.2.rev3") = ["2"; "2"; "rev3"] /\
    NewConstraints "~=2.2.rev3" = Some compatible_2_2_rev3 /\
    (forall w, Check compatible_2_2_rev3 w
               = Check at_least_2_2_rev3_and_2_2_any w) /\
    NewConstraints ">=2.2.rev3,==2.*" = Some (compatible_spec "2.2.rev3" s'') /\
    Parse "2.3" = Some v /\
    Check compatible_2_2_rev3 v = Val false /\
    Check (compatible_spec "2.2.rev3" s'') v = Val true.
Proof.
  split; [reflexivity|]. split; [reflexivity|].
  split; [intros v; apply (@Check_compatible_pair v "2.2" ["2"] "2");
          reflexivity|].
  split; [reflexivity|]. split; [reflexivity|].
  split; [intros v; apply (@Check_compatible_pair v "2.2.post3" ["2"] "2");
          reflexivity|].
  do 4 eexists.
  split; [vm_compute; reflexivity|].
  split; [reflexivity|].
  split; [vm_compute; reflexivity|].
  split; [reflexivity|].
  split; [vm_compute; reflexivity|].
  split; [vm_compute; reflexivity|].
  split; [reflexivity|].
  split; [vm_compute; reflexivity|].
  split; [vm_compute; reflexivity|].
  split; [reflexivity|].
  split; [intros w;
          apply (@Check_compatible_pair w "2.2.rev3" ["2"; "2"] "rev3");
          reflexivity|].
  split; [reflexivity|].
  split; [vm_compute; reflexivity|].
  split; [vm_compute; reflexivity|].
  vm_compute; reflexivity.
Qed.

(** C6. The wildcard clause does not match as the specification says:
    [padVersion] takes the remaining tokens of the right operand from
    the left operand, and its padding loops stop early because their
    bound shrinks as they append.  The theorem evaluates the code where
    it departs from the specification: [==1.0.post1.*] matches
    1.0.post2, and [==1.0.0.*] does not match 1. *)
Theorem wildcard_match_departs_from_specification :
  exists v v',
    let cs := {| constraints :=
                   [[mkConstraint "1.0.post1.*" (Some specifierEqual)
                                  "==1.0.post1.*"]] |} in
    let cs' := {| constraints :=
                    [[mkConstraint "1.0.0.*" (Some specifierEqual)
                                   "==1.0.0.*"]] |} in
    NewConstraints "==1.0.post1.*" = Some cs /\
    Parse "1.0.post2" = Some v /\
    Check cs v = Val true /\
    wildcard_match_spec "1.0.post1.*" v = Val false /\
    padVersion ["1"; "0"; "post1"] ["1"; "0"; "post2"]
    = Val (["1"; "0"; "post1"], ["1"; "0"; "post1"]) /\
    NewConstraints "==1.0.0.*" = Some cs' /\
    Parse "1" = Some v' /\
    Check cs' v' = Val false /\
    wildcard_match_spec "1.0.0.*" v' = Val true /\
    padVersion ["1"; "0"; "0"] ["1"]
    = Val (["1"; "0"; "0"], ["1"; "0"; "0"; "0"]).
Proof.
  do 2 eexists. cbv zeta.
  split; [reflexivity|].
  split; [vm_compute; reflexivity|].
  split; [vm_compute; reflexivity|].
  split; [vm_compute; reflexivity|].
  split; [vm_compute; reflexivity|].
  split; [reflexivity|].
  split; [vm_compute; reflexivity|].
  split; [vm_compute; reflexivity|].
  split; [vm_compute; reflexivity|].
  vm_compute; reflexivity.
Qed.

Lemma newConstraints_group_fails singles : forall cs single,
  In single singles -> newConstraint single = None ->
  newConstraints_group cs singles = None.
Proof.
  induction singles as [|s singles IH]; intros cs single Hin Hn; [contradiction|].
  cbn [newConstraints_group]. destruct Hin as [-> | Hin].
  - rewrite Hn. reflexivity.
  - destruct (newConstraint s); [eapply IH; eauto | reflexivity].
Qed.

Lemma newConstraints_groups_fails vvs : forall css vv,
  In vv vvs -> newConstraints_group [] (Split vv ",") = None ->
  newConstraints_groups css vvs = None.
Proof.
  induction vvs as [|s vvs IH]; intros css vv Hin Hn; [contradiction|].
  cbn [newConstraints_groups]. destruct Hin as [-> | Hin].
  - rewrite Hn. reflexivity.
  - destruct (newConstraints_group [] (Split s ",")); [eapply IH; eauto | reflexivity].
Qed.

(** C9. [NewConstraints("~=2")] returns an error.  In general, a clause
    of an expression whose operator is [~=] and whose version has fewer
    than two release components fails validation, and then the whole
    construction returns the error: no [Constraints] value is built. *)
Theorem compatible_requires_two_components
        (expr group clause whole op ver : string) (v : Version) :
  In group (Split expr "||") ->
  In clause (Split group ",") ->
  FindStringSubmatch specifierRegexp specifierRegexp_NumSubexp clause
  = Some [whole; "~="; op; ver] ->
  Parse (if HasSuffix ver ".*" then TrimSuffix ver ".*" else ver) = Some v ->
  (List.length (release v) < 2)%nat ->
  NewConstraints "~=2" = None /\
  validate "~=" ver <> None /\
  newConstraint clause = None /\
  NewConstraints expr = None.
Proof.
  intros Hg Hc Hm Hp Hl.
  assert (Hv : validate "~=" ver <> None).
  { unfold validate. cbv zeta. rewrite Hp.
    change (String.eqb "~=" "==" || String.eqb "~=" "!=") with false.
    change (String.eqb "~=" "~=") with true. cbv iota.
    destruct (HasSuffix ver ".*"); [discriminate|].
    apply Nat.ltb_lt in Hl. rewrite Hl. discriminate. }
  assert (Hn : newConstraint clause = None).
  { unfold newConstraint. rewrite Hm.
    cbn [nth specifierRegexp_SubexpIndex String.eqb Ascii.eqb Bool.eqb negb].
    change (specifierRegexp_SubexpIndex "operator") with 1%nat.
    change (specifierRegexp_SubexpIndex "version") with 3%nat.
    cbn [nth]. change (negb (String.eqb "~=" "===")) with true. cbv iota.
    destruct (validate "~=" ver); [reflexivity | congruence]. }
  split; [reflexivity|]. split; [exact Hv|]. split; [exact Hn|].
  unfold NewConstraints.
  rewrite (@newConstraints_groups_fails _ [] group Hg); [reflexivity|].
  eapply newConstraints_group_fails; eauto.
Qed.

Lemma compatible_requires_two_components_witness :
  exists v,
    Parse "2" = Some v /\
    NewConstraints ">=1.0,~=2||==3.*" = None /\
    newConstraint "~=2" = None.
Proof.
  eexists.
  assert (P : Parse "2" = Some _) by (vm_compute; reflexivity).
  split; [exact P|].
  assert (Hg : In ">=1.0,~=2" (Split ">=1.0,~=2||==3.*" "||"))
    by (vm_compute; auto).
  assert (Hc : In "~=2" (Split ">=1.0,~=2" ","))
    by (vm_compute; auto).
  assert (Hm : FindStringSubmatch specifierRegexp specifierRegexp_NumSubexp "~=2"
               = Some ["~=2"; "~="; "~="; "2"]) by (vm_compute; reflexivity).
  match type of P with
  | _ = Some ?v =>
      assert (Hl : (List.length (release v) < 2)%nat)
        by (vm_compute; repeat constructor);
      destruct (@compatible_requires_two_components
                  ">=1.0,~=2||==3.*" ">=1.0,~=2" "~=2" "~=2" "~=" "2" v
                  Hg Hc Hm P Hl) as (_ & _ & Hn & He)
  end.
  split; [exact He | exact Hn].
Defined.

End SpecifierProperties.

Section ArbitraryEquality.

Lemma Accepts_operator_arbitrary rest c :
  Accepts operator_re (L "===") rest c c.
Proof. intros k x H. simpl. rewrite H. reflexivity. Qed.

Lemma FindStringSubmatch_arbitrary text :
  no_space text ->
  FindStringSubmatch specifierRegexp specifierRegexp_NumSubexp
                     ("===" ++ text)%string
  = Some [("===" ++ text)%string; "==="; "==="; text].
Proof.
  intros Hs. unfold FindStringSubmatch.
  assert (A : Accepts (Group 0 specifierRegexp) (L ("===" ++ text)%string) []
                      no_caps
                      (set_cap 0 (L ("===" ++ text)%string)
                         (set_cap 3 (L text)
                            (set_cap 1 (L "===") (set_cap 2 (L "===") no_caps))))).
  { apply Accepts_Group. unfold specifierRegexp. rewrite list_of_app.
    replace (L "===" ++ L text)
      with ([] ++ (L "===" ++ ([] ++ (L text ++ []))))
      by (cbn [app]; rewrite app_nil_r; reflexivity).
    apply Accepts_Seq with no_caps.
    { apply Accepts_Star_Cls; [constructor | reflexivity]. }
    apply Accepts_Seq with (set_cap 1 (L "===") (set_cap 2 (L "===") no_caps)).
    { do 2 apply Accepts_Group. apply Accepts_operator_arbitrary. }
    apply Accepts_Seq with (set_cap 1 (L "===") (set_cap 2 (L "===") no_caps)).
    { apply Accepts_Star_Cls; [constructor|]. rewrite app_nil_r.
      unfold no_space in Hs. destruct (L text); simpl; auto. inversion Hs; auto. }
    apply Accepts_Seq with (set_cap 3 (L text)
                              (set_cap 1 (L "===") (set_cap 2 (L "===") no_caps))).
    { apply Accepts_Group, Accepts_Star_Cls; [|exact I].
      eapply Forall_impl; [|exact Hs]. intros a Ha. cbv beta. rewrite Ha. reflexivity. }
    apply Accepts_Star_Cls; [constructor | exact I]. }
  rewrite <- (app_nil_r (L ("===" ++ text)%string)) at 1.
  rewrite (A at_end _ eq_refl).
  cbv [map seq specifierRegexp_NumSubexp set_cap Nat.eqb].
  rewrite !string_of_list_ascii_of_string. reflexivity.
Qed.

(** C8. A clause [===text] is built for any text without validation, and
    it matches a candidate iff the candidate's [String()] equals the
    text under case folding; the ordering key (and the other fields that
    [String()] does not read) has no part in it. *)
Theorem arbitrary_equality (text : string) (v : Version) :
  no_space text ->
  exists c,
    newConstraint ("===" ++ text)%string = Some c /\
    c_version c = text /\
    c_operator c = Some specifierArbitrary /\
    check c v = (str <- Version_String v ;; Val (EqualFold str text)) /\
    (forall k included orig,
        check c (mkVersion (epoch v) (release v) (pre v) (post v) (dev v)
                           (local v) k included orig)
        = check c v) /\
    NewConstraints "===not_a_version" <> None /\
    NewConstraints "==not_a_version" = None.
Proof.
  intros Hs. eexists. split.
  { unfold newConstraint. rewrite (FindStringSubmatch_arbitrary Hs).
    change (specifierRegexp_SubexpIndex "operator") with 1%nat.
    change (specifierRegexp_SubexpIndex "version") with 3%nat.
    cbn [nth]. change (negb (String.eqb "===" "===")) with false. cbv iota.
    reflexivity. }
  cbn [c_version c_operator check].
  split; [reflexivity|]. split; [reflexivity|]. split; [reflexivity|].
  split; [reflexivity|]. split; [|reflexivity].
  intros H. discriminate H.
Qed.

Lemma arbitrary_equality_witness :
  exists v c,
    Parse "1.0a" = Some v /\
    newConstraint "===1.0A0" = Some c /\
    check c v = Val true.
Proof.
  eexists.
  assert (P : Parse "1.0a" = Some _) by (vm_compute; reflexivity).
  assert (Hs : no_space "1.0A0") by (repeat constructor).
  match type of P with
  | _ = Some ?v =>
      destruct (@arbitrary_equality "1.0A0" v Hs) as (c & Hc & _ & _ & Hk & _)
  end.
  exists c. split; [exact P|]. split; [exact Hc|].
  rewrite Hk. vm_compute. reflexivity.
Defined.

End ArbitraryEquality.

Section StrictComparisons.

Lemma lexicographic_app l1 l2 :
  lexicographic (l1 ++ l2)
  = if (lexicographic l1 =? 0)%Z then lexicographic l2 else lexicographic l1.
Proof.
  induction l1 as [|c l1 IH]; [reflexivity|].
  cbn [app lexicographic]. destruct (c =? 0)%Z eqn:E; [exact IH|].
  rewrite E. reflexivity.
Qed.

Lemma same_base_wf p s :
  wfVersion p -> wfVersion s ->
  same_base p s = Equal (base_of p) (base_of s).
Proof.
  intros Hp Hs. unfold same_base.
  destruct (BaseVersion_wf Hp) as (pb & E1 & E2).
  destruct (BaseVersion_wf Hs) as (sb & E3 & E4).
  rewrite E1. cbn [obind]. rewrite E2. cbn [obind].
  rewrite E3. cbn [obind]. rewrite E4. reflexivity.
Qed.

(** The keys of a version, of its public version and of its base
    version, against a specifier version without local segment. *)
Lemma keys_against_public_spec p s :
  wfVersion p -> wfVersion s -> local s = "" ->
  exists (c2 c5 : Z),
    key_compare (vkey p) (vkey s)
    = (if (c5 =? 0)%Z then if String.eqb (local p) "" then 0 else 1 else c5)%Z /\
    key_compare (vkey (public_of p)) (vkey s) = c5 /\
    key_compare (vkey (base_of p)) (vkey (base_of s)) = c2 /\
    (c5 = 0%Z -> c2 = 0%Z).
Proof.
  intros Hp Hs Hl.
  rewrite !key_compare_lexicographic.
  rewrite (wf_key Hp), (wf_key Hs), Hl.
  unfold public_of, base_of, mkParsed. cbn [vkey epoch release pre post dev local].
  unfold cmpkey.
  cbn [key_epoch key_release key_pre key_post key_dev key_local String.eqb].
  set (A := part.Compare (part.of_BigInt (epoch p)) (part.of_BigInt (epoch s))).
  set (B := part.Compare (part.of_Parts _) (part.of_Parts _)).
  set (C := part.Compare
              (if letterNumber_isNull (pre p) && _ && _ then _ else _) _).
  set (D := part.Compare (if letterNumber_isNull (post p) then _ else _) _).
  set (E := part.Compare (if letterNumber_isNull (dev p) then _ else _) _).
  exists (lexicographic [A; B]), (lexicographic [A; B; C; D; E]).
  split; [|split; [|split]].
  - change [A; B; C; D; E; ?F] with ([A; B; C; D; E] ++ [F]).
    rewrite lexicographic_app.
    destruct (lexicographic [A; B; C; D; E] =? 0)%Z; [|reflexivity].
    destruct (String.eqb (local p) ""); reflexivity.
  - change [A; B; C; D; E; ?F] with ([A; B; C; D; E] ++ [F]).
    rewrite lexicographic_app.
    destruct (lexicographic [A; B; C; D; E] =? 0)%Z eqn:Z5; [|reflexivity].
    apply Z.eqb_eq in Z5. rewrite Z5. reflexivity.
  - change [A; B; ?c; ?d; ?e; ?f] with ([A; B] ++ [c; d; e; f]).
    rewrite lexicographic_app.
    destruct (lexicographic [A; B] =? 0)%Z eqn:Z2; [|reflexivity].
    apply Z.eqb_eq in Z2. rewrite Z2. reflexivity.
  - cbn [lexicographic]. destruct (A =? 0)%Z; [|auto].
    destruct (B =? 0)%Z; [reflexivity|auto].
Qed.

(** C7. The clauses [<] and [>] decide as the strict comparison of the
    candidate's public version with the specifier's version, except
    that [<] rejects a pre-release candidate whose base version equals
    that of a non-pre-release specifier, and [>] rejects a post-release
    candidate whose base equals that of a non-post-release specifier and
    any candidate with a local segment whose base equals the
    specifier's; so [<3.1] rejects 3.1.dev0 and accepts 3.0.dev0. *)
Theorem strict_comparisons (sp spec : string) (p s : Version) :
  Parse sp = Some p -> Parse spec = Some s -> local s = "" ->
  exists (pub base sbase : string) (lt gt eq : bool),
    Public p = Val pub /\ MustParse pub = Val (public_of p) /\
    BaseVersion p = Val base /\ MustParse base = Val (base_of p) /\
    BaseVersion s = Val sbase /\ MustParse sbase = Val (base_of s) /\
    LessThan (public_of p) s = Val lt /\
    GreaterThan (public_of p) s = Val gt /\
    Equal (base_of p) (base_of s) = Val eq /\
    specifierLessThan p spec
    = Val (lt && negb (negb (IsPreRelease s) && IsPreRelease p && eq)) /\
    specifierGreaterThan p spec
    = Val (gt && negb (negb (IsPostRelease s) && IsPostRelease p && eq)
              && negb (negb (String.eqb (local p) "") && eq)) /\
    (exists cs v1 v2,
        NewConstraints "<3.1" = Some cs /\
        Parse "3.1.dev0" = Some v1 /\ Check cs v1 = Val false /\
        Parse "3.0.dev0" = Some v2 /\ Check cs v2 = Val true).
Proof.
  intros Pp Ps Hl.
  pose proof (Parse_wf _ Pp) as Hp. pose proof (Parse_wf _ Ps) as Hs.
  destruct (Public_wf Hp) as (pub & E1 & E2).
  destruct (BaseVersion_wf Hp) as (base & E3 & E4).
  destruct (BaseVersion_wf Hs) as (sbase & E5 & E6).
  pose proof (wf_public_of Hp) as Hpub.
  pose proof (wf_base_of Hp) as Hbp. pose proof (wf_base_of Hs) as Hbs.
  destruct (comparisons_wf Hpub Hs) as (Lpub & _ & Gpub & _).
  destruct (comparisons_wf Hbp Hbs) as (_ & Ebase & _).
  destruct (comparisons_wf Hp Hs) as (Lp & _ & Gp & _).
  destruct (keys_against_public_spec Hp Hs Hl) as (c2 & c5 & K1 & K2 & K3 & K4).
  rewrite K2 in Lpub, Gpub. rewrite K3 in Ebase. rewrite K1 in Lp, Gp.
  exists pub, base, sbase, (c5 <? 0)%Z, (c5 >? 0)%Z, (c2 =? 0)%Z.
  repeat (split; [assumption|]).
  split; [|split].
  - unfold specifierLessThan, MustParse. rewrite Ps. cbn [obind].
    rewrite Lp. cbn [obind]. rewrite (same_base_wf Hp Hs), Ebase. cbn [obind].
    destruct (c5 =? 0)%Z eqn:Z5.
    + apply Z.eqb_eq in Z5. subst c5. rewrite (K4 eq_refl).
      destruct (String.eqb (local p) ""); reflexivity.
    + destruct (c5 <? 0)%Z; cbn [negb andb]; [|reflexivity].
      destruct (negb (IsPreRelease s) && IsPreRelease p); cbn [andb negb];
        destruct (c2 =? 0)%Z; reflexivity.
  - unfold specifierGreaterThan, MustParse. rewrite Ps. cbn [obind].
    rewrite Gp. cbn [obind]. rewrite (same_base_wf Hp Hs), Ebase.
    destruct (c5 =? 0)%Z eqn:Z5.
    + apply Z.eqb_eq in Z5. subst c5. rewrite (K4 eq_refl).
      destruct (String.eqb (local p) ""); cbn [negb andb obind];
        [reflexivity|].
      destruct (negb (IsPostRelease s) && IsPostRelease p); reflexivity.
    + destruct (c5 >? 0)%Z; cbn [negb andb obind]; [|reflexivity].
      destruct (negb (IsPostRelease s) && IsPostRelease p); cbn [andb negb obind];
        destruct (c2 =? 0)%Z; cbn [andb negb];
        destruct (String.eqb (local p) ""); reflexivity.
  - exists {| constraints :=
                [[mkConstraint "3.1" (Some specifierLessThan) "<3.1"]] |}.
    do 2 eexists.
    split; [reflexivity|].
    split; [vm_compute; reflexivity|]. split; [vm_compute; reflexivity|].
    split; [vm_compute; reflexivity|]. vm_compute; reflexivity.
Qed.

Lemma strict_comparisons_witness :
  exists p s,
    Parse "1.0+abc" = Some p /\ Parse "1.0a1" = Some s /\
    GreaterThan p s = Val true /\
    specifierGreaterThan p "1.0a1" = Val false.
Proof.
  do 2 eexists.
  assert (Pp : Parse "1.0+abc" = Some _) by (vm_compute; reflexivity).
  assert (Ps : Parse "1.0a1" = Some _) by (vm_compute; reflexivity).
  split; [exact Pp|]. split; [exact Ps|].
  match type of Ps with
  | _ = Some ?s =>
      assert (Hl : local s = "") by reflexivity;
      destruct (strict_comparisons _ _ Pp Ps Hl)
        as (pub & base & sbase & lt & gt & eq & _ & _ & _ & _ & _ & _ & _ & _ & _ & _ & _ & _)
  end.
  split; vm_compute; reflexivity.
Defined.

End StrictComparisons.

Section Safety.

Lemma HasSuffix_wildcard s : HasSuffix (s ++ ".*") ".*" = true.
Proof.
  unfold HasSuffix. cbn [String.length].
  assert (H : (2 <= String.length (s ++ ".*"))%nat /\
              substring (String.length (s ++ ".*") - 2) 2 (s ++ ".*") = ".*").
  { induction s as [|a s [IH1 IH2]]; [split; [cbn; lia|reflexivity]|].
    cbn [append String.length]. split; [lia|].
    replace (S (String.length (s ++ ".*")) - 2)%nat
      with (S (String.length (s ++ ".*") - 2)) by lia.
    cbn [substring]. exact IH2. }
  destruct H as [H1 H2]. rewrite H2.
  apply andb_true_iff. split; [apply Nat.leb_le; exact H1|reflexivity].
Qed.

Lemma head_not_pd_prefix s :
  head_not_pd s = true -> HasPrefix s "post" || HasPrefix s "dev" = false.
Proof.
  destruct s as [|a s]; [reflexivity|].
  unfold HasPrefix. cbn [head_not_pd String.prefix].
  intros H. apply andb_true_iff in H. destruct H as [Hp Hd].
  apply negb_true_iff in Hp, Hd.
  apply Ascii.eqb_neq in Hp, Hd.
  destruct (ascii_dec "p" a) as [E|_]; [congruence|].
  destruct (ascii_dec "d" a) as [E|_]; [congruence|reflexivity].
Qed.

(** The first piece of a split text starts as the text does. *)
Lemma split_from_head s : forall cur,
  exists w ts,
    split_from "." 0 cur s = string_of_list_ascii (rev cur ++ w) :: ts.
Proof.
  induction s as [|a s IH]; intros cur; cbn [split_from].
  - exists [], []. rewrite app_nil_r. reflexivity.
  - destruct (String.prefix "." (String a s)).
    + exists [], (split_from "." (String.length "." - 1) [] s).
      rewrite app_nil_r. reflexivity.
    + destruct (IH (a :: cur)) as (w & ts & E). exists (a :: w), ts.
      rewrite E. cbn [rev]. rewrite <- app_assoc. reflexivity.
Qed.

Lemma Split_head s :
  exists t ts, Split s "." = t :: ts /\
               (head_not_pd s = true -> head_not_pd t = true).
Proof.
  unfold Split. destruct s as [|a s].
  - exists "", []. split; [reflexivity|auto].
  - cbn [split_from]. destruct (String.prefix "." (String a s)).
    + eexists "", _. split; [reflexivity|reflexivity].
    + destruct (split_from_head s [a]) as (w & ts & E). rewrite E.
      eexists _, ts. split; [reflexivity|]. cbn [rev app string_of_list_ascii].
      auto.
Qed.

Lemma versionSplit_loop_app vs : forall acc,
  versionSplit_loop acc vs = acc ++ versionSplit_loop [] vs.
Proof.
  induction vs as [|v vs IH]; intros acc; cbn [versionSplit_loop].
  - rewrite app_nil_r. reflexivity.
  - destruct (FindStringSubmatch _ _ v) as [m|];
      rewrite IH, (IH ([] ++ _)), app_assoc; reflexivity.
Qed.

(** What [prefixRegexp] captures first starts as the token does. *)
Lemma FindStringSubmatch_prefixRegexp t m :
  FindStringSubmatch prefixRegexp prefixRegexp_NumSubexp t = Some m ->
  exists g1 g2, m = [t; g1; g2] /\
                (head_not_pd t = true -> head_not_pd g1 = true).
Proof.
  unfold FindStringSubmatch.
  destruct (rmatch _ _ _ _) as [c|] eqn:E; [|discriminate].
  intros [= <-]. apply rmatch_sound in E.
  destruct E as (w & s' & c' & Hs & Hsem & Hend).
  destruct s' as [|? ?]; [|discriminate]. injection Hend as <-.
  rewrite app_nil_r in Hs. subst w.
  inversion Hsem; subst; clear Hsem.
  match goal with H0 : Sem prefixRegexp _ _ _ |- _ =>
    unfold prefixRegexp in H0; inversion H0; subst; clear H0 end.
  match goal with H2 : Sem (Group 2 _) _ _ _ |- _ =>
    pose proof (Sem_frame 1 H2 eq_refl) as F end.
  match goal with H1 : Sem (Group 1 _) _ _ _ |- _ =>
    inversion H1; subst; clear H1 end.
  match goal with H3 : Sem digits _ _ _ |- _ =>
    pose proof (Sem_digits_nonempty H3) as Hne end.
  cbn [map seq prefixRegexp_NumSubexp]. cbv [set_cap Nat.eqb].
  rewrite F. cbv [set_cap Nat.eqb].
  match goal with H : _ ++ _ = list_ascii_of_string t |- _ => rename H into Ht end.
  rewrite Ht, string_of_list_ascii_of_string.
  eexists _, _. split; [reflexivity|].
  destruct w1 as [|a w1]; [congruence|].
  destruct t as [|b t]; [discriminate|].
  cbn in Ht. injection Ht as Hab _. subst. cbn [string_of_list_ascii]. auto.
Qed.

(** A text that starts with [p] or [d] is no version. *)
Lemma versionRegex_rejects a s c k :
  head_not_pd (String a s) = false ->
  rmatch (Group 0 versionRegex) (a :: list_ascii_of_string s) c k = None.
Proof.
  cbn [head_not_pd]. intros H.
  apply andb_false_iff in H.
  destruct H as [H|H]; apply negb_false_iff, Ascii.eqb_eq in H; subst a;
    reflexivity.
Qed.

Lemma Parse_head spec sv : Parse spec = Some sv -> head_not_pd spec = true.
Proof.
  intros P. destruct (head_not_pd spec) eqn:H; [reflexivity|exfalso].
  destruct spec as [|a s]; [discriminate|].
  unfold Parse, FindStringSubmatch in P. cbn [list_ascii_of_string] in P.
  rewrite (@versionRegex_rejects a s no_caps at_end H) in P. discriminate.
Qed.

Lemma versionSplit_head spec :
  head_not_pd spec = true ->
  exists t ts, versionSplit spec = t :: ts /\ head_not_pd t = true.
Proof.
  intros H. unfold versionSplit.
  destruct (Split_head spec) as (t & ts & -> & Ht). specialize (Ht H).
  cbn [versionSplit_loop].
  destruct (FindStringSubmatch _ _ t) as [m|] eqn:E.
  - destruct (FindStringSubmatch_prefixRegexp _ E) as (g1 & g2 & -> & Hg).
    rewrite versionSplit_loop_app. cbn [tl app]. eauto.
  - rewrite versionSplit_loop_app. cbn [app]. eauto.
Qed.

Lemma prefixElements_nonempty spec sv :
  Parse spec = Some sv ->
  exists t ts, prefixElements_loop [] (versionSplit spec) = t :: ts.
Proof.
  intros P. destruct (@versionSplit_head spec (@Parse_head spec sv P)) as (t & ts & -> & Ht).
  cbn [prefixElements_loop]. rewrite (@head_not_pd_prefix t Ht).
  rewrite prefixElements_loop_take_while. cbn [app]. eauto.
Qed.

(** What [specifierRegexp] captures as the operator. *)
Lemma Sem_operator_re w c c' :
  Sem operator_re w c c' -> In (string_of_list_ascii w) operators.
Proof.
  unfold operator_re, alts, lit. cbn [list_ascii_of_string bytes].
  unfold chr. intros H. inv_sem;
    repeat match goal with
           | E : Ascii.eqb _ _ = true |- _ => apply Ascii.eqb_eq in E; subst
           end;
    cbn; tauto.
Qed.

Lemma FindStringSubmatch_specifierRegexp text m :
  FindStringSubmatch specifierRegexp specifierRegexp_NumSubexp text = Some m ->
  In (nth (specifierRegexp_SubexpIndex "operator") m "") operators.
Proof.
  unfold FindStringSubmatch.
  destruct (rmatch _ _ _ _) as [c|] eqn:E; [|discriminate].
  intros [= <-]. apply rmatch_sound in E.
  destruct E as (w & s' & c' & Hs & Hsem & Hend).
  destruct s' as [|? ?]; [|discriminate]. injection Hend as <-.
  inversion Hsem; subst; clear Hsem.
  match goal with H0 : Sem specifierRegexp _ _ _ |- _ =>
    unfold specifierRegexp in H0; inversion H0; subst; clear H0 end.
  match goal with H0 : Sem (Seq (Group 1 _) _) _ _ _ |- _ =>
    inversion H0; subst; clear H0 end.
  match goal with H0 : Sem (Seq (Star _) _) _ _ _ |- _ =>
    pose proof (Sem_frame 1 H0 eq_refl) as F end.
  match goal with H0 : Sem (Group 1 _) _ _ _ |- _ =>
    inversion H0; subst; clear H0 end.
  match goal with H0 : Sem (Group 2 _) _ _ _ |- _ =>
    inversion H0; subst; clear H0 end.
  match goal with H0 : Sem operator_re _ _ _ |- _ =>
    apply Sem_operator_re in H0; rename H0 into Hop end.
  cbn [map seq specifierRegexp_NumSubexp]. cbv [set_cap Nat.eqb].
  change (specifierRegexp_SubexpIndex "operator") with 1%nat.
  cbn [nth]. rewrite F. cbv [set_cap Nat.eqb]. exact Hop.
Qed.

(** [validate] accepts a version text only if it parses once a trailing
    wild card is removed; only [==] and [!=] accept a wild card. *)
Lemma validate_accepts op ver :
  validate op ver = None ->
  (exists sv,
      Parse (if HasSuffix ver ".*" then TrimSuffix ver ".*" else ver) = Some sv) /\
  (String.eqb op "==" || String.eqb op "!=" = false ->
   HasSuffix ver ".*" = false).
Proof.
  unfold validate. cbv zeta.
  destruct (Parse _) as [sv|]; [|discriminate].
  intros H. split; [eauto|]. intros Hop. rewrite Hop in H.
  destruct (HasSuffix ver ".*"); [|reflexivity].
  destruct (String.eqb op "~="); discriminate.
Qed.

(** The pad loops run their course within the fuel given to them. *)
Lemma pad_loop_fuel other : forall fuel extra i rel,
  (0 <= i)%Z ->
  (Z.of_nat other - Z.of_nat (List.length rel) - i <= 2 * Z.of_nat fuel)%Z ->
  pad_loop (fuel + extra) i other rel = pad_loop fuel i other rel.
Proof.
  induction fuel as [|fuel IH]; intros extra i rel Hi Hf.
  - cbn [Nat.add pad_loop]. destruct extra; [reflexivity|].
    cbn [pad_loop].
    destruct (Z.ltb_spec i (Z.of_nat other - Z.of_nat (List.length rel)));
      [lia|reflexivity].
  - cbn [Nat.add pad_loop].
    destruct (Z.ltb_spec i (Z.of_nat other - Z.of_nat (List.length rel)));
      [|reflexivity].
    apply IH; [lia|]. rewrite length_app. cbn [List.length]. lia.
Qed.

Lemma filter_length_le {A : Type} (f : A -> bool) (l : list A) :
  (List.length (filter f l) <= List.length l)%nat.
Proof.
  induction l as [|x l IH]; [auto|]. cbn [filter].
  destruct (f x); cbn [List.length]; lia.
Qed.

Lemma padVersion_returns left right :
  (List.length right <= List.length left)%nat ->
  exists padded, padVersion left right = Val padded.
Proof.
  intros H. unfold padVersion, slice_from.
  pose proof (filter_length_le isDigist left).
  pose proof (filter_length_le isDigist right).
  replace (_ <=? _)%nat with true by (symmetry; apply Nat.leb_le; lia).
  cbn [obind].
  replace (_ <=? _)%nat with true by (symmetry; apply Nat.leb_le; lia).
  cbn [obind]. eauto.
Qed.

Lemma Version_String_returns v :
  wfVersion v -> exists str, Version_String v = Val str.
Proof.
  intros Hv. destruct (wf_release_cons Hv) as (r0 & rs & E).
  rewrite (Version_String_render v E). eauto.
Qed.

Lemma MustParse_Parse spec sv : Parse spec = Some sv -> MustParse spec = Val sv.
Proof. intros P. unfold MustParse. rewrite P. reflexivity. Qed.

Lemma specifierEqual_returns v spec :
  wfVersion v ->
  (HasSuffix spec ".*" = false -> exists sv, Parse spec = Some sv) ->
  exists b, specifierEqual v spec = Val b.
Proof.
  intros Hv Hspec. unfold specifierEqual.
  destruct (Public_wf Hv) as (pub & E1 & E2).
  pose proof (wf_public_of Hv) as Hpub.
  destruct (HasSuffix spec ".*").
  - rewrite E1. cbn [obind]. rewrite E2. cbn [obind].
    destruct (Version_String_returns Hpub) as (str & ->). cbn [obind].
    set (splitSpec := versionSplit (TrimSuffix spec ".*")).
    set (splitProspective := versionSplit str).
    destruct (Nat.ltb_spec (List.length splitSpec) (List.length splitProspective))
      as [Hlt|Hge].
    + unfold slice_to.
      replace (_ <=? _)%nat with true by (symmetry; apply Nat.leb_le; lia).
      cbn [obind].
      destruct (@padVersion_returns splitSpec
                  (firstn (List.length splitSpec) splitProspective))
        as (padded & ->); [rewrite length_firstn; lia|].
      cbn [obind]. eauto.
    + cbn [obind].
      destruct (@padVersion_returns splitSpec splitProspective)
        as (padded & ->); [lia|].
      cbn [obind]. eauto.
  - destruct (Hspec eq_refl) as (sv & P).
    rewrite (@MustParse_Parse _ _ P). cbn [obind].
    pose proof (Parse_wf _ P) as Hs.
    destruct (String.eqb (local sv) "").
    + rewrite E1. cbn [obind]. rewrite E2. cbn [obind].
      destruct (comparisons_wf Hs Hpub) as (_ & -> & _). eauto.
    + cbn [obind]. destruct (comparisons_wf Hs Hv) as (_ & -> & _). eauto.
Qed.

Lemma specifierNotEqual_returns v spec :
  wfVersion v ->
  (HasSuffix spec ".*" = false -> exists sv, Parse spec = Some sv) ->
  exists b, specifierNotEqual v spec = Val b.
Proof.
  intros Hv Hspec. unfold specifierNotEqual.
  destruct (@specifierEqual_returns _ _ Hv Hspec) as (b & ->). cbn [obind]. eauto.
Qed.

Lemma same_base_returns v s :
  wfVersion v -> wfVersion s -> exists b, same_base v s = Val b.
Proof.
  intros Hv Hs. rewrite (same_base_wf Hv Hs).
  destruct (comparisons_wf (wf_base_of Hv) (wf_base_of Hs)) as (_ & -> & _).
  eauto.
Qed.

Lemma specifierLessThan_returns v spec sv :
  wfVersion v -> Parse spec = Some sv ->
  exists b, specifierLessThan v spec = Val b.
Proof.
  intros Hv P. pose proof (Parse_wf _ P) as Hs.
  unfold specifierLessThan. rewrite (@MustParse_Parse _ _ P). cbn [obind].
  destruct (comparisons_wf Hv Hs) as (-> & _). cbn [obind].
  destruct (negb _); [eauto|].
  destruct (negb (IsPreRelease sv) && IsPreRelease v); [|eauto].
  destruct (same_base_returns Hv Hs) as ([] & ->); cbn [obind]; eauto.
Qed.

Lemma specifierGreaterThan_returns v spec sv :
  wfVersion v -> Parse spec = Some sv ->
  exists b, specifierGreaterThan v spec = Val b.
Proof.
  intros Hv P. pose proof (Parse_wf _ P) as Hs.
  unfold specifierGreaterThan. rewrite (@MustParse_Parse _ _ P). cbn [obind].
  destruct (comparisons_wf Hv Hs) as (_ & _ & -> & _). cbn [obind].
  destruct (negb _); [eauto|].
  destruct (same_base_returns Hv Hs) as (eq & ->).
  destruct (negb (IsPostRelease sv) && IsPostRelease v); cbn [obind].
  - destruct eq; [eauto|].
    destruct (negb (String.eqb (local v) "")); cbn [obind]; eauto.
  - destruct (negb (String.eqb (local v) "")); cbn [obind]; [|eauto].
    destruct eq; eauto.
Qed.

Lemma specifierLessThanEqual_returns v spec sv :
  wfVersion v -> Parse spec = Some sv ->
  exists b, specifierLessThanEqual v spec = Val b.
Proof.
  intros Hv P. pose proof (Parse_wf _ P) as Hs.
  unfold specifierLessThanEqual.
  destruct (Public_wf Hv) as (pub & -> & E2). cbn [obind].
  rewrite E2. cbn [obind]. rewrite (@MustParse_Parse _ _ P). cbn [obind].
  destruct (comparisons_wf (wf_public_of Hv) Hs) as (_ & _ & _ & -> & _). eauto.
Qed.

Lemma specifierGreaterThanEqual_returns v spec sv :
  wfVersion v -> Parse spec = Some sv ->
  exists b, specifierGreaterThanEqual v spec = Val b.
Proof.
  intros Hv P. pose proof (Parse_wf _ P) as Hs.
  unfold specifierGreaterThanEqual.
  destruct (Public_wf Hv) as (pub & -> & E2). cbn [obind].
  rewrite E2. cbn [obind]. rewrite (@MustParse_Parse _ _ P). cbn [obind].
  destruct (comparisons_wf (wf_public_of Hv) Hs) as (_ & _ & _ & _ & ->). eauto.
Qed.

Lemma specifierArbitrary_returns v spec :
  wfVersion v -> exists b, specifierArbitrary v spec = Val b.
Proof.
  intros Hv. unfold specifierArbitrary.
  destruct (Version_String_returns Hv) as (str & ->). cbn [obind]. eauto.
Qed.

(** The slice [prefixElements[:len(prefixElements)-1]] is in bounds. *)
Lemma specifierCompatible_returns v spec sv :
  wfVersion v -> Parse spec = Some sv ->
  exists b, specifierCompatible v spec = Val b.
Proof.
  intros Hv P. unfold specifierCompatible.
  destruct (@prefixElements_nonempty _ _ P) as (t & ts & ->).
  unfold slice_to.
  replace (_ <=? _)%nat with true by (symmetry; apply Nat.leb_le; lia).
  cbn [obind].
  destruct (@specifierGreaterThanEqual_returns _ _ _ Hv P) as ([] & ->); cbn [obind];
    [|eauto].
  apply specifierEqual_returns; [exact Hv|].
  rewrite HasSuffix_wildcard. discriminate.
Qed.

Lemma newConstraint_safe text c : newConstraint text = Some c -> safe c.
Proof.
  unfold newConstraint.
  destruct (FindStringSubmatch _ _ text) as [m|] eqn:E; [|discriminate].
  pose proof (FindStringSubmatch_specifierRegexp _ E) as Hop.
  set (operator := nth (specifierRegexp_SubexpIndex "operator") m "") in *.
  set (version := nth (specifierRegexp_SubexpIndex "version") m "").
  clearbody operator.
  destruct (if negb _ then _ else _) as [err|] eqn:V; [discriminate|].
  intros [= <-]. unfold safe, check, stored_version. cbn [c_operator c_version].
  unfold operators in Hop. cbn [In] in Hop.
  destruct Hop as [<-|[<-|[<-|[<-|[<-|[<-|[<-|[<-|[]]]]]]]]].
  - change (validate "~=" version = None) in V.
    apply validate_accepts in V. destruct V as [(sv & P) Hw].
    rewrite (Hw eq_refl) in P |- *.
    replace (specifierOperators "~=") with (Some specifierCompatible)
      by reflexivity.
    split; [|eauto]. intros v Hv. eapply specifierCompatible_returns; eauto.
  - replace (specifierOperators "===") with (Some specifierArbitrary)
      by reflexivity.
    split; [|auto]. intros v Hv. apply specifierArbitrary_returns; exact Hv.
  - change (validate "==" version = None) in V.
    apply validate_accepts in V. destruct V as [(sv & P) _].
    replace (specifierOperators "==") with (Some specifierEqual)
      by reflexivity.
    split; [|eauto]. intros v Hv. apply specifierEqual_returns; [exact Hv|].
    intros Hw. rewrite Hw in P. eauto.
  - change (validate "!=" version = None) in V.
    apply validate_accepts in V. destruct V as [(sv & P) _].
    replace (specifierOperators "!=") with (Some specifierNotEqual)
      by reflexivity.
    split; [|eauto]. intros v Hv. apply specifierNotEqual_returns; [exact Hv|].
    intros Hw. rewrite Hw in P. eauto.
  - change (validate "<=" version = None) in V.
    apply validate_accepts in V. destruct V as [(sv & P) Hw].
    rewrite (Hw eq_refl) in P |- *.
    replace (specifierOperators "<=") with (Some specifierLessThanEqual)
      by reflexivity.
    split; [|eauto]. intros v Hv. eapply specifierLessThanEqual_returns; eauto.
  - change (validate ">=" version = None) in V.
    apply validate_accepts in V. destruct V as [(sv & P) Hw].
    rewrite (Hw eq_refl) in P |- *.
    replace (specifierOperators ">=") with (Some specifierGreaterThanEqual)
      by reflexivity.
    split; [|eauto]. intros v Hv. eapply specifierGreaterThanEqual_returns; eauto.
  - change (validate "<" version = None) in V.
    apply validate_accepts in V. destruct V as [(sv & P) Hw].
    rewrite (Hw eq_refl) in P |- *.
    replace (specifierOperators "<") with (Some specifierLessThan)
      by reflexivity.
    split; [|eauto]. intros v Hv. eapply specifierLessThan_returns; eauto.
  - change (validate ">" version = None) in V.
    apply validate_accepts in V. destruct V as [(sv & P) Hw].
    rewrite (Hw eq_refl) in P |- *.
    replace (specifierOperators ">") with (Some specifierGreaterThan)
      by reflexivity.
    split; [|eauto]. intros v Hv. eapply specifierGreaterThan_returns; eauto.
Qed.

Lemma newConstraints_group_safe singles : forall acc cs,
  newConstraints_group acc singles = Some cs ->
  Forall safe acc -> Forall safe cs.
Proof.
  induction singles as [|single singles IH]; intros acc cs;
    cbn [newConstraints_group].
  - intros [= <-]. auto.
  - destruct (newConstraint single) as [c|] eqn:E; [|discriminate].
    intros H Hacc. eapply IH; [exact H|].
    apply Forall_app. split; [exact Hacc|].
    constructor; [|constructor]. eapply newConstraint_safe; exact E.
Qed.

Lemma newConstraints_groups_safe vvs : forall acc css,
  newConstraints_groups acc vvs = Some css ->
  Forall (Forall safe) acc -> Forall (Forall safe) css.
Proof.
  induction vvs as [|vv vvs IH]; intros acc css; cbn [newConstraints_groups].
  - intros [= <-]. auto.
  - destruct (newConstraints_group [] (Split vv ",")) as [cs|] eqn:E;
      [|discriminate].
    intros H Hacc. eapply IH; [exact H|].
    apply Forall_app. split; [exact Hacc|].
    constructor; [|constructor].
    eapply newConstraints_group_safe; [exact E|constructor].
Qed.

Lemma andCheck_returns v cs :
  wfVersion v -> Forall safe cs -> exists b, andCheck v cs = Val b.
Proof.
  intros Hv H. induction H as [|c cs [Hc _] _ IH]; cbn [andCheck]; [eauto|].
  destruct (Hc v Hv) as (b & ->). cbn [obind]. destruct (negb b); eauto.
Qed.

Lemma Check_loop_returns v css :
  wfVersion v -> Forall (Forall safe) css -> exists b, Check_loop css v = Val b.
Proof.
  intros Hv H. induction H as [|cs css Hcs _ IH]; cbn [Check_loop]; [eauto|].
  destruct (@andCheck_returns v cs Hv Hcs) as (b & ->). cbn [obind].
  destruct b; eauto.
Qed.

(** C10. On the constraints returned by a successful [NewConstraints]
    and a version returned by a successful [Parse], [Check] returns a
    boolean and never panics: every stored version text whose operator
    is not [===] parses once a trailing wild card is removed, and the
    public and the base version of the candidate parse again. *)
Theorem Check_never_panics (expr text : string) (cs : Constraints) (v : Version) :
  NewConstraints expr = Some cs -> Parse text = Some v ->
  (exists b, Check cs v = Val b) /\
  (forall group c, In group (constraints cs) -> In c group ->
     (exists b, check c v = Val b) /\
     (c_operator c = Some specifierArbitrary \/
      exists sv, MustParse (stored_version c) = Val sv)) /\
  (exists pub p base b,
     Public v = Val pub /\ MustParse pub = Val p /\
     BaseVersion v = Val base /\ MustParse base = Val b).
Proof.
  intros HN HP. pose proof (Parse_wf _ HP) as Hv.
  unfold NewConstraints in HN.
  destruct (newConstraints_groups [] (Split expr "||")) as [css|] eqn:E;
    [|discriminate].
  injection HN as <-. cbn [constraints].
  assert (Hsafe : Forall (Forall safe) css)
    by (eapply newConstraints_groups_safe; [exact E|constructor]).
  split; [|split].
  - unfold Check. cbn [constraints]. apply Check_loop_returns; assumption.
  - intros group c Hg Hc.
    rewrite Forall_forall in Hsafe. specialize (Hsafe _ Hg).
    rewrite Forall_forall in Hsafe. destruct (Hsafe _ Hc) as [H1 H2].
    split; [auto|]. destruct H2 as [H2|(sv & H2)]; [auto|].
    right. exists sv. apply MustParse_Parse. exact H2.
  - destruct (Public_wf Hv) as (pub & E1 & E2).
    destruct (BaseVersion_wf Hv) as (base & E3 & E4).
    eauto 10.
Qed.

Lemma Check_never_panics_witness :
  exists v b,
    NewConstraints "~=1.4.5a4, !=1.5.* || ===anything || >2.0.post1"
    = Some mixed_constraints /\
    Parse "1.4.7+local" = Some v /\
    Check mixed_constraints v = Val b.
Proof.
  assert (HN : NewConstraints "~=1.4.5a4, !=1.5.* || ===anything || >2.0.post1"
               = Some mixed_constraints) by reflexivity.
  assert (HP : Parse "1.4.7+local" = Some _) by (vm_compute; reflexivity).
  destruct (@Check_never_panics _ _ _ _ HN HP) as ((b & Hb) & _).
  eexists _, b. split; [exact HN|]. split; [exact HP | exact Hb].
Defined.

End Safety.

Section VersionAccessors.

Lemma MustParse_Val s v : MustParse s = Val v -> Parse s = Some v.
Proof. unfold MustParse. destruct (Parse s); [intros [= ->]; reflexivity|discriminate]. Qed.

Lemma Version_String_public v pub :
  wfVersion v -> Public v = Val pub -> Version_String (public_of v) = Val pub.
Proof.
  intros Hv E. destruct (Public_wf Hv) as (pub' & E1 & E2).
  assert (pub' = pub) by congruence. subst pub'.
  apply MustParse_Val, Parse_inv in E2. destruct E2 as [Hw Ho].
  destruct (wf_release_cons Hv) as (r0 & rs & Er).
  rewrite (@Version_String_render (public_of v) r0 rs) by exact Er.
  rewrite <- Ho. unfold public_of, mkParsed. cbn [original epoch pre post dev local].
  rewrite Er. reflexivity.
Qed.

(** [Parse] stores normalized fields: the release is not empty, the
    letters of the pre-, post- and development release are the
    canonical ones whatever alias and case the text used, an absent
    segment has the number zero, the local segment is in lower case,
    the key is that of the fields, and [Original] is the text given. *)
Theorem Parse_normalizes (s : string) (v : Version) :
  Parse s = Some v ->
  Original v = s /\
  release v <> [] /\
  In (letter (pre v)) [""; "a"; "b"; "rc"] /\
  In (letter (post v)) [""; "post"] /\
  In (letter (dev v)) [""; "dev"] /\
  (letter (pre v) = "" -> number (pre v) = 0%N) /\
  (letter (post v) = "" -> number (post v) = 0%N) /\
  (letter (dev v) = "" -> number (dev v) = 0%N) /\
  ToLower (Local v) = Local v /\
  vkey v = cmpkey (epoch v) (release v) (pre v) (post v) (dev v) (local v) /\
  IsPreRelease v
  = negb (letterNumber_isNull (pre v)) || negb (letterNumber_isNull (dev v)).
Proof.
  intros P. apply Parse_inv in P. destruct P as [[[Hr Hpre Hpost Hdev Hl] Hk Hi] Ho].
  split; [exact Ho|]. split; [exact Hr|].
  split; [destruct Hpre as [[-> _] | [-> | [-> | ->]]]; cbn; tauto|].
  split; [destruct Hpost as [[-> _] | ->]; cbn; tauto|].
  split; [destruct Hdev as [[-> _] | ->]; cbn; tauto|].
  split; [destruct Hpre as [[_ E]|[E|[E|E]]]; [auto|rewrite E; discriminate..]|].
  split; [destruct Hpost as [[_ E]|E]; [auto|rewrite E; discriminate]|].
  split; [destruct Hdev as [[_ E]|E]; [auto|rewrite E; discriminate]|].
  split; [unfold Local; destruct Hl as [->|Hl];
          [reflexivity|apply ToLower_lshape, Hl]|].
  split; [exact Hk|].
  unfold IsPreRelease. rewrite Hi. reflexivity.
Qed.

Lemma Parse_normalizes_witness :
  exists v,
    Parse " V1!02.0-ALPHA_3.Rev.dev4+Ab-1 " = Some v /\
    In (letter (pre v)) [""; "a"; "b"; "rc"] /\
    In (letter (post v)) [""; "post"] /\
    ToLower (Local v) = Local v.
Proof.
  eexists.
  assert (P : Parse " V1!02.0-ALPHA_3.Rev.dev4+Ab-1 " = Some _)
    by (vm_compute; reflexivity).
  destruct (@Parse_normalizes _ _ P)
    as (_ & _ & H1 & H2 & _ & _ & _ & _ & H3 & _).
  split; [exact P|]. split; [exact H1|]. split; [exact H2 | exact H3].
Defined.

(** Parsing the canonical string of a parsed version gives every field
    and the key back; only the recorded input differs, and the two
    versions are equal. *)
Theorem Parse_String_roundtrip (s : string) (v : Version) :
  Parse s = Some v ->
  exists str v',
    Version_String v = Val str /\ Parse str = Some v' /\
    epoch v' = epoch v /\ release v' = release v /\
    pre v' = pre v /\ post v' = post v /\ dev v' = dev v /\
    local v' = local v /\ vkey v' = vkey v /\
    Original v' = str /\ Equal v v' = Val true.
Proof.
  intros P. pose proof (Parse_wf _ P) as Hv.
  destruct (Parse_String Hv) as (str & E1 & E2).
  eexists str, _. split; [exact E1|]. split; [exact E2|].
  pose proof (Parse_wf _ E2) as Hv'.
  destruct (comparisons_wf Hv Hv') as (_ & Heq & _).
  repeat (split; [reflexivity|]).
  split; [exact (eq_sym (wf_key Hv))|]. split; [reflexivity|].
  rewrite Heq. unfold mkParsed. cbn [vkey]. rewrite <- (wf_key Hv).
  rewrite key_compare_refl by (apply wf_is_cmpkey, Hv). reflexivity.
Qed.

Lemma Parse_String_roundtrip_witness :
  exists v str v',
    Parse "v1.0-RC.2" = Some v /\ Version_String v = Val str /\
    Parse str = Some v' /\ pre v' = pre v.
Proof.
  assert (P : Parse "v1.0-RC.2" = Some _) by (vm_compute; reflexivity).
  destruct (@Parse_String_roundtrip _ _ P)
    as (str & v' & E1 & E2 & _ & _ & E3 & _).
  eexists _, str, v'. repeat split; eassumption.
Defined.

(** [Public] of a parsed version parses to the same version without its
    local segment; it is the canonical string itself when there is no
    local segment, and the public version is its own public version. *)
Theorem Public_strips_local (s : string) (v : Version) :
  Parse s = Some v ->
  exists pub p,
    Public v = Val pub /\ Parse pub = Some p /\
    epoch p = epoch v /\ release p = release v /\
    pre p = pre v /\ post p = post v /\ dev p = dev v /\
    Local p = "" /\
    Version_String p = Val pub /\ Public p = Val pub /\
    (Local v = "" -> Version_String v = Val pub).
Proof.
  intros P. pose proof (Parse_wf _ P) as Hv.
  destruct (Public_wf Hv) as (pub & E1 & E2).
  exists pub, (public_of v). split; [exact E1|].
  split; [apply MustParse_Val, E2|].
  unfold public_of at 1 2 3 4 5 6, mkParsed.
  cbn [epoch release pre post dev local Local].
  repeat (split; [reflexivity|]).
  pose proof (Version_String_public Hv E1) as E3.
  split; [exact E3|]. split.
  - unfold Public. rewrite E3. cbn [obind].
    unfold Public in E1.
    destruct (wf_release_cons Hv) as (r0 & rs & Er).
    rewrite (Version_String_render v Er) in E1. cbn [obind] in E1.
    rewrite (@Version_String_render (public_of v) r0 rs) in E3 by exact Er.
    injection E3 as E3. unfold public_of, mkParsed in E3.
    cbn [epoch pre post dev local] in E3.
    rewrite render_public in E1.
    rewrite <- E3.
    destruct (@cut_from_no_plus
                (render (epoch v) r0 rs (pre v) (post v) (dev v) "") [] "")
      as [rest Hc].
    + apply no_plus_public, Hv.
    + left. reflexivity.
    + unfold SplitN2. rewrite string_app_nil_r in Hc. rewrite Hc.
      cbn [rev app]. rewrite string_of_list_ascii_of_string. reflexivity.
  - unfold Local. intros Hl.
    destruct (wf_release_cons Hv) as (r0 & rs & Er).
    rewrite (Version_String_render v Er), Hl.
    rewrite (@Version_String_render (public_of v) r0 rs) in E3 by exact Er.
    exact E3.
Qed.

Lemma Public_strips_local_witness :
  exists v pub,
    Parse "1.0.post2+Ubuntu.1" = Some v /\ Public v = Val pub /\
    pub = "1.0.post2".
Proof.
  assert (P : Parse "1.0.post2+Ubuntu.1" = Some _) by (vm_compute; reflexivity).
  destruct (@Public_strips_local _ _ P) as (pub & p & E1 & _).
  eexists _, pub. split; [exact P|]. split; [exact E1|].
  vm_compute in E1. injection E1 as <-. reflexivity.
Defined.

(** [BaseVersion] of a parsed version parses to the version that keeps
    the epoch and the release and nothing else: it is neither a pre- nor
    a post-release, has no local segment, and its canonical string and
    its own base version are that same text. *)
Theorem BaseVersion_of_parsed (s : string) (v : Version) :
  Parse s = Some v ->
  exists base b,
    BaseVersion v = Val base /\ Parse base = Some b /\
    epoch b = epoch v /\ release b = release v /\
    letterNumber_isNull (pre b) = true /\
    letterNumber_isNull (post b) = true /\
    letterNumber_isNull (dev b) = true /\
    Local b = "" /\
    IsPreRelease b = false /\ IsPostRelease b = false /\
    Version_String b = Val base /\ BaseVersion b = Val base.
Proof.
  intros P. pose proof (Parse_wf _ P) as Hv.
  destruct (BaseVersion_wf Hv) as (base & E1 & E2).
  exists base, (base_of v). split; [exact E1|].
  apply MustParse_Val in E2. split; [exact E2|].
  repeat (split; [reflexivity|]).
  pose proof (Parse_inv _ E2) as [Hb Ho].
  destruct (wf_release_cons Hv) as (r0 & rs & Er).
  assert (Eb : base = render (epoch v) r0 rs null_ln null_ln null_ln "").
  { rewrite <- Ho. unfold base_of, mkParsed. cbn [original]. rewrite Er.
    reflexivity. }
  split.
  - rewrite (@Version_String_render (base_of v) r0 rs) by exact Er.
    rewrite Eb. reflexivity.
  - destruct (BaseVersion_wf Hb) as (base' & E3 & E4).
    rewrite E3. f_equal.
    apply MustParse_Val, Parse_inv in E4. destruct E4 as [_ Ho'].
    rewrite <- Ho', Eb. unfold base_of, mkParsed.
    cbn [original release epoch]. rewrite Er. reflexivity.
Qed.

Lemma BaseVersion_of_parsed_witness :
  exists v base,
    Parse "2!1.4rc1.post3.dev5+x" = Some v /\ BaseVersion v = Val base /\
    base = "2!1.4".
Proof.
  assert (P : Parse "2!1.4rc1.post3.dev5+x" = Some _)
    by (vm_compute; reflexivity).
  destruct (@BaseVersion_of_parsed _ _ P) as (base & b & E1 & _).
  eexists _, base. split; [exact P|]. split; [exact E1|].
  vm_compute in E1. injection E1 as <-. reflexivity.
Defined.

(** A version without release (the zero [Version] that [Parse] returns
    beside an error) cannot be rendered: [String], [BaseVersion],
    [Public] and every comparison with it panic, on either side.  Any
    version with a release is rendered. *)
Theorem empty_release_panics (v o : Version) :
  release v = [] ->
  Version_String v = Panic /\ BaseVersion v = Panic /\ Public v = Panic /\
  Version_Compare v o = Panic /\ Version_Compare o v = Panic /\
  Equal v o = Panic /\ Equal o v = Panic /\
  LessThan v o = Panic /\ LessThan o v = Panic /\
  GreaterThan v o = Panic /\ GreaterThan o v = Panic /\
  (forall w, release w <> [] -> exists str, Version_String w = Val str).
Proof.
  intros E.
  assert (S : Version_String v = Panic).
  { unfold Version_String, render_base. rewrite E. reflexivity. }
  assert (C1 : Version_Compare v o = Panic).
  { unfold Version_Compare. rewrite S. reflexivity. }
  assert (C2 : Version_Compare o v = Panic).
  { unfold Version_Compare. rewrite S.
    destruct (Version_String o); reflexivity. }
  split; [exact S|].
  split; [unfold BaseVersion, render_base; rewrite E; reflexivity|].
  split; [unfold Public; rewrite S; reflexivity|].
  unfold Equal, LessThan, GreaterThan. rewrite C1, C2.
  repeat (split; [reflexivity|]).
  intros w Hw. unfold Version_String, render_base.
  destruct (release w); [congruence|]. cbn [obind]. eauto.
Qed.

Lemma empty_release_panics_witness :
  Version_String
    (mkVersion 0%N [] null_ln null_ln null_ln ""
               (mkKey 0%N [] (part.of_Parts []) (part.of_Parts [])
                      (part.of_Parts []) (part.of_Parts []))
               false "")
  = Panic.
Proof.
  match goal with |- Version_String ?v = _ =>
    destruct (@empty_release_panics v v eq_refl) as (S & _); exact S end.
Defined.

End VersionAccessors.

Section OrderOfVersions.

(** [Compare] is antisymmetric: on parsed versions it returns -1, 0 or
    1, exchanging the operands negates the result, a version compares
    equal to itself, and [a >= b] is [b <= a]. *)
Theorem Compare_antisymmetric (sa sb : string) (a b : Version) :
  Parse sa = Some a -> Parse sb = Some b ->
  exists c,
    Version_Compare a b = Val c /\ Version_Compare b a = Val (- c)%Z /\
    (c = (-1)%Z \/ c = 0%Z \/ c = 1%Z) /\
    Version_Compare a a = Val 0%Z /\
    GreaterThanOrEqual a b = LessThanOrEqual b a /\
    GreaterThan a b = LessThan b a.
Proof.
  intros Pa Pb.
  pose proof (Parse_wf _ Pa) as Ha. pose proof (Parse_wf _ Pb) as Hb.
  pose proof (wf_is_cmpkey Ha) as Ka. pose proof (wf_is_cmpkey Hb) as Kb.
  exists (key_compare (vkey a) (vkey b)).
  split; [apply Version_Compare_wf; assumption|].
  split; [rewrite (Version_Compare_wf Hb Ha), (key_compare_opp Ka Kb);
          reflexivity|].
  split; [destruct (key_compare_range Ka Kb) as [E|[E|E]]; rewrite E; auto|].
  split; [rewrite (Version_Compare_wf Ha Ha), (key_compare_refl Ka);
          reflexivity|].
  unfold GreaterThanOrEqual, LessThanOrEqual, GreaterThan, LessThan.
  rewrite (Version_Compare_wf Ha Hb), (Version_Compare_wf Hb Ha).
  rewrite (key_compare_opp Ka Kb). cbn [obind].
  destruct (key_compare (vkey a) (vkey b)); split; reflexivity.
Qed.

Lemma Compare_antisymmetric_witness :
  exists a b,
    Parse "1.0rc1" = Some a /\ Parse "1.0" = Some b /\
    Version_Compare a b = Val (-1)%Z /\ Version_Compare b a = Val 1%Z.
Proof.
  assert (Pa : Parse "1.0rc1" = Some _) by (vm_compute; reflexivity).
  assert (Pb : Parse "1.0" = Some _) by (vm_compute; reflexivity).
  destruct (@Compare_antisymmetric _ _ _ _ Pa Pb) as (c & E1 & E2 & _).
  eexists _, _. split; [exact Pa|]. split; [exact Pb|].
  assert (Ec : Val c = Val (-1)%Z) by (rewrite <- E1; vm_compute; reflexivity).
  injection Ec as ->. split; [exact E1 | exact E2].
Defined.

(** Versions that are [Equal] are interchangeable: they compare alike
    with every third version, on either side, and [Equal] is symmetric
    and transitive. *)
Theorem Equal_congruence (sa sb sc : string) (a b c : Version) :
  Parse sa = Some a -> Parse sb = Some b -> Parse sc = Some c ->
  Equal a b = Val true ->
  Version_Compare a c = Version_Compare b c /\
  Version_Compare c a = Version_Compare c b /\
  Equal b a = Val true /\
  (Equal b c = Val true -> Equal a c = Val true).
Proof.
  intros Pa Pb Pc.
  pose proof (Parse_wf _ Pa) as Ha. pose proof (Parse_wf _ Pb) as Hb.
  pose proof (Parse_wf _ Pc) as Hc.
  pose proof (wf_is_cmpkey Ha) as Ka. pose proof (wf_is_cmpkey Hb) as Kb.
  pose proof (wf_is_cmpkey Hc) as Kc.
  unfold Equal.
  rewrite !(Version_Compare_wf Ha Hb), !(Version_Compare_wf Hb Ha),
    !(Version_Compare_wf Ha Hc), !(Version_Compare_wf Hb Hc),
    !(Version_Compare_wf Hc Ha), !(Version_Compare_wf Hc Hb).
  cbn [obind]. intros [= E]. apply Z.eqb_eq in E.
  pose proof (key_compare_congr Ka Kb Kc E) as E1.
  split; [rewrite E1; reflexivity|].
  split; [rewrite (key_compare_opp Ka Kc), (key_compare_opp Kb Kc), E1;
          reflexivity|].
  split; [rewrite (key_compare_opp Ka Kb), E; reflexivity|].
  rewrite E1. auto.
Qed.

Lemma Equal_congruence_witness :
  exists a b c,
    Parse "1.0" = Some a /\ Parse "v1.0.0" = Some b /\ Parse "1.0.post1" = Some c /\
    Version_Compare a c = Version_Compare b c.
Proof.
  assert (Pa : Parse "1.0" = Some _) by (vm_compute; reflexivity).
  assert (Pb : Parse "v1.0.0" = Some _) by (vm_compute; reflexivity).
  assert (Pc : Parse "1.0.post1" = Some _) by (vm_compute; reflexivity).
  eexists _, _, _. split; [exact Pa|]. split; [exact Pb|]. split; [exact Pc|].
  refine (proj1 (@Equal_congruence _ _ _ _ _ _ Pa Pb Pc _)).
  vm_compute. reflexivity.
Defined.

(** The epoch decides first: a version of a smaller epoch is less than
    every version of a greater one, whatever the other segments. *)
Theorem epoch_decides_first (sa sb : string) (a b : Version) :
  Parse sa = Some a -> Parse sb = Some b ->
  (epoch a < epoch b)%N ->
  LessThan a b = Val true /\ GreaterThan b a = Val true /\
  Equal a b = Val false.
Proof.
  intros Pa Pb Hlt.
  pose proof (Parse_wf _ Pa) as Ha. pose proof (Parse_wf _ Pb) as Hb.
  assert (E : key_compare (vkey a) (vkey b) = (-1)%Z).
  { rewrite key_compare_lexicographic.
    rewrite (wf_key Ha), (wf_key Hb). unfold cmpkey at 1 2.
    cbn [key_epoch lexicographic part.Compare]. unfold part.BigInt_Compare.
    apply N.compare_lt_iff in Hlt. rewrite Hlt. reflexivity. }
  destruct (comparisons_wf Ha Hb) as (-> & -> & _).
  destruct (comparisons_wf Hb Ha) as (_ & _ & -> & _).
  rewrite (key_compare_opp (wf_is_cmpkey Ha) (wf_is_cmpkey Hb)), E.
  repeat split.
Qed.

Lemma epoch_decides_first_witness :
  exists a b,
    Parse "2024.12" = Some a /\ Parse "1!0.1.dev0" = Some b /\
    LessThan a b = Val true.
Proof.
  assert (Pa : Parse "2024.12" = Some _) by (vm_compute; reflexivity).
  assert (Pb : Parse "1!0.1.dev0" = Some _) by (vm_compute; reflexivity).
  eexists _, _. split; [exact Pa|]. split; [exact Pb|].
  refine (proj1 (@epoch_decides_first _ _ _ _ Pa Pb _)). reflexivity.
Defined.

Lemma Normalize_zeros n :
  part.Normalize (repeat (part.of_BigInt 0%N) n) = [].
Proof. induction n as [|n IH]; [reflexivity|]. cbn [repeat part.Normalize]. rewrite IH. reflexivity. Qed.

Lemma Normalize_app_zeros l n :
  part.Normalize (l ++ repeat (part.of_BigInt 0%N) n) = part.Normalize l.
Proof.
  induction l as [|a l IH]; cbn [app part.Normalize].
  - apply Normalize_zeros.
  - rewrite IH. reflexivity.
Qed.

Lemma BigIntSliceToParts_app_zeros r n :
  part.BigIntSliceToParts (r ++ repeat 0%N n)
  = part.BigIntSliceToParts r ++ repeat (part.of_BigInt 0%N) n.
Proof.
  unfold part.BigIntSliceToParts. rewrite map_app. f_equal.
  induction n as [|n IH]; [reflexivity|]. cbn [repeat map]. rewrite IH. reflexivity.
Qed.

(** Trailing zeros of the release do not count: two parsed versions
    that differ only in zeros at the end of the release have the same
    key and are equal. *)
Theorem trailing_zeros_ignored (sa sb : string) (a b : Version) (n : nat) :
  Parse sa = Some a -> Parse sb = Some b ->
  epoch b = epoch a -> release b = release a ++ repeat 0%N n ->
  pre b = pre a -> post b = post a -> dev b = dev a -> local b = local a ->
  vkey b = vkey a /\ Equal a b = Val true /\ Equal b a = Val true.
Proof.
  intros Pa Pb Ee Er Ep Eq Ed El.
  pose proof (Parse_wf _ Pa) as Ha. pose proof (Parse_wf _ Pb) as Hb.
  assert (K : vkey b = vkey a).
  { rewrite (wf_key Ha), (wf_key Hb), Ee, Er, Ep, Eq, Ed, El.
    unfold cmpkey. f_equal.
    rewrite BigIntSliceToParts_app_zeros. apply Normalize_app_zeros. }
  split; [exact K|].
  destruct (comparisons_wf Ha Hb) as (_ & -> & _).
  destruct (comparisons_wf Hb Ha) as (_ & -> & _).
  rewrite K, (key_compare_refl (wf_is_cmpkey Ha)). split; reflexivity.
Qed.

Lemma trailing_zeros_ignored_witness :
  exists a b,
    Parse "1.2rc1" = Some a /\ Parse "1.2.0.0rc1" = Some b /\
    Equal a b = Val true.
Proof.
  assert (Pa : Parse "1.2rc1" = Some _) by (vm_compute; reflexivity).
  assert (Pb : Parse "1.2.0.0rc1" = Some _) by (vm_compute; reflexivity).
  eexists _, _. split; [exact Pa|]. split; [exact Pb|].
  refine (proj1 (proj2 (@trailing_zeros_ignored _ _ _ _ 2 Pa Pb _ _ _ _ _ _)));
    reflexivity.
Defined.

Lemma Normalize_nonempty A y T :
  y <> 0%N ->
  part.Normalize (part.BigIntSliceToParts (A ++ y :: T)) <> [].
Proof.
  intros Hy. unfold part.BigIntSliceToParts.
  induction A as [|a A IH]; cbn [app map part.Normalize].
  - destruct (part.Normalize (map part.of_BigInt T)); [|discriminate].
    cbn [part.IsNull]. destruct (N.eqb_spec y 0); [contradiction|discriminate].
  - destruct (part.Normalize (map part.of_BigInt (A ++ y :: T)));
      [contradiction|discriminate].
Qed.

Lemma Compare_BigInt_refl a :
  part.Compare (part.of_BigInt a) (part.of_BigInt a) = 0%Z.
Proof. cbn. unfold part.BigInt_Compare. rewrite N.compare_refl. reflexivity. Qed.

Lemma release_decides A : forall x y T1 T2,
  (x < y)%N ->
  Parts_Compare (part.Normalize (part.BigIntSliceToParts (A ++ x :: T1)))
                (part.Normalize (part.BigIntSliceToParts (A ++ y :: T2)))
  = (-1)%Z.
Proof.
  induction A as [|a A IH]; intros x y T1 T2 Hlt.
  - assert (Hy : y <> 0%N) by lia.
    pose proof (@Normalize_nonempty [] y T2 Hy) as Hne.
    cbn [app] in *. unfold part.BigIntSliceToParts in *.
    cbn [map part.Normalize] in *.
    assert (Ey : part.IsNull (part.of_BigInt y) = false)
      by (cbn; destruct (N.eqb_spec y 0); congruence).
    assert (Exy : part.Compare (part.of_BigInt x) (part.of_BigInt y) = (-1)%Z).
    { cbn. unfold part.BigInt_Compare. apply N.compare_lt_iff in Hlt.
      rewrite Hlt. reflexivity. }
    destruct (part.Normalize (map part.of_BigInt T2)) as [|q2 qs2];
      destruct (part.Normalize (map part.of_BigInt T1)) as [|q1 qs1];
      rewrite ?Ey; try destruct (part.IsNull (part.of_BigInt x));
      rewrite ?Parts_Compare_nil_cons, ?Parts_Compare_cons, ?Exy; reflexivity.
  - pose proof (IH x y T1 T2 Hlt) as E.
    assert (Hy : y <> 0%N) by lia.
    pose proof (@Normalize_nonempty A y T2 Hy) as Hne.
    unfold part.BigIntSliceToParts in *. cbn [app map part.Normalize].
    destruct (part.Normalize (map part.of_BigInt (A ++ y :: T2))) as [|q2 qs2];
      [contradiction|].
    destruct (part.Normalize (map part.of_BigInt (A ++ x :: T1))) as [|q1 qs1].
    + destruct (part.IsNull (part.of_BigInt a));
        rewrite ?Parts_Compare_nil_cons, ?Parts_Compare_cons,
          ?Compare_BigInt_refl; reflexivity.
    + rewrite Parts_Compare_cons, Compare_BigInt_refl. exact E.
Qed.

(** Releases compare number by number, not as text: with equal epochs,
    the first component in which two releases differ decides, whatever
    follows it and whatever the other segments are. *)
Theorem release_decides_by_first_difference
        (sa sb : string) (a b : Version)
        (common t1 t2 : list part.BigInt) (x y : part.BigInt) :
  Parse sa = Some a -> Parse sb = Some b ->
  epoch a = epoch b ->
  release a = common ++ x :: t1 -> release b = common ++ y :: t2 ->
  (x < y)%N ->
  LessThan a b = Val true /\ GreaterThan b a = Val true.
Proof.
  intros Pa Pb Ee Ea Eb Hlt.
  pose proof (Parse_wf _ Pa) as Ha. pose proof (Parse_wf _ Pb) as Hb.
  assert (E : key_compare (vkey a) (vkey b) = (-1)%Z).
  { rewrite key_compare_lexicographic.
    rewrite (wf_key Ha), (wf_key Hb), Ee, Ea, Eb. unfold cmpkey at 1 2 3 4.
    cbn [key_epoch key_release]. rewrite Compare_BigInt_refl, Compare_Parts.
    match goal with
    | |- lexicographic (_ :: ?B :: _) = _ =>
        replace B with (-1)%Z
          by (symmetry; exact (release_decides common t1 t2 Hlt))
    end.
    reflexivity. }
  destruct (comparisons_wf Ha Hb) as (-> & _).
  destruct (comparisons_wf Hb Ha) as (_ & _ & -> & _).
  rewrite (key_compare_opp (wf_is_cmpkey Ha) (wf_is_cmpkey Hb)), E.
  split; reflexivity.
Qed.

Lemma release_decides_by_first_difference_witness :
  exists a b,
    Parse "1.9.17.post4" = Some a /\ Parse "1.10a1" = Some b /\
    LessThan a b = Val true.
Proof.
  assert (Pa : Parse "1.9.17.post4" = Some _) by (vm_compute; reflexivity).
  assert (Pb : Parse "1.10a1" = Some _) by (vm_compute; reflexivity).
  eexists _, _. split; [exact Pa|]. split; [exact Pb|].
  refine (proj1 (@release_decides_by_first_difference
                   _ _ _ _ [1%N] [17%N] [] 9%N 10%N Pa Pb _ _ _ _));
    reflexivity.
Defined.

Lemma Compare_release_refl r :
  Parts_Compare (part.Normalize (part.BigIntSliceToParts r))
                (part.Normalize (part.BigIntSliceToParts r)) = 0%Z.
Proof.
  eapply Parts_Compare_refl with (pos := fun _ : nat => IsInt) (i := 0%nat).
  - intros _. apply Comparator_IsInt.
  - apply release_key_cmpkey.
Qed.

Lemma key_compare_base v :
  wfVersion v ->
  key_compare (vkey v) (vkey (base_of v))
  = if negb (letterNumber_isNull (pre v))
       || letterNumber_isNull (post v) && negb (letterNumber_isNull (dev v))
    then (-1)%Z
    else if negb (letterNumber_isNull (post v)) then 1%Z
    else if String.eqb (local v) "" then 0%Z else 1%Z.
Proof.
  intros Hv. rewrite key_compare_lexicographic, (wf_key Hv).
  unfold base_of, mkParsed. cbn [vkey]. unfold cmpkey.
  cbn [key_epoch key_release key_pre key_post key_dev key_local].
  rewrite Compare_BigInt_refl, Compare_Parts, Compare_release_refl.
  change (letterNumber_isNull null_ln) with true.
  change (String.eqb "" "") with true.
  destruct (letterNumber_isNull (pre v)), (letterNumber_isNull (post v)),
    (letterNumber_isNull (dev v)), (String.eqb (local v) ""); reflexivity.
Qed.

(** Where a parsed version stands against its base version: a
    pre-release, and a development release that is not a post-release,
    is less than it; a post-release that is not a pre-release by its
    letter is greater, also when it is a development release; a version
    with no such segment equals it, unless a local segment puts it
    above. *)
Theorem order_around_base (s base : string) (v b : Version) :
  Parse s = Some v -> BaseVersion v = Val base -> Parse base = Some b ->
  (negb (letterNumber_isNull (pre v))
   || letterNumber_isNull (post v) && negb (letterNumber_isNull (dev v)) = true ->
   LessThan v b = Val true) /\
  (letterNumber_isNull (pre v) && IsPostRelease v = true ->
   GreaterThan v b = Val true) /\
  (IsPreRelease v || IsPostRelease v = false ->
   Version_Compare v b = Val (if String.eqb (Local v) "" then 0 else 1)%Z).
Proof.
  intros P E Pb. pose proof (Parse_wf _ P) as Hv.
  destruct (BaseVersion_wf Hv) as (base' & E1 & E2).
  assert (base' = base) by congruence. subst base'.
  apply MustParse_Val in E2. assert (b = base_of v) by congruence. subst b.
  pose proof (wf_base_of Hv) as Hb.
  destruct (comparisons_wf Hv Hb) as (-> & _ & -> & _).
  rewrite (Version_Compare_wf Hv Hb), (key_compare_base Hv).
  unfold IsPreRelease, IsPostRelease, Local. rewrite (wf_included Hv).
  destruct (letterNumber_isNull (pre v)), (letterNumber_isNull (post v)),
    (letterNumber_isNull (dev v)); cbn [negb orb andb];
    repeat split; intros; try discriminate; try reflexivity;
    destruct (String.eqb (local v) ""); reflexivity.
Qed.

Lemma order_around_base_witness :
  exists v b,
    Parse "1.0.post1.dev3" = Some v /\ Parse "1.0" = Some b /\
    IsPreRelease v = true /\ GreaterThan v b = Val true.
Proof.
  assert (P : Parse "1.0.post1.dev3" = Some _) by (vm_compute; reflexivity).
  assert (Pb : Parse "1.0" = Some _) by (vm_compute; reflexivity).
  eexists _, _. split; [exact P|]. split; [exact Pb|]. split; [reflexivity|].
  refine (proj1 (proj2 (@order_around_base _ "1.0" _ _ P _ Pb)) _);
    vm_compute; reflexivity.
Defined.

(** A local segment puts a version just above its public version: with
    a version that has no local segment it compares as its public
    version does, except that where the public version is equal the
    version with a local segment is greater. *)
Theorem local_sorts_after_public (sv sw pub : string) (v p w : Version) :
  Parse sv = Some v -> Public v = Val pub -> Parse pub = Some p ->
  Parse sw = Some w -> Local w = "" ->
  exists c,
    Version_Compare p w = Val c /\
    Version_Compare v w
    = Val (if (c =? 0)%Z then if String.eqb (Local v) "" then 0 else 1 else c)%Z /\
    GreaterThanOrEqual v p = Val true.
Proof.
  intros Pv E Pp Pw Hl. pose proof (Parse_wf _ Pv) as Hv.
  pose proof (Parse_wf _ Pw) as Hw.
  destruct (Public_wf Hv) as (pub' & E1 & E2).
  assert (pub' = pub) by congruence. subst pub'.
  apply MustParse_Val in E2. assert (p = public_of v) by congruence. subst p.
  pose proof (wf_public_of Hv) as Hp.
  destruct (keys_against_public_spec Hv Hw Hl) as (c2 & c5 & K1 & K2 & _).
  exists c5. rewrite (Version_Compare_wf Hp Hw), (Version_Compare_wf Hv Hw).
  rewrite K1, K2. split; [reflexivity|]. split; [reflexivity|].
  assert (Hlp : local (public_of v) = "") by reflexivity.
  destruct (keys_against_public_spec Hv Hp Hlp) as (d2 & d5 & L1 & L2 & _).
  destruct (comparisons_wf Hv Hp) as (_ & _ & _ & _ & ->).
  rewrite L1.
  assert (D : d5 = 0%Z).
  { rewrite <- L2. unfold public_of at 1. unfold mkParsed. cbn [vkey].
    change (cmpkey (epoch v) (release v) (pre v) (post v) (dev v) "")
      with (vkey (public_of v)).
    apply key_compare_refl, wf_is_cmpkey, Hp. }
  rewrite D. cbn [Z.eqb]. destruct (String.eqb (local v) ""); reflexivity.
Qed.

Lemma local_sorts_after_public_witness :
  exists v p w,
    Parse "1.0+deb.7" = Some v /\ Parse "1.0" = Some p /\
    Parse "1.0.post1" = Some w /\
    Version_Compare v w = Val (-1)%Z.
Proof.
  assert (Pv : Parse "1.0+deb.7" = Some _) by (vm_compute; reflexivity).
  assert (Pp : Parse "1.0" = Some _) by (vm_compute; reflexivity).
  assert (Pw : Parse "1.0.post1" = Some _) by (vm_compute; reflexivity).
  eexists _, _, _. split; [exact Pv|]. split; [exact Pp|]. split; [exact Pw|].
  match type of Pv with _ = Some ?v =>
    assert (E : Public v = Val "1.0") by (vm_compute; reflexivity) end.
  match type of Pw with _ = Some ?w =>
    assert (Hl : Local w = "") by reflexivity end.
  destruct (@local_sorts_after_public _ _ _ _ _ _ Pv E Pp Pw Hl)
    as (c & E1 & E2 & _).
  rewrite E2. vm_compute in E1. injection E1 as <-. reflexivity.
Defined.

End OrderOfVersions.

Section SortingVersions.

Lemma index_in_range s i :
  within s i -> exists v, index s i = Val v /\ nth_error s (Z.to_nat i) = Some v.
Proof.
  unfold within, Len, index. intros [H0 H1].
  destruct (Z.ltb_spec i 0); [lia|].
  destruct (nth_error s (Z.to_nat i)) as [v|] eqn:E; [eauto|].
  apply nth_error_None in E. lia.
Qed.

Lemma index_out_of_range s i : ~ within s i -> index s i = Panic.
Proof.
  unfold within, Len, index. intros H.
  destruct (Z.ltb_spec i 0); [reflexivity|].
  destruct (nth_error s (Z.to_nat i)) as [v|] eqn:E; [|reflexivity].
  exfalso. apply H. split; [assumption|].
  assert (Z.to_nat i < List.length s)%nat
    by (apply nth_error_Some; congruence). lia.
Qed.

Lemma store_length s : forall n v, List.length (store s n v) = List.length s.
Proof.
  induction s as [|a s IH]; intros [|n] v; cbn [store List.length]; auto.
Qed.

Lemma nth_error_store s : forall n v k,
  nth_error (store s n v) k
  = if (k =? n)%nat
    then (if (n <? List.length s)%nat then Some v else None)
    else nth_error s k.
Proof.
  induction s as [|a s IH]; intros n v k.
  - cbn [store List.length]. change (n <? 0)%nat with false.
    destruct (k =? n)%nat; destruct k; reflexivity.
  - destruct n as [|n], k as [|k]; cbn [store nth_error List.length]; try reflexivity.
    rewrite IH. reflexivity.
Qed.

Lemma nth_error_extensional (l l' : list Version) :
  (forall k, nth_error l k = nth_error l' k) -> l = l'.
Proof.
  revert l'. induction l as [|a l IH]; intros [|b l'] H.
  - reflexivity.
  - specialize (H 0%nat). discriminate.
  - specialize (H 0%nat). discriminate.
  - pose proof (H 0%nat) as H0. cbn in H0. injection H0 as <-.
    f_equal. apply IH. intros k. exact (H (S k)).
Qed.

Lemma store_one_perm s : forall n a v,
  nth_error s n = Some v -> Permutation (a :: s) (v :: store s n a).
Proof.
  induction s as [|b s IH]; intros [|n] a v E; cbn in E; try discriminate.
  - injection E as ->. cbn [store]. apply perm_swap.
  - cbn [store]. eapply perm_trans; [apply perm_swap|].
    eapply perm_trans; [apply perm_skip, (IH n a v E)|]. apply perm_swap.
Qed.

Lemma store_two_perm s : forall i j vi vj,
  nth_error s i = Some vi -> nth_error s j = Some vj ->
  Permutation s (store (store s i vj) j vi).
Proof.
  induction s as [|a s IH]; intros [|i] [|j] vi vj Ei Ej; cbn in Ei, Ej;
    try discriminate; cbn [store].
  - injection Ei as ->. injection Ej as ->. apply Permutation_refl.
  - injection Ei as ->. apply store_one_perm, Ej.
  - injection Ej as ->. apply store_one_perm, Ei.
  - apply perm_skip, IH; assumption.
Qed.

(** [Swap] within the slice exchanges the two elements and nothing else:
    the length and every other element stay, the content is a
    permutation of the old one, and swapping again restores it. *)
Theorem Swap_exchanges (s : SortedVersions) (i j : Z) :
  within s i -> within s j ->
  exists s',
    Swap s i j = Val s' /\ Len s' = Len s /\
    index s' i = index s j /\ index s' j = index s i /\
    (forall k, k <> i -> k <> j -> index s' k = index s k) /\
    Permutation s s' /\
    Swap s' i j = Val s.
Proof.
  intros Hi Hj.
  destruct (index_in_range Hi) as (vi & Ei & Ni).
  destruct (index_in_range Hj) as (vj & Ej & Nj).
  unfold Swap. rewrite Ei, Ej. cbn [obind].
  set (s' := store (store s (Z.to_nat i) vj) (Z.to_nat j) vi).
  assert (Hlen : List.length s' = List.length s)
    by (unfold s'; rewrite !store_length; reflexivity).
  assert (Ri : (Z.to_nat i < List.length s)%nat)
    by (apply nth_error_Some; congruence).
  assert (Rj : (Z.to_nat j < List.length s)%nat)
    by (apply nth_error_Some; congruence).
  apply Nat.ltb_lt in Ri, Rj.
  assert (Hnth : forall k,
             nth_error s' k
             = if (k =? Z.to_nat j)%nat then Some vi
               else if (k =? Z.to_nat i)%nat then Some vj
               else nth_error s k).
  { intros k. unfold s'. rewrite !nth_error_store, store_length, Ri, Rj.
    reflexivity. }
  assert (Hidx : forall k, index s' k
                 = if (k <? 0)%Z then Panic
                   else match nth_error s' (Z.to_nat k) with
                        | Some v => Val v | None => Panic end)
    by reflexivity.
  destruct Hi as [Hi0 Hi1], Hj as [Hj0 Hj1].
  exists s'. split; [reflexivity|].
  split; [unfold Len; rewrite Hlen; reflexivity|].
  split.
  { rewrite Hidx, Hnth. destruct (Z.ltb_spec i 0); [lia|].
    destruct (Nat.eqb_spec (Z.to_nat i) (Z.to_nat j)) as [E|E].
    - assert (i = j) by lia. subst j. congruence.
    - rewrite Nat.eqb_refl. reflexivity. }
  split.
  { rewrite Hidx, Hnth. destruct (Z.ltb_spec j 0); [lia|].
    rewrite Nat.eqb_refl. reflexivity. }
  split.
  { intros k Hki Hkj. rewrite Hidx, Hnth. unfold index.
    destruct (Z.ltb_spec k 0); [reflexivity|].
    destruct (Nat.eqb_spec (Z.to_nat k) (Z.to_nat j)); [lia|].
    destruct (Nat.eqb_spec (Z.to_nat k) (Z.to_nat i)); [lia|]. reflexivity. }
  split; [apply store_two_perm; assumption|].
  rewrite !Hidx. destruct (Z.ltb_spec i 0); [lia|].
  destruct (Z.ltb_spec j 0); [lia|].
  rewrite !Hnth, !Nat.eqb_refl.
  assert (Ej' : (if (Z.to_nat i =? Z.to_nat j)%nat then Some vi else Some vj)
                = Some (if (Z.to_nat i =? Z.to_nat j)%nat then vi else vj))
    by (destruct (Z.to_nat i =? Z.to_nat j)%nat; reflexivity).
  rewrite Ej'. cbn [obind]. f_equal.
  apply nth_error_extensional. intros k.
  rewrite !nth_error_store, !store_length, Hlen, Ri, Rj, Hnth.
  destruct (Nat.eqb_spec k (Z.to_nat j)) as [Ekj|Ekj].
  - subst k. destruct (Nat.eqb_spec (Z.to_nat i) (Z.to_nat j)) as [E|E];
      congruence.
  - destruct (Nat.eqb_spec k (Z.to_nat i)) as [Eki|Eki]; [|reflexivity].
    subst k. destruct (Nat.eqb_spec (Z.to_nat i) (Z.to_nat j)); congruence.
Qed.

Lemma Swap_exchanges_witness :
  exists a b c s',
    Parse "3" = Some a /\ Parse "1" = Some b /\ Parse "2" = Some c /\
    Swap [a; b; c] 0 2 = Val s' /\ Permutation [a; b; c] s' /\
    Swap s' 0 2 = Val [a; b; c].
Proof.
  assert (Pa : Parse "3" = Some _) by (vm_compute; reflexivity).
  assert (Pb : Parse "1" = Some _) by (vm_compute; reflexivity).
  assert (Pc : Parse "2" = Some _) by (vm_compute; reflexivity).
  match type of Pa with _ = Some ?a =>
  match type of Pb with _ = Some ?b =>
  match type of Pc with _ = Some ?c =>
    destruct (@Swap_exchanges [a; b; c] 0 2) as (s' & E & _ & _ & _ & _ & Hp & E');
      [unfold within; cbn; lia | unfold within; cbn; lia |];
    exists a, b, c, s'
  end end end.
  split; [exact Pa|]. split; [exact Pb|]. split; [exact Pc|].
  split; [exact E|]. split; [exact Hp | exact E'].
Defined.

(** An index outside the slice makes [Less] and [Swap] panic, whatever
    the other index is. *)
Theorem index_out_of_range_panics (s : SortedVersions) (i j : Z) :
  (i < 0 \/ Len s <= i)%Z ->
  Less s i j = Panic /\ Less s j i = Panic /\
  Swap s i j = Panic /\ Swap s j i = Panic.
Proof.
  intros H.
  assert (E : index s i = Panic)
    by (apply index_out_of_range; unfold within; lia).
  unfold Less, Swap. rewrite E. cbn [obind].
  destruct (index s j); repeat split; reflexivity.
Qed.

Lemma index_out_of_range_panics_witness :
  Less [] 0 0 = Panic /\ Swap [] 0 0 = Panic.
Proof.
  destruct (@index_out_of_range_panics [] 0 0) as (H1 & _ & H2 & _);
    [right; cbn; lia|].
  split; [exact H1 | exact H2].
Defined.

Lemma Less_key s i j a b :
  wfVersion a -> wfVersion b ->
  index s i = Val a -> index s j = Val b ->
  Less s i j = Val (key_compare (vkey a) (vkey b) <? 0)%Z.
Proof.
  intros Ha Hb Ei Ej. unfold Less. rewrite Ei, Ej. cbn [obind].
  apply comparisons_wf; assumption.
Qed.

(** On a slice of parsed versions [Less] is the strict weak order that
    sorting needs: it is irreflexive, asymmetric and transitive, and
    being unordered either way is transitive too. *)
Theorem Less_strict_weak_order (s : SortedVersions) (i j k : Z) :
  Forall (fun v => exists text, Parse text = Some v) s ->
  within s i -> within s j -> within s k ->
  Less s i i = Val false /\
  (Less s i j = Val true -> Less s j i = Val false) /\
  (Less s i j = Val true -> Less s j k = Val true -> Less s i k = Val true) /\
  (Less s i j = Val false -> Less s j i = Val false ->
   Less s j k = Val false -> Less s k j = Val false ->
   Less s i k = Val false /\ Less s k i = Val false).
Proof.
  intros Hs Hi Hj Hk.
  assert (Hwf : forall n, within s n ->
                  exists v, index s n = Val v /\ wfVersion v).
  { intros n Hn. destruct (index_in_range Hn) as (v & E & N).
    exists v. split; [exact E|].
    rewrite Forall_forall in Hs.
    destruct (Hs v (nth_error_In _ _ N)) as (text & P).
    exact (Parse_wf _ P). }
  destruct (Hwf i Hi) as (a & Ea & Ha).
  destruct (Hwf j Hj) as (b & Eb & Hb).
  destruct (Hwf k Hk) as (c & Ec & Hc).
  pose proof (wf_is_cmpkey Ha) as Ka. pose proof (wf_is_cmpkey Hb) as Kb.
  pose proof (wf_is_cmpkey Hc) as Kc.
  rewrite (@Less_key s i i a a Ha Ha Ea Ea), (@Less_key s i j a b Ha Hb Ea Eb),
    (@Less_key s j i b a Hb Ha Eb Ea), (@Less_key s j k b c Hb Hc Eb Ec),
    (@Less_key s k j c b Hc Hb Ec Eb), (@Less_key s i k a c Ha Hc Ea Ec),
    (@Less_key s k i c a Hc Ha Ec Ea).
  rewrite (key_compare_refl Ka).
  rewrite (key_compare_opp Ka Kb), (key_compare_opp Kb Kc),
    (key_compare_opp Ka Kc).
  pose proof (key_compare_range Ka Kb) as Rab.
  pose proof (key_compare_range Kb Kc) as Rbc.
  pose proof (key_compare_range Ka Kc) as Rac.
  pose proof (@key_compare_trans _ _ _ Ka Kb Kc) as T.
  pose proof (@key_compare_congr _ _ _ Ka Kb Kc) as C.
  split; [reflexivity|].
  split.
  { intros [= E]. f_equal. apply Z.ltb_lt in E. apply Z.ltb_ge. lia. }
  split.
  { intros [= E1] [= E2]. apply Z.ltb_lt in E1, E2. f_equal. apply Z.ltb_lt.
    rewrite T; lia. }
  intros [= E1] [= E2] [= E3] [= E4].
  apply Z.ltb_ge in E1, E2, E3, E4.
  assert (E : key_compare (vkey a) (vkey b) = 0%Z) by lia.
  rewrite (C E). split; f_equal; apply Z.ltb_ge; lia.
Qed.

Lemma Less_strict_weak_order_witness :
  exists a b c,
    Parse "1.0" = Some a /\ Parse "1.0.0" = Some b /\ Parse "1.0rc1" = Some c /\
    Less [a; b; c] 0 0 = Val false.
Proof.
  assert (Pa : Parse "1.0" = Some _) by (vm_compute; reflexivity).
  assert (Pb : Parse "1.0.0" = Some _) by (vm_compute; reflexivity).
  assert (Pc : Parse "1.0rc1" = Some _) by (vm_compute; reflexivity).
  eexists _, _, _. split; [exact Pa|]. split; [exact Pb|]. split; [exact Pc|].
  refine (proj1 (@Less_strict_weak_order _ 0 1 2 _ _ _ _)).
  - repeat constructor; eexists; eassumption.
  - unfold within; cbn; lia.
  - unfold within; cbn; lia.
  - unfold within; cbn; lia.
Defined.

End SortingVersions.

Section ConstraintConstruction.

Lemma newConstraints_group_iff singles : forall acc cs,
  newConstraints_group acc singles = Some cs <->
  exists cs', cs = acc ++ cs' /\
              Forall2 (fun clause c => newConstraint clause = Some c) singles cs'.
Proof.
  induction singles as [|single singles IH]; intros acc cs;
    cbn [newConstraints_group].
  - split.
    + intros [= <-]. exists []. rewrite app_nil_r. split; [reflexivity|constructor].
    + intros (cs' & -> & H). inversion H. rewrite app_nil_r. reflexivity.
  - destruct (newConstraint single) as [c|] eqn:E.
    + rewrite IH. split.
      * intros (cs' & -> & H). exists (c :: cs'). rewrite <- app_assoc.
        split; [reflexivity|]. constructor; assumption.
      * intros (cs' & -> & H). inversion H as [|? c' ? cs'' Hc Hr]; subst.
        assert (c' = c) by congruence. subst c'.
        exists cs''. rewrite <- app_assoc. split; [reflexivity|assumption].
    + split; [discriminate|].
      intros (cs' & _ & H). inversion H; subst. congruence.
Qed.

Lemma newConstraints_groups_iff vvs : forall acc css,
  newConstraints_groups acc vvs = Some css <->
  exists css', css = acc ++ css' /\ Forall2 built_group vvs css'.
Proof.
  induction vvs as [|vv vvs IH]; intros acc css; cbn [newConstraints_groups].
  - split.
    + intros [= <-]. exists []. rewrite app_nil_r. split; [reflexivity|constructor].
    + intros (css' & -> & H). inversion H. rewrite app_nil_r. reflexivity.
  - destruct (newConstraints_group [] (Split vv ",")) as [cs|] eqn:E.
    + apply newConstraints_group_iff in E. destruct E as (cs0 & -> & Hcs).
      cbn [app]. rewrite IH. split.
      * intros (css' & -> & H). exists (cs0 :: css'). rewrite <- app_assoc.
        split; [reflexivity|]. constructor; assumption.
      * intros (css' & -> & H). inversion H as [|? cg ? css'' Hc Hr]; subst.
        assert (cg = cs0).
        { assert (E1 : newConstraints_group [] (Split vv ",") = Some cg)
            by (apply newConstraints_group_iff; exists cg; auto).
          assert (E2 : newConstraints_group [] (Split vv ",") = Some cs0)
            by (apply newConstraints_group_iff; exists cs0; auto).
          congruence. }
        subst cg. exists css''. rewrite <- app_assoc.
        split; [reflexivity|assumption].
    + split; [discriminate|].
      intros (css' & _ & H). inversion H as [|? cg ? css'' Hc Hr]; subst.
      assert (E1 : newConstraints_group [] (Split vv ",") = Some cg)
        by (apply newConstraints_group_iff; exists cg; auto).
      congruence.
Qed.

Lemma Forall2_nonempty {A B : Type} (R : A -> B -> Prop) l l' :
  Forall2 R l l' -> l <> [] -> l' <> [].
Proof. intros H Hl. destruct H; [contradiction|discriminate]. Qed.

(** [NewConstraints] succeeds exactly when every clause of every group
    is a constraint, and then it holds one group for each part between
    [||] and in it one constraint for each part between commas, in
    their order; so there is always a group, and no group is empty. *)
Theorem NewConstraints_clauses (expr : string) (cs : Constraints) :
  (NewConstraints expr = Some cs <-> built_groups expr (constraints cs)) /\
  (built_groups expr (constraints cs) ->
   constraints cs <> [] /\ Forall (fun group => group <> []) (constraints cs)).
Proof.
  split.
  - unfold NewConstraints, built_groups. split.
    + destruct (newConstraints_groups [] (Split expr "||")) as [css|] eqn:E;
        [|discriminate].
      intros [= <-]. cbn [constraints].
      apply newConstraints_groups_iff in E. destruct E as (css' & -> & H).
      exact H.
    + intros H. destruct cs as [css]. cbn [constraints] in H.
      assert (E : newConstraints_groups [] (Split expr "||") = Some css)
        by (apply newConstraints_groups_iff; exists css; auto).
      rewrite E. reflexivity.
  - unfold built_groups. intros H. split.
    + eapply Forall2_nonempty; [exact H|]. apply split_from_nonempty.
    + induction H as [|g cg gs cgs Hg _ IH]; constructor; [|exact IH].
      eapply Forall2_nonempty; [exact Hg|]. apply split_from_nonempty.
Qed.

Lemma NewConstraints_clauses_witness :
  exists c1 c2 c3,
    NewConstraints ">=1.0,<2.0||==3.*" = Some (mkConstraints [[c1; c2]; [c3]]) /\
    newConstraint ">=1.0" = Some c1 /\ newConstraint "<2.0" = Some c2 /\
    newConstraint "==3.*" = Some c3.
Proof.
  assert (E1 : newConstraint ">=1.0" = Some _) by reflexivity.
  assert (E2 : newConstraint "<2.0" = Some _) by reflexivity.
  assert (E3 : newConstraint "==3.*" = Some _) by reflexivity.
  eexists _, _, _. split; [|split; [exact E1|split; [exact E2|exact E3]]].
  apply (proj1 (@NewConstraints_clauses ">=1.0,<2.0||==3.*" _)).
  unfold built_groups, built_group.
  change (Split ">=1.0,<2.0||==3.*" "||") with [">=1.0,<2.0"; "==3.*"].
  cbn [constraints].
  constructor; [|constructor; [|constructor]].
  - change (Split ">=1.0,<2.0" ",") with [">=1.0"; "<2.0"].
    constructor; [exact E1|constructor; [exact E2|constructor]].
  - change (Split "==3.*" ",") with ["==3.*"].
    constructor; [exact E3|constructor].
Defined.

Lemma andCheck_true v cs :
  Forall safe cs -> wfVersion v ->
  (andCheck v cs = Val true <-> Forall (fun c => check c v = Val true) cs) /\
  (andCheck v cs = Val false <-> Exists (fun c => check c v = Val false) cs).
Proof.
  intros H Hv. induction H as [|c cs [Hc _] _ [IH1 IH2]]; cbn [andCheck].
  - split; split; intros E.
    + constructor.
    + reflexivity.
    + discriminate.
    + inversion E.
  - destruct (Hc v Hv) as ([|] & E); rewrite E; cbn [obind negb].
    + rewrite IH1, IH2. split; split.
      * intros F. constructor; assumption.
      * intros F. inversion F; assumption.
      * intros X. right. exact X.
      * intros X. inversion X as [? ? X1|? ? X1]; subst; [congruence|exact X1].
    + split; split; try discriminate.
      * intros F. inversion F; congruence.
      * intros _. left. exact E.
      * intros _. reflexivity.
Qed.

Lemma Check_loop_true v css :
  Forall (Forall safe) css -> wfVersion v ->
  (Check_loop css v = Val true <->
   Exists (Forall (fun c => check c v = Val true)) css) /\
  (Check_loop css v = Val false <->
   Forall (Exists (fun c => check c v = Val false)) css).
Proof.
  intros H Hv. induction H as [|cs css Hcs _ [IH1 IH2]]; cbn [Check_loop].
  - split; split; intros E.
    + discriminate.
    + inversion E.
    + constructor.
    + reflexivity.
  - destruct (andCheck_true Hcs Hv) as [A1 A2].
    destruct (@andCheck_returns v cs Hv Hcs) as ([|] & E); rewrite E;
      cbn [obind].
    + split; split; try discriminate.
      * intros _. left. apply A1, E.
      * intros _. reflexivity.
      * intros F. inversion F as [|? ? F1 _]; subst. apply A2 in F1. congruence.
    + rewrite IH1, IH2. split; split.
      * intros X. right. exact X.
      * intros X. inversion X as [? ? X1|? ? X1]; subst; [|exact X1].
        apply A1 in X1. congruence.
      * intros F. constructor; [apply A2, E|exact F].
      * intros F. inversion F; assumption.
Qed.

(** [Check] is the disjunction of the groups and each group the
    conjunction of its clauses: on constructed constraints and a parsed
    version it returns true exactly when every clause of some group
    holds, and false exactly when every group has a clause that fails. *)
Theorem Check_any_group_all_clauses
        (expr text : string) (cs : Constraints) (v : Version) :
  NewConstraints expr = Some cs -> Parse text = Some v ->
  (Check cs v = Val true <->
   Exists (Forall (fun c => check c v = Val true)) (constraints cs)) /\
  (Check cs v = Val false <->
   Forall (Exists (fun c => check c v = Val false)) (constraints cs)).
Proof.
  intros HN HP. pose proof (Parse_wf _ HP) as Hv.
  unfold NewConstraints in HN.
  destruct (newConstraints_groups [] (Split expr "||")) as [css|] eqn:E;
    [|discriminate].
  injection HN as <-. cbn [constraints]. unfold Check. cbn [constraints].
  apply Check_loop_true; [|exact Hv].
  eapply newConstraints_groups_safe; [exact E|constructor].
Qed.

Lemma Check_any_group_all_clauses_witness :
  exists v,
    Parse "3.1" = Some v /\
    Check {| constraints :=
               [[mkConstraint "1.0" (Some specifierGreaterThanEqual) ">=1.0";
                 mkConstraint "2.0" (Some specifierLessThan) "<2.0"];
                [mkConstraint "3.*" (Some specifierEqual) "==3.*"]] |} v
    = Val true.
Proof.
  assert (HN : NewConstraints ">=1.0,<2.0||==3.*"
               = Some {| constraints :=
                   [[mkConstraint "1.0" (Some specifierGreaterThanEqual) ">=1.0";
                     mkConstraint "2.0" (Some specifierLessThan) "<2.0"];
                    [mkConstraint "3.*" (Some specifierEqual) "==3.*"]] |})
    by reflexivity.
  assert (HP : Parse "3.1" = Some _) by (vm_compute; reflexivity).
  eexists. split; [exact HP|].
  apply (proj1 (@Check_any_group_all_clauses _ _ _ _ HN HP)).
  cbn [constraints]. right. left. constructor; [|constructor].
  vm_compute. reflexivity.
Defined.

End ConstraintConstruction.

Section ClauseShape.

Lemma Sem_Star_Cls p w c c' :
  Sem (Star (Cls p)) w c c' -> c' = c /\ Forall (fun a => p a = true) w.
Proof.
  revert w c c'. apply Sem_Star_ind.
  - intros c. split; [reflexivity|constructor].
  - intros w1 w2 c c1 c2 _ H1 _ [-> IH].
    inversion H1; subst. split; [reflexivity|]. constructor; assumption.
Qed.

Lemma Sem_operator_re_caps w c c' : Sem operator_re w c c' -> c' = c.
Proof. intros H. apply (Sem_groupless H). reflexivity. Qed.

(** What [specifierRegexp] matches: white space, an operator, white
    space, a text without white space, white space. *)
Lemma FindStringSubmatch_specifierRegexp_shape text m :
  FindStringSubmatch specifierRegexp specifierRegexp_NumSubexp text = Some m ->
  exists sp1 op sp2 ver sp3,
    list_ascii_of_string text
    = sp1 ++ list_ascii_of_string op ++ sp2 ++ list_ascii_of_string ver ++ sp3 /\
    spaces sp1 /\ spaces sp2 /\ spaces sp3 /\
    In op operators /\ no_space ver /\
    m = [text; op; op; ver].
Proof.
  unfold FindStringSubmatch.
  destruct (rmatch _ _ _ _) as [c|] eqn:E; [|discriminate].
  intros [= <-]. apply rmatch_sound in E.
  destruct E as (w & s' & c' & Hs & Hsem & Hend).
  destruct s' as [|? ?]; [|discriminate]. injection Hend as <-.
  rewrite app_nil_r in Hs. subst w.
  inversion Hsem; subst; clear Hsem.
  match goal with H0 : Sem specifierRegexp _ _ _ |- _ =>
    unfold specifierRegexp in H0; inversion H0; subst; clear H0 end.
  match goal with H0 : Sem (Seq (Group 1 _) _) _ _ _ |- _ =>
    inversion H0; subst; clear H0 end.
  match goal with H0 : Sem (Seq (Star _) (Seq (Group 3 _) _)) _ _ _ |- _ =>
    inversion H0; subst; clear H0 end.
  match goal with H0 : Sem (Seq (Group 3 _) _) _ _ _ |- _ =>
    inversion H0; subst; clear H0 end.
  repeat match goal with H0 : Sem (Group _ _) _ _ _ |- _ =>
    inversion H0; subst; clear H0 end.
  repeat match goal with
         | H0 : Sem (Star (Cls _)) _ _ _ |- _ =>
             apply Sem_Star_Cls in H0; destruct H0 as [-> ?]
         end.
  match goal with H0 : Sem operator_re ?w _ _ |- _ =>
    pose proof (Sem_operator_re H0) as Hop;
    apply Sem_operator_re_caps in H0; subst
  end.
  match goal with
  | H : ?w1 ++ ?w2 ++ ?w3 ++ ?w4 ++ ?w5 = list_ascii_of_string text |- _ =>
      exists w1, (string_of_list_ascii w2), w3, (string_of_list_ascii w4), w5;
      rewrite !list_ascii_of_string_of_list_ascii
  end.
  split; [reflexivity|].
  repeat (split; [assumption|]).
  split.
  { unfold no_space. rewrite list_ascii_of_string_of_list_ascii.
    eapply Forall_impl; [|eassumption]. cbv beta. intros a Ha.
    apply negb_true_iff in Ha. exact Ha. }
  cbn [map seq specifierRegexp_NumSubexp]. cbv [set_cap Nat.eqb].
  match goal with
  | H : _ = list_ascii_of_string text |- _ => rewrite H
  end.
  rewrite string_of_list_ascii_of_string. reflexivity.
Qed.

(** Every constraint comes from a clause of the shape: white space, one
    of the eight operators, white space, a version text without white
    space, white space.  The constraint holds that version text, the
    function of the operator and the clause as given, and unless the
    operator is [===] the text has passed [validate]. *)
Theorem newConstraint_shape (clause : string) (c : constraint) :
  newConstraint clause = Some c ->
  exists sp1 op sp2 ver sp3,
    list_ascii_of_string clause
    = sp1 ++ list_ascii_of_string op ++ sp2 ++ list_ascii_of_string ver ++ sp3 /\
    spaces sp1 /\ spaces sp2 /\ spaces sp3 /\
    In op operators /\ no_space ver /\
    c = mkConstraint ver (specifierOperators op) clause /\
    specifierOperators op <> None /\
    (op = "===" \/ validate op ver = None).
Proof.
  unfold newConstraint.
  destruct (FindStringSubmatch _ _ clause) as [m|] eqn:E; [|discriminate].
  apply FindStringSubmatch_specifierRegexp_shape in E.
  destruct E as (sp1 & op & sp2 & ver & sp3 & E & H1 & H2 & H3 & Hop & Hv & ->).
  change (specifierRegexp_SubexpIndex "operator") with 1%nat.
  change (specifierRegexp_SubexpIndex "version") with 3%nat.
  cbn [nth].
  destruct (if negb _ then _ else _) as [err|] eqn:V; [discriminate|].
  intros [= <-].
  exists sp1, op, sp2, ver, sp3.
  repeat (split; [assumption|]).
  split; [reflexivity|].
  split.
  { unfold operators in Hop. cbn [In] in Hop.
    destruct Hop as [<-|[<-|[<-|[<-|[<-|[<-|[<-|[<-|[]]]]]]]]]; discriminate. }
  destruct (String.eqb_spec op "===") as [->|Hne]; [left; reflexivity|].
  right. exact V.
Qed.

Lemma newConstraint_shape_witness :
  exists sp1 op sp2 sp3,
    list_ascii_of_string "  >= 1.0rc1 "
    = sp1 ++ list_ascii_of_string op ++ sp2
          ++ list_ascii_of_string "1.0rc1" ++ sp3 /\
    spaces sp1 /\ spaces sp2 /\ spaces sp3 /\ In op operators.
Proof.
  assert (E : newConstraint "  >= 1.0rc1 "
              = Some (mkConstraint "1.0rc1" (Some specifierGreaterThanEqual)
                                   "  >= 1.0rc1 ")) by reflexivity.
  destruct (@newConstraint_shape _ _ E)
    as (sp1 & op & sp2 & ver & sp3 & E1 & H1 & H2 & H3 & Hop & _ & Ec & _).
  injection Ec as <- _.
  exists sp1, op, sp2, sp3. repeat split; assumption.
Defined.

Lemma validate_None_inv op ver :
  validate op ver = None ->
  exists sv,
    Parse (if HasSuffix ver ".*" then TrimSuffix ver ".*" else ver) = Some sv /\
    (HasSuffix ver ".*" = true ->
     (op = "==" \/ op = "!=") /\
     letterNumber_isNull (dev sv) = true /\ Local sv = "") /\
    (op <> "==" -> op <> "!=" ->
     HasSuffix ver ".*" = false /\ Local sv = "") /\
    (op = "~=" -> (2 <= List.length (release sv))%nat).
Proof.
  unfold validate, Local. cbv zeta.
  destruct (Parse _) as [sv|]; [|discriminate].
  intros H. exists sv. split; [reflexivity|].
  destruct (String.eqb_spec op "==") as [E1|E1];
    [|destruct (String.eqb_spec op "!=") as [E2|E2]]; cbn [orb] in H.
  - destruct (HasSuffix ver ".*"); cbn [andb] in H.
    + destruct (letterNumber_isNull (dev sv)); cbn [negb orb] in H; [|discriminate].
      destruct (String.eqb_spec (local sv) ""); cbn [negb] in H; [|discriminate].
      repeat split; auto; try contradiction. subst op. discriminate.
    + repeat split; try discriminate; try contradiction. subst op. discriminate.
  - destruct (HasSuffix ver ".*"); cbn [andb] in H.
    + destruct (letterNumber_isNull (dev sv)); cbn [negb orb] in H; [|discriminate].
      destruct (String.eqb_spec (local sv) ""); cbn [negb] in H; [|discriminate].
      repeat split; auto; try contradiction. subst op. discriminate.
    + repeat split; try discriminate; try contradiction. subst op. discriminate.
  - destruct (String.eqb_spec op "~=") as [E3|E3].
    + destruct (HasSuffix ver ".*"); [discriminate|].
      destruct (Nat.ltb_spec (List.length (release sv)) 2); [discriminate|].
      destruct (String.eqb_spec (local sv) ""); cbn [negb] in H; [|discriminate].
      repeat split; auto; discriminate.
    + destruct (HasSuffix ver ".*"); [discriminate|].
      destruct (String.eqb_spec (local sv) ""); cbn [negb] in H; [|discriminate].
      repeat split; auto; try discriminate. contradiction.
Qed.

(** What construction guarantees of a constraint: its function is that
    of one of the eight operators, and unless that is [===] the version
    text parses once a trailing wild card is removed; a wild card comes
    only with [==] and [!=] and then the version has neither a
    development release nor a local segment; every other operator has a
    version without local segment, and [~=] one with at least two
    release numbers. *)
Theorem constructed_constraint_invariants (clause : string) (c : constraint) :
  newConstraint clause = Some c ->
  exists op,
    In op operators /\ c_operator c = specifierOperators op /\
    specifierOperators op <> None /\
    (op = "===" \/
     exists sv,
       Parse (stored_version c) = Some sv /\
       (HasSuffix (c_version c) ".*" = true ->
        (op = "==" \/ op = "!=") /\
        letterNumber_isNull (dev sv) = true /\ Local sv = "") /\
       (op <> "==" -> op <> "!=" ->
        HasSuffix (c_version c) ".*" = false /\ Local sv = "") /\
       (op = "~=" -> (2 <= List.length (release sv))%nat)).
Proof.
  unfold newConstraint.
  destruct (FindStringSubmatch _ _ clause) as [m|] eqn:E; [|discriminate].
  apply FindStringSubmatch_specifierRegexp_shape in E.
  destruct E as (sp1 & op & sp2 & ver & sp3 & E & H1 & H2 & H3 & Hop & Hv & ->).
  change (specifierRegexp_SubexpIndex "operator") with 1%nat.
  change (specifierRegexp_SubexpIndex "version") with 3%nat.
  cbn [nth].
  destruct (if negb _ then _ else _) as [err|] eqn:V; [discriminate|].
  intros [= <-]. exists op. unfold stored_version. cbn [c_operator c_version].
  split; [exact Hop|]. split; [reflexivity|].
  split.
  { unfold operators in Hop. cbn [In] in Hop.
    destruct Hop as [<-|[<-|[<-|[<-|[<-|[<-|[<-|[<-|[]]]]]]]]]; discriminate. }
  destruct (String.eqb_spec op "===") as [->|Hne]; [left; reflexivity|].
  right. cbn [negb] in V. apply validate_None_inv in V. exact V.
Qed.

Lemma constructed_constraint_invariants_witness :
  exists op,
    In op operators /\ specifierOperators op = Some specifierCompatible /\
    specifierOperators op <> None.
Proof.
  assert (E : newConstraint "~=2.2.post3"
              = Some (mkConstraint "2.2.post3" (Some specifierCompatible)
                                   "~=2.2.post3")) by reflexivity.
  destruct (@constructed_constraint_invariants _ _ E)
    as (op & Hop & Ec & Hn & _).
  exists op. cbn [c_operator] in Ec.
  split; [exact Hop|]. split; [symmetry; exact Ec | exact Hn].
Defined.

End ClauseShape.

Section ClausesAndLocalSegments.

Lemma Public_original v :
  wfVersion v -> Public v = Val (original (public_of v)).
Proof.
  intros Hv. destruct (Public_wf Hv) as (pub & E1 & E2).
  apply MustParse_Val, Parse_inv in E2. destruct E2 as [_ ->]. exact E1.
Qed.

Lemma lexicographic_zero l : lexicographic l = 0%Z -> Forall (fun c => c = 0%Z) l.
Proof.
  induction l as [|c l IH]; cbn [lexicographic]; [constructor|].
  destruct (Z.eqb_spec c 0) as [->|Hc]; intros H.
  - constructor; auto.
  - contradiction.
Qed.

(** The clauses [<=], [>=], [~=], and [==] and [!=] with a wild card or
    with a version that has no local segment, do not look at the local
    segment of the candidate: two parsed candidates that differ in
    nothing else get the same answer. *)
Theorem local_segment_ignored (s1 s2 spec : string) (p1 p2 : Version) :
  Parse s1 = Some p1 -> Parse s2 = Some p2 ->
  epoch p1 = epoch p2 -> release p1 = release p2 ->
  pre p1 = pre p2 -> post p1 = post p2 -> dev p1 = dev p2 ->
  specifierLessThanEqual p1 spec = specifierLessThanEqual p2 spec /\
  specifierGreaterThanEqual p1 spec = specifierGreaterThanEqual p2 spec /\
  specifierCompatible p1 spec = specifierCompatible p2 spec /\
  (HasSuffix spec ".*" = true \/
   (forall s, Parse spec = Some s -> Local s = "") ->
   specifierEqual p1 spec = specifierEqual p2 spec /\
   specifierNotEqual p1 spec = specifierNotEqual p2 spec).
Proof.
  intros P1 P2 Ee Er Ep Eq Ed.
  pose proof (Parse_wf _ P1) as H1. pose proof (Parse_wf _ P2) as H2.
  assert (E : Public p1 = Public p2).
  { rewrite (Public_original H1), (Public_original H2).
    unfold public_of. rewrite Ee, Er, Ep, Eq, Ed. reflexivity. }
  assert (Ewild : forall prefix, HasSuffix prefix ".*" = true ->
                    specifierEqual p1 prefix = specifierEqual p2 prefix).
  { intros prefix Hw. unfold specifierEqual. rewrite Hw, E. reflexivity. }
  assert (Ege : specifierGreaterThanEqual p1 spec
                = specifierGreaterThanEqual p2 spec).
  { unfold specifierGreaterThanEqual. rewrite E. reflexivity. }
  split; [unfold specifierLessThanEqual; rewrite E; reflexivity|].
  split; [exact Ege|].
  split.
  { unfold specifierCompatible.
    destruct (prefixElements_loop [] (versionSplit spec)) as [|t ts];
      [reflexivity|].
    destruct (slice_to _ _) as [init|]; [|reflexivity]. cbn [obind].
    rewrite Ege. rewrite (Ewild _ (HasSuffix_wildcard _)). reflexivity. }
  intros Hspec.
  assert (Eeq : specifierEqual p1 spec = specifierEqual p2 spec).
  { destruct Hspec as [Hw|Hl]; [apply Ewild, Hw|].
    unfold specifierEqual. destruct (HasSuffix spec ".*"); [rewrite E; reflexivity|].
    unfold MustParse at 1 3. destruct (Parse spec) as [s|] eqn:Ps; [|reflexivity].
    cbn [obind]. specialize (Hl s eq_refl). unfold Local in Hl. rewrite Hl.
    cbn [String.eqb]. rewrite E. reflexivity. }
  split; [exact Eeq|]. unfold specifierNotEqual. rewrite Eeq. reflexivity.
Qed.

Lemma local_segment_ignored_witness :
  exists p1 p2,
    Parse "1.4.2+ubuntu.3" = Some p1 /\ Parse "1.4.2" = Some p2 /\
    specifierCompatible p1 "1.4" = specifierCompatible p2 "1.4".
Proof.
  assert (P1 : Parse "1.4.2+ubuntu.3" = Some _) by (vm_compute; reflexivity).
  assert (P2 : Parse "1.4.2" = Some _) by (vm_compute; reflexivity).
  eexists _, _. split; [exact P1|]. split; [exact P2|].
  refine (proj1 (proj2 (proj2 (@local_segment_ignored _ _ "1.4" _ _ P1 P2
                                 _ _ _ _ _)))); reflexivity.
Defined.

(** An [==] clause whose version has a local segment compares with the
    whole candidate, so it never holds for a candidate without local
    segment, and [!=] always holds for it. *)
Theorem equal_clause_with_local (sp spec : string) (p s : Version) :
  Parse sp = Some p -> Parse spec = Some s ->
  HasSuffix spec ".*" = false -> Local s <> "" ->
  specifierEqual p spec = Equal s p /\
  (Local p = "" ->
   specifierEqual p spec = Val false /\ specifierNotEqual p spec = Val true).
Proof.
  intros Pp Ps Hw Hl.
  pose proof (Parse_wf _ Pp) as Hp. pose proof (Parse_wf _ Ps) as Hs.
  assert (E : specifierEqual p spec = Equal s p).
  { unfold specifierEqual. rewrite Hw. unfold MustParse. rewrite Ps.
    cbn [obind]. unfold Local in Hl.
    destruct (String.eqb_spec (local s) ""); [contradiction|]. reflexivity. }
  split; [exact E|]. intros Hlp.
  assert (E' : specifierEqual p spec = Val false).
  { rewrite E. destruct (comparisons_wf Hs Hp) as (_ & -> & _). f_equal.
    apply Z.eqb_neq. intros K.
    rewrite key_compare_lexicographic in K. apply lexicographic_zero in K.
    repeat match goal with
           | H : Forall _ (_ :: _) |- _ => inversion H; subst; clear H
           end.
    match goal with
    | H : part.Compare (key_local (vkey s)) (key_local (vkey p)) = 0%Z |- _ =>
        rewrite (wf_key Hs), (wf_key Hp) in H; unfold cmpkey in H;
          cbn [key_local] in H; unfold Local in Hl, Hlp; rewrite Hlp in H;
          cbn [String.eqb] in H;
          destruct (String.eqb_spec (local s) ""); [contradiction|];
          discriminate H
    end. }
  split; [exact E'|]. unfold specifierNotEqual. rewrite E'. reflexivity.
Qed.

Lemma equal_clause_with_local_witness :
  exists p s,
    Parse "1.0" = Some p /\ Parse "1.0+abc" = Some s /\
    specifierEqual p "1.0+abc" = Val false.
Proof.
  assert (Pp : Parse "1.0" = Some _) by (vm_compute; reflexivity).
  assert (Ps : Parse "1.0+abc" = Some _) by (vm_compute; reflexivity).
  eexists _, _. split; [exact Pp|]. split; [exact Ps|].
  refine (proj1 (proj2 (@equal_clause_with_local _ _ _ _ Pp Ps _ _) _)).
  - reflexivity.
  - discriminate.
  - reflexivity.
Defined.

End ClausesAndLocalSegments.

Section TokensAndStarts.

Lemma Atoi_digits a s :
  is_digit a = true ->
  Atoi (String a s)
  = match parse_decimal (String a s) with
    | Some n =>
        if ((- 2 ^ 63 <=? Z.of_N n) && (Z.of_N n <? 2 ^ 63))%Z
        then Some (Z.of_N n) else None
    | None => None
    end.
Proof.
  destruct a as [[] [] [] [] [] [] [] []]; intros H;
    try discriminate H; reflexivity.
Qed.

Lemma Atoi_decimal (n : N) :
  Atoi (decimal n) = if (n <? 2 ^ 63)%N then Some (Z.of_N n) else None.
Proof.
  pose proof (decimal_digits n) as Hd. pose proof (parse_decimal_decimal n) as Hp.
  destruct (decimal n) as [|a s] eqn:E; [destruct (@decimal_nonempty n E)|].
  cbn [list_ascii_of_string] in Hd. inversion Hd as [|? ? Ha _]; subst.
  rewrite (@Atoi_digits a s Ha), Hp.
  destruct (N.ltb_spec n (2 ^ 63)) as [Hlt|Hge].
  - replace ((- 2 ^ 63 <=? Z.of_N n) && (Z.of_N n <? 2 ^ 63))%Z with true;
      [reflexivity|].
    symmetry. apply andb_true_iff. split; [apply Z.leb_le|apply Z.ltb_lt]; lia.
  - replace (Z.of_N n <? 2 ^ 63)%Z with false;
      [rewrite andb_false_r; reflexivity|].
    symmetry. apply Z.ltb_ge. lia.
Qed.

Lemma isDigist_small (n : N) : (n < 2 ^ 63)%N -> isDigist (decimal n) = true.
Proof.
  intros H. unfold isDigist. rewrite Atoi_decimal.
  apply N.ltb_lt in H. rewrite H. reflexivity.
Qed.

(** [isDigist] goes by [strconv.Atoi], so a number counts as numeric
    only if it fits in an [int]: the decimal text of [n] is numeric
    exactly when [n] is below 2^63, and a sign before it is accepted as
    long as the value fits. *)
Theorem isDigist_decimal (n : N) :
  (isDigist (decimal n) = true <-> (n < 2 ^ 63)%N) /\
  (isDigist ("+" ++ decimal n) = true <-> (n < 2 ^ 63)%N) /\
  (isDigist ("-" ++ decimal n) = true <-> (n <= 2 ^ 63)%N).
Proof.
  pose proof (parse_decimal_decimal n) as Hp.
  split; [|split].
  - unfold isDigist. rewrite Atoi_decimal.
    destruct (N.ltb_spec n (2 ^ 63)); split; intros; try discriminate; try lia;
      reflexivity.
  - unfold isDigist, Atoi. cbn [append]. rewrite Hp.
    destruct ((- 2 ^ 63 <=? Z.of_N n) && (Z.of_N n <? 2 ^ 63))%Z eqn:E.
    + apply andb_true_iff in E. destruct E as [_ E]. apply Z.ltb_lt in E.
      split; intros; [lia|reflexivity].
    + apply andb_false_iff in E.
      destruct E as [E|E]; [apply Z.leb_gt in E|apply Z.ltb_ge in E];
        split; intros; try discriminate; lia.
  - unfold isDigist, Atoi. cbn [append]. rewrite Hp.
    destruct ((- 2 ^ 63 <=? - Z.of_N n) && (- Z.of_N n <? 2 ^ 63))%Z eqn:E.
    + apply andb_true_iff in E. destruct E as [E _]. apply Z.leb_le in E.
      split; intros; [lia|reflexivity].
    + apply andb_false_iff in E.
      destruct E as [E|E]; [apply Z.leb_gt in E|apply Z.ltb_ge in E];
        split; intros; try discriminate; lia.
Qed.

(** A text that does not start with white space, [v], [V] or a digit is
    no version, and neither is the empty text: [Parse] returns the
    error and [MustParse] panics. *)
Theorem Parse_rejects_bad_start (a : ascii) (s : string) :
  version_start a = false ->
  Parse (String a s) = None /\ MustParse (String a s) = Panic /\
  Parse "" = None /\ MustParse "" = Panic.
Proof.
  intros H.
  assert (E : rmatch (Group 0 versionRegex) (a :: list_ascii_of_string s)
                     no_caps at_end = None).
  { destruct a as [[] [] [] [] [] [] [] []];
      try discriminate H; reflexivity. }
  assert (P : Parse (String a s) = None).
  { unfold Parse, FindStringSubmatch. cbn [list_ascii_of_string].
    rewrite E. reflexivity. }
  split; [exact P|]. split; [unfold MustParse; rewrite P; reflexivity|].
  split; reflexivity.
Qed.

Lemma Parse_rejects_bad_start_witness :
  Parse "release-1.0" = None /\ Parse "=1.0" = None /\ Parse ".5" = None.
Proof.
  split; [|split].
  - exact (proj1 (@Parse_rejects_bad_start "r" "elease-1.0" eq_refl)).
  - exact (proj1 (@Parse_rejects_bad_start "=" "1.0" eq_refl)).
  - exact (proj1 (@Parse_rejects_bad_start "." "5" eq_refl)).
Defined.

End TokensAndStarts.

Section WildcardOnReleases.

Lemma TrimSuffix_wildcard s : TrimSuffix (s ++ ".*") ".*" = s.
Proof.
  unfold TrimSuffix. rewrite HasSuffix_wildcard. cbn [String.length].
  induction s as [|a s IH]; [reflexivity|].
  cbn [append String.length].
  assert (H : (2 <= String.length (s ++ ".*"))%nat).
  { clear IH. induction s; cbn [append String.length]; [cbn; lia | lia]. }
  replace (S (String.length (s ++ ".*")) - 2)%nat
    with (S (String.length (s ++ ".*") - 2)) by lia.
  cbn [substring]. rewrite IH. reflexivity.
Qed.

(** A decimal numeral is one token. *)
Lemma prefixRegexp_decimal n :
  FindStringSubmatch prefixRegexp prefixRegexp_NumSubexp (decimal n) = None.
Proof.
  destruct (FindStringSubmatch _ _ (decimal n)) as [m|] eqn:E; [|reflexivity].
  exfalso. unfold FindStringSubmatch in E.
  destruct (rmatch _ _ _ _) as [c|] eqn:R; [|discriminate].
  apply rmatch_sound in R. destruct R as (w & s' & c' & Hs & Hsem & Hend).
  destruct s' as [|? ?]; [|discriminate].
  rewrite app_nil_r in Hs. subst w.
  inversion Hsem; subst; clear Hsem.
  match goal with H0 : Sem prefixRegexp _ _ _ |- _ =>
    unfold prefixRegexp in H0; inversion H0; subst; clear H0 end.
  match goal with H0 : Sem (Group 2 _) _ _ _ |- _ =>
    inversion H0; subst; clear H0 end.
  match goal with H0 : Sem (Seq (Alt _ _) _) _ _ _ |- _ =>
    inversion H0; subst; clear H0 end.
  pose proof (decimal_digits n) as Hd.
  match goal with H : _ = list_ascii_of_string (decimal n) |- _ =>
    rewrite <- H in Hd end.
  apply Forall_app in Hd. destruct Hd as [_ Hd].
  apply Forall_app in Hd. destruct Hd as [Hd _].
  match goal with H0 : Sem (Alt _ _) _ _ _ |- _ =>
    unfold lit in H0; cbn [list_ascii_of_string bytes] in H0;
      unfold chr in H0; inv_sem
  end;
    repeat match goal with
           | E : Ascii.eqb _ _ = true |- _ => apply Ascii.eqb_eq in E; subst
           end;
    inversion Hd as [|? ? Ha _]; discriminate Ha.
Qed.

Lemma versionSplit_release r0 rs :
  versionSplit (render_release r0 rs) = map decimal (r0 :: rs).
Proof.
  unfold versionSplit. rewrite Split_render_release.
  generalize (r0 :: rs). intros l.
  induction l as [|n l IH]; [reflexivity|].
  cbn [map versionSplit_loop]. rewrite prefixRegexp_decimal.
  rewrite versionSplit_loop_app, IH. reflexivity.
Qed.

Lemma filter_isDigist l :
  Forall small l -> filter isDigist (map decimal l) = map decimal l.
Proof.
  intros H. induction H as [|n l Hn _ IH]; [reflexivity|].
  cbn [map filter]. rewrite (isDigist_small Hn), IH. reflexivity.
Qed.

Lemma decimal_inj a b : decimal a = decimal b -> a = b.
Proof.
  intros H. pose proof (parse_decimal_decimal a) as Ha.
  rewrite H, parse_decimal_decimal in Ha. congruence.
Qed.

Lemma map_decimal_inj l : forall l', map decimal l = map decimal l' -> l = l'.
Proof.
  induction l as [|a l IH]; intros [|b l'] H; try discriminate; [reflexivity|].
  cbn [map] in H. injection H as H1 H2.
  apply decimal_inj in H1. subst. f_equal. auto.
Qed.

Lemma pad_loop_length fuel : forall i other rel,
  (0 <= i)%Z ->
  (List.length rel <= List.length (pad_loop fuel i other rel))%nat /\
  (List.length (pad_loop fuel i other rel) <= Nat.max other (List.length rel))%nat.
Proof.
  induction fuel as [|fuel IH]; intros i other rel Hi; cbn [pad_loop]; [lia|].
  destruct (Z.ltb_spec i (Z.of_nat other - Z.of_nat (List.length rel))); [|lia].
  destruct (IH (i + 1)%Z other (rel ++ ["0"])) as [H1 H2]; [lia|].
  rewrite length_app in H1, H2. cbn [List.length] in H1, H2. lia.
Qed.

Lemma pad_loop_none fuel other rel :
  (other <= List.length rel)%nat -> pad_loop fuel 0 other rel = rel.
Proof.
  intros H. destruct fuel; cbn [pad_loop]; [reflexivity|].
  destruct (Z.ltb_spec 0 (Z.of_nat other - Z.of_nat (List.length rel)));
    [lia|reflexivity].
Qed.

Lemma pad_loop_some fuel other rel :
  (List.length rel < other)%nat -> (0 < fuel)%nat ->
  (List.length rel < List.length (pad_loop fuel 0 other rel))%nat.
Proof.
  intros H Hf. destruct fuel as [|fuel]; [lia|]. cbn [pad_loop].
  destruct (Z.ltb_spec 0 (Z.of_nat other - Z.of_nat (List.length rel)));
    [|lia].
  destruct (@pad_loop_length fuel (0 + 1)%Z other (rel ++ ["0"])) as [H1 _];
    [lia|].
  rewrite length_app in H1. cbn [List.length] in H1. lia.
Qed.

(** [padVersion] on two sequences of numeric tokens, the right one no
    longer than the left one. *)
Lemma padVersion_numeric q r :
  Forall small q -> Forall small r ->
  (List.length r <= List.length q)%nat ->
  exists padded,
    padVersion (map decimal q) (map decimal r) = Val padded /\
    DeepEqual (fst padded) (snd padded)
    = if list_eq_dec N.eq_dec r q then true else false.
Proof.
  intros Hq Hr Hlen. unfold padVersion.
  rewrite !filter_isDigist by assumption.
  unfold slice_from. rewrite !length_map.
  rewrite Nat.leb_refl. cbn [obind].
  replace (List.length r <=? List.length q)%nat with true
    by (symmetry; apply Nat.leb_le; exact Hlen).
  cbn [obind]. eexists. split; [reflexivity|]. cbn [fst snd].
  rewrite (@skipn_all2 _ (List.length q) (map decimal q))
    by (rewrite length_map; lia).
  rewrite app_nil_r.
  destruct (Nat.eq_dec (List.length r) (List.length q)) as [E|E].
  - rewrite !(@pad_loop_none (List.length q) (List.length q) (map decimal r))
      by (rewrite length_map; lia).
    rewrite pad_loop_none by (rewrite !length_map; lia).
    rewrite (@skipn_all2 _ (List.length r) (map decimal q))
      by (rewrite length_map; lia).
    rewrite app_nil_r.
    unfold DeepEqual.
    destruct (list_eq_dec string_dec (map decimal q) (map decimal r)) as [D|D];
      destruct (list_eq_dec N.eq_dec r q) as [D'|D']; try reflexivity.
    + apply map_decimal_inj in D. congruence.
    + subst. congruence.
  - assert (Hlt : (List.length r < List.length q)%nat) by lia.
    destruct (list_eq_dec N.eq_dec r q) as [D'|_]; [subst; lia|].
    set (R := pad_loop (List.length q) 0 (List.length q) (map decimal r)).
    assert (HR1 : (List.length r < List.length R)%nat).
    { unfold R. rewrite <- (length_map decimal r) at 1.
      apply pad_loop_some; [rewrite length_map; lia | lia]. }
    assert (HR2 : (List.length R <= List.length q)%nat).
    { unfold R.
      destruct (@pad_loop_length (List.length q) 0 (List.length q)
                  (map decimal r)) as [_ H2]; [lia|].
      rewrite length_map in H2. lia. }
    rewrite pad_loop_none by (rewrite length_map; exact HR2).
    unfold DeepEqual.
    destruct (list_eq_dec string_dec _ _) as [D|_]; [|reflexivity].
    exfalso. apply (f_equal (@List.length string)) in D.
    rewrite length_app, length_skipn, !length_map in D. lia.
Qed.

Lemma render_final r0 rs p q d :
  letterNumber_isNull p = true -> letterNumber_isNull q = true ->
  letterNumber_isNull d = true ->
  render 0%N r0 rs p q d "" = render_release r0 rs.
Proof.
  intros Hp Hq Hd. unfold render, render_pre, render_post, render_dev.
  rewrite Hp, Hq, Hd. change (render_epoch 0%N) with "".
  change (render_local "") with "". cbn [negb append].
  apply string_app_nil_r.
Qed.

Lemma Forall_firstn {A : Type} (P : A -> Prop) n (l : list A) :
  Forall P l -> Forall P (firstn n l).
Proof.
  intros H. revert n. induction H as [|x l Hx _ IH]; intros [|n];
    cbn [firstn]; constructor; auto.
Qed.

Lemma specifierEqual_wildcard_release v q0 qs :
  wfVersion v ->
  epoch v = 0%N -> IsPreRelease v = false -> IsPostRelease v = false ->
  Forall small (release v) -> Forall small (q0 :: qs) ->
  specifierEqual v (render_release q0 qs ++ ".*")
  = Val (release_prefix (q0 :: qs) (release v)).
Proof.
  intros Hv He Hpre Hpost Hr Hq.
  unfold IsPreRelease in Hpre. rewrite (wf_included Hv) in Hpre.
  apply orb_false_iff in Hpre. destruct Hpre as [Hp Hd].
  apply negb_false_iff in Hp, Hd.
  unfold IsPostRelease in Hpost. apply negb_false_iff in Hpost.
  destruct (wf_release_cons Hv) as (r0 & rs & Er).
  assert (Epub : Public v = Val (render_release r0 rs)).
  { rewrite (Public_original Hv). unfold public_of, mkParsed.
    cbn [original]. rewrite Er, He. rewrite render_final by assumption.
    reflexivity. }
  unfold specifierEqual.
  rewrite HasSuffix_wildcard, TrimSuffix_wildcard, Epub. cbn [obind].
  destruct (Public_wf Hv) as (pub & E1 & E2).
  assert (pub = render_release r0 rs) by congruence. subst pub.
  rewrite E2. cbn [obind].
  rewrite (Version_String_public Hv Epub). cbn [obind].
  rewrite !versionSplit_release, !length_map.
  unfold release_prefix. rewrite Er in Hr |- *.
  unfold part.BigInt in *.
  destruct (Nat.ltb_spec (List.length (q0 :: qs)) (List.length (r0 :: rs)))
    as [Hlt|Hge].
  - unfold slice_to. rewrite length_map.
    replace (_ <=? _)%nat with true by (symmetry; apply Nat.leb_le; lia).
    cbn [obind]. rewrite firstn_map.
    destruct (@padVersion_numeric (q0 :: qs)
                (firstn (List.length (q0 :: qs)) (r0 :: rs)))
      as (padded & -> & D);
      [assumption | apply Forall_firstn; assumption
       | rewrite length_firstn; lia |].
    cbn [obind]. rewrite D. reflexivity.
  - cbn [obind].
    destruct (@padVersion_numeric (q0 :: qs) (r0 :: rs))
      as (padded & -> & D); [assumption | assumption | lia |].
    cbn [obind]. rewrite D. rewrite firstn_all2 by lia. reflexivity.
Qed.

Lemma Parse_render_release q0 qs :
  Parse (render_release q0 qs)
  = Some (mkParsed 0%N (q0 :: qs) null_ln null_ln null_ln ""
                   (render_release q0 qs)).
Proof.
  rewrite <- (@render_final q0 qs null_ln null_ln null_ln) by reflexivity.
  rewrite Parse_render; [reflexivity|].
  destruct null_ln_ok as (? & ? & ?).
  constructor; auto; [discriminate | left; reflexivity].
Qed.

(** On a candidate that is a final release of epoch zero, a wild card
    clause made of release numbers alone holds exactly when these
    numbers are the beginning of the candidate's release; a candidate
    with fewer numbers than the clause never matches.  The clause is
    one that [validate] accepts, and all numbers fit in an [int]. *)
Theorem wildcard_on_final_releases
        (sv : string) (v : Version) (q0 : part.BigInt) (qs : list part.BigInt) :
  Parse sv = Some v ->
  epoch v = 0%N -> IsPreRelease v = false -> IsPostRelease v = false ->
  Forall small (release v) -> Forall small (q0 :: qs) ->
  validate "==" (render_release q0 qs ++ ".*") = None /\
  specifierEqual v (render_release q0 qs ++ ".*")
  = Val (release_prefix (q0 :: qs) (release v)) /\
  specifierNotEqual v (render_release q0 qs ++ ".*")
  = Val (negb (release_prefix (q0 :: qs) (release v))).
Proof.
  intros P He Hpre Hpost Hr Hq. pose proof (Parse_wf _ P) as Hv.
  split.
  { unfold validate. cbv zeta. rewrite HasSuffix_wildcard, TrimSuffix_wildcard.
    rewrite Parse_render_release. reflexivity. }
  pose proof (specifierEqual_wildcard_release Hv He Hpre Hpost Hr Hq) as E.
  split; [exact E|]. unfold specifierNotEqual. rewrite E. reflexivity.
Qed.

Lemma wildcard_on_final_releases_witness :
  exists v w,
    Parse "1.5.2+local" = Some v /\ Parse "1" = Some w /\
    specifierEqual v "1.5.*" = Val true /\
    specifierEqual w "1.0.*" = Val false.
Proof.
  assert (Pv : Parse "1.5.2+local" = Some _) by (vm_compute; reflexivity).
  assert (Pw : Parse "1" = Some _) by (vm_compute; reflexivity).
  eexists _, _. split; [exact Pv|]. split; [exact Pw|].
  split.
  - refine (proj1 (proj2 (@wildcard_on_final_releases
                            _ _ 1%N [5%N] Pv _ _ _ _ _)));
      try reflexivity; repeat constructor.
  - refine (proj1 (proj2 (@wildcard_on_final_releases
                            _ _ 1%N [0%N] Pw _ _ _ _ _)));
      try reflexivity; repeat constructor.
Defined.

Lemma substring_incl s : forall n m a,
  In a (list_ascii_of_string (substring n m s)) ->
  In a (list_ascii_of_string s).
Proof.
  induction s as [|c s IH]; intros n m a H.
  - destruct n, m; cbn in H; contradiction.
  - destruct n as [|n]; [destruct m as [|m]|]; cbn [substring] in H.
    + cbn in H. contradiction.
    + cbn [list_ascii_of_string In] in *.
      destruct H as [H|H]; [left; exact H|right; eapply IH; exact H].
    + cbn [list_ascii_of_string In]. right. eapply IH. exact H.
Qed.

Lemma removelast_map {A B : Type} (f : A -> B) (l : list A) :
  removelast (map f l) = map f (removelast l).
Proof.
  induction l as [|a l IH]; [reflexivity|].
  destruct l as [|b l]; [reflexivity|].
  cbn [map removelast] in *. rewrite IH. reflexivity.
Qed.

Lemma Join_decimal q0 qs :
  Join (map decimal (q0 :: qs)) "." = render_release q0 qs.
Proof.
  unfold Join, render_release. revert q0.
  induction qs as [|q qs IH]; intros q0.
  - cbn. rewrite string_app_nil_r. reflexivity.
  - change (String.concat "." (map decimal (q0 :: q :: qs)))
      with (decimal q0 ++ "." ++ String.concat "." (map decimal (q :: qs)))%string.
    rewrite IH. cbn [map]. rewrite concat_empty_cons. reflexivity.
Qed.

Lemma decimal_not_post_dev n :
  HasPrefix (decimal n) "post" || HasPrefix (decimal n) "dev" = false.
Proof.
  apply head_not_pd_prefix.
  pose proof (decimal_digits n) as Hd.
  destruct (decimal n) as [|a s]; [reflexivity|].
  cbn [list_ascii_of_string] in Hd. inversion Hd as [|? ? Ha _]; subst.
  cbn [head_not_pd]. revert Ha.
  destruct a as [[] [] [] [] [] [] [] []]; vm_compute; congruence.
Qed.

Lemma prefixElements_release l :
  prefixElements_loop [] (map decimal l) = map decimal l.
Proof.
  rewrite prefixElements_loop_take_while. cbn [app].
  induction l as [|n l IH]; [reflexivity|].
  cbn [map take_while]. rewrite decimal_not_post_dev. cbn [negb].
  rewrite IH. reflexivity.
Qed.

(** On a candidate that is a final release of epoch zero, a compatible
    release clause of release numbers (at least two, which [validate]
    requires) holds exactly when the candidate is not less than that
    version and its release begins with all but the last of the
    numbers. *)
Theorem compatible_on_final_releases
        (sv : string) (v : Version)
        (q0 : part.BigInt) (qs : list part.BigInt) (ql : part.BigInt) :
  Parse sv = Some v ->
  epoch v = 0%N -> IsPreRelease v = false -> IsPostRelease v = false ->
  Forall small (release v) -> Forall small (q0 :: qs ++ [ql]) ->
  exists s ge,
    validate "~=" (render_release q0 (qs ++ [ql])) = None /\
    Parse (render_release q0 (qs ++ [ql])) = Some s /\
    release s = q0 :: qs ++ [ql] /\
    GreaterThanOrEqual v s = Val ge /\
    specifierCompatible v (render_release q0 (qs ++ [ql]))
    = Val (ge && release_prefix (q0 :: qs) (release v)).
Proof.
  intros P He Hpre Hpost Hr Hq. pose proof (Parse_wf _ P) as Hv.
  set (spec := render_release q0 (qs ++ [ql])).
  pose proof (Parse_render_release q0 (qs ++ [ql])) as Ps. fold spec in Ps.
  pose proof (Parse_wf _ Ps) as Hs.
  destruct (comparisons_wf Hv Hs) as (_ & _ & _ & _ & Hge).
  eexists _, _. split; [|split; [exact Ps|split; [reflexivity|split; [exact Hge|]]]].
  { unfold validate. cbv zeta.
    assert (Hw : HasSuffix spec ".*" = false).
    { destruct (HasSuffix spec ".*") eqn:Hw; [|reflexivity].
      exfalso. unfold HasSuffix in Hw. apply andb_true_iff in Hw.
      destruct Hw as [_ Hw]. apply String.eqb_eq in Hw.
      pose proof (f_equal list_ascii_of_string Hw) as Hl.
      assert (Hd : Forall (fun a => is_digit a = true \/ a = "."%char)
                          (list_ascii_of_string spec)).
      { unfold spec, render_release. rewrite list_of_app.
        apply Forall_app. split.
        - eapply Forall_impl; [|apply decimal_digits]. cbv beta. auto.
        - generalize (qs ++ [ql]). intros l.
          induction l as [|n l IH]; [constructor|].
          cbn [map]. rewrite concat_empty_cons, list_of_app.
          apply Forall_app. split; [|exact IH].
          cbn [append list_ascii_of_string]. constructor; [auto|].
          eapply Forall_impl; [|apply decimal_digits]. cbv beta. auto. }
      assert (Hstar : In "*"%char (list_ascii_of_string spec)).
      { eapply substring_incl. rewrite Hw. cbn. auto. }
      rewrite Forall_forall in Hd. destruct (Hd _ Hstar) as [D|D]; discriminate. }
    rewrite Hw, Ps.
    change (String.eqb "~=" "==" || String.eqb "~=" "!=") with false.
    change (String.eqb "~=" "~=") with true. cbv iota.
    unfold mkParsed. cbn [release local String.eqb negb].
    cbn [List.length]. rewrite length_app. cbn [List.length].
    replace (_ <? 2)%nat with false by (symmetry; apply Nat.ltb_ge; lia).
    reflexivity. }
  unfold specifierCompatible. unfold spec in *. unfold part.BigInt in *.
  rewrite versionSplit_release, prefixElements_release.
  cbn [map]. unfold slice_to.
  replace (_ <=? _)%nat with true by (symmetry; apply Nat.leb_le; lia).
  cbn [obind]. rewrite firstn_removelast.
  change (decimal q0 :: map decimal (qs ++ [ql]))
    with (map decimal (q0 :: qs ++ [ql])).
  rewrite removelast_map.
  replace (removelast (q0 :: qs ++ [ql])) with (q0 :: qs)
    by (change (q0 :: qs ++ [ql]) with ((q0 :: qs) ++ [ql]);
        rewrite removelast_last; reflexivity).
  rewrite Join_decimal.
  assert (Hq' : Forall small (q0 :: qs)).
  { change (q0 :: qs ++ [ql]) with ((q0 :: qs) ++ [ql]) in Hq.
    apply Forall_app in Hq. apply Hq. }
  rewrite (specifierEqual_wildcard_release Hv He Hpre Hpost Hr Hq').
  unfold specifierGreaterThanEqual.
  destruct (Public_wf Hv) as (pub & -> & E2). cbn [obind].
  rewrite E2. cbn [obind]. unfold MustParse. rewrite Ps.
  cbn [obind].
  pose proof (wf_public_of Hv) as Hpub.
  destruct (comparisons_wf Hpub Hs) as (_ & _ & _ & _ & ->). cbn [obind].
  assert (Hl : local (mkParsed 0%N (q0 :: qs ++ [ql]) null_ln null_ln null_ln ""
                               (render_release q0 (qs ++ [ql]))) = "")
    by reflexivity.
  destruct (keys_against_public_spec Hv Hs Hl) as (c2 & c5 & K1 & K2 & _).
  rewrite K1, K2.
  destruct (c5 =? 0)%Z eqn:E0.
  - apply Z.eqb_eq in E0. rewrite E0.
    destruct (String.eqb (local v) ""); reflexivity.
  - destruct (c5 >=? 0)%Z; reflexivity.
Qed.

Lemma compatible_on_final_releases_witness :
  exists v w,
    Parse "1.4.7" = Some v /\ Parse "1.5.0" = Some w /\
    specifierCompatible v "1.4.5" = Val true /\
    specifierCompatible w "1.4.5" = Val false.
Proof.
  assert (Pv : Parse "1.4.7" = Some _) by (vm_compute; reflexivity).
  assert (Pw : Parse "1.5.0" = Some _) by (vm_compute; reflexivity).
  assert (HQ : Forall small [1; 4; 5]%N) by (repeat constructor).
  assert (HV : Forall small [1; 4; 7]%N) by (repeat constructor).
  assert (HW : Forall small [1; 5; 0]%N) by (repeat constructor).
  destruct (@compatible_on_final_releases _ _ 1%N [4%N] 5%N Pv
              eq_refl eq_refl eq_refl HV HQ)
    as (s & ge & _ & Ps & _ & Hge & Ev).
  destruct (@compatible_on_final_releases _ _ 1%N [4%N] 5%N Pw
              eq_refl eq_refl eq_refl HW HQ)
    as (s' & ge' & _ & Ps' & _ & Hge' & Ew).
  change (render_release 1%N ([4%N] ++ [5%N])) with "1.4.5" in *.
  eexists _, _. split; [exact Pv|]. split; [exact Pw|].
  rewrite Ev, Ew.
  vm_compute in Ps. injection Ps as Es. subst s.
  vm_compute in Ps'. injection Ps' as Es'. subst s'.
  vm_compute in Hge. injection Hge as Eg. subst ge.
  vm_compute in Hge'. injection Hge' as Eg'. subst ge'.
  split; reflexivity.
Defined.

End WildcardOnReleases.

Section MoreOfVersionsAndClauses.

(** The canonical string determines the version: two parsed versions
    with the same [String()] have the same fields and the same key
    (they may differ in the text they were parsed from). *)
Theorem String_determines_fields (sa sb : string) (a b : Version) :
  Parse sa = Some a -> Parse sb = Some b ->
  Version_String a = Version_String b ->
  epoch a = epoch b /\ release a = release b /\
  pre a = pre b /\ post a = post b /\ dev a = dev b /\
  local a = local b /\ vkey a = vkey b /\
  Public a = Public b /\ BaseVersion a = BaseVersion b.
Proof.
  intros Pa Pb E.
  pose proof (Parse_wf _ Pa) as Ha. pose proof (Parse_wf _ Pb) as Hb.
  destruct (Parse_String Ha) as (s1 & E1 & P1).
  destruct (Parse_String Hb) as (s2 & E2 & P2).
  assert (s1 = s2) by congruence. subst s2.
  rewrite P1 in P2. injection P2 as Ee Er Ep Eq Ed El.
  repeat (split; [assumption|]).
  split; [rewrite (wf_key Ha), (wf_key Hb), Ee, Er, Ep, Eq, Ed, El; reflexivity|].
  split.
  - unfold Public. rewrite E. reflexivity.
  - unfold BaseVersion, render_base. rewrite Ee, Er. reflexivity.
Qed.

Lemma String_determines_fields_witness :
  exists a b,
    Parse "1.0-Alpha.1" = Some a /\ Parse " v1.0a1" = Some b /\
    pre a = pre b /\ vkey a = vkey b.
Proof.
  assert (Pa : Parse "1.0-Alpha.1" = Some _) by (vm_compute; reflexivity).
  assert (Pb : Parse " v1.0a1" = Some _) by (vm_compute; reflexivity).
  eexists _, _. split; [exact Pa|]. split; [exact Pb|].
  destruct (@String_determines_fields _ _ _ _ Pa Pb)
    as (_ & _ & Hp & _ & _ & _ & Hk & _); [vm_compute; reflexivity|].
  split; [exact Hp | exact Hk].
Defined.

Lemma no_operator_no_match clause :
  Forall (fun a => operator_byte a = false) (list_ascii_of_string clause) ->
  FindStringSubmatch specifierRegexp specifierRegexp_NumSubexp clause = None.
Proof.
  intros H.
  destruct (FindStringSubmatch _ _ clause) as [m|] eqn:E; [|reflexivity].
  exfalso. apply FindStringSubmatch_specifierRegexp_shape in E.
  destruct E as (sp1 & op & sp2 & ver & sp3 & E & _ & _ & _ & Hop & _).
  rewrite E in H. apply Forall_app in H. destruct H as [_ H].
  apply Forall_app in H. destruct H as [H _].
  unfold operators in Hop. cbn [In] in Hop.
  destruct Hop as [<-|[<-|[<-|[<-|[<-|[<-|[<-|[<-|[]]]]]]]]];
    cbn in H; inversion H as [|? ? Ha _]; discriminate Ha.
Qed.

(** A clause needs an operator: a text that holds none of the bytes
    with which an operator starts (a bare version, white space, the
    empty text of a trailing comma) is no constraint, and an expression
    with such a clause is refused as a whole. *)
Theorem clause_without_operator_refused (expr group clause : string) :
  Forall (fun a => operator_byte a = false) (list_ascii_of_string clause) ->
  newConstraint clause = None /\
  (In group (Split expr "||") -> In clause (Split group ",") ->
   NewConstraints expr = None).
Proof.
  intros H.
  assert (E : newConstraint clause = None).
  { unfold newConstraint. rewrite (no_operator_no_match _ H). reflexivity. }
  split; [exact E|]. intros Hg Hc. unfold NewConstraints.
  rewrite (@newConstraints_groups_fails _ [] group Hg); [reflexivity|].
  eapply newConstraints_group_fails; eauto.
Qed.

Lemma clause_without_operator_refused_witness :
  NewConstraints "" = None /\ NewConstraints "1.0" = None /\
  NewConstraints ">=1.0, " = None.
Proof.
  split; [|split].
  - refine (proj2 (@clause_without_operator_refused "" "" "" _) _ _);
      [constructor | left; reflexivity | left; reflexivity].
  - refine (proj2 (@clause_without_operator_refused "1.0" "1.0" "1.0" _) _ _);
      [repeat constructor | left; reflexivity | left; reflexivity].
  - refine (proj2 (@clause_without_operator_refused ">=1.0, " ">=1.0, " " " _) _ _);
      [repeat constructor | left; reflexivity | right; left; reflexivity].
Defined.

(** The five comparison clauses agree with each other.  For a parsed
    candidate and a specifier version without wild card and without
    local segment: [<=] or [>=] holds; [==] holds exactly when both do;
    [<] implies [<=] and excludes [>=]; [>] implies [>=] and excludes
    [<=]. *)
Theorem ordered_clauses_consistent (sp spec : string) (p s : Version) :
  Parse sp = Some p -> Parse spec = Some s ->
  Local s = "" -> HasSuffix spec ".*" = false ->
  exists lt le eq ge gt,
    specifierLessThan p spec = Val lt /\
    specifierLessThanEqual p spec = Val le /\
    specifierEqual p spec = Val eq /\
    specifierGreaterThanEqual p spec = Val ge /\
    specifierGreaterThan p spec = Val gt /\
    le || ge = true /\ eq = le && ge /\
    (lt = true -> le = true /\ ge = false) /\
    (gt = true -> ge = true /\ le = false).
Proof.
  intros Pp Ps Hl Hw. unfold Local in Hl.
  pose proof (Parse_wf _ Pp) as Hp. pose proof (Parse_wf _ Ps) as Hs.
  pose proof (wf_public_of Hp) as Hpub.
  destruct (Public_wf Hp) as (pub & E1 & E2).
  destruct (keys_against_public_spec Hp Hs Hl) as (c2 & c5 & K1 & K2 & K3 & K4).
  destruct (comparisons_wf Hpub Hs) as (_ & _ & _ & Hle & Hge).
  destruct (comparisons_wf Hs Hpub) as (_ & Heq & _).
  destruct (comparisons_wf Hp Hs) as (Hlt & _ & Hgt & _).
  rewrite (key_compare_opp (wf_is_cmpkey Hpub) (wf_is_cmpkey Hs)) in Heq.
  rewrite K2 in Hle, Hge, Heq. rewrite K1 in Hlt, Hgt.
  pose proof (same_base_wf Hp Hs) as Hsb.
  destruct (comparisons_wf (wf_base_of Hp) (wf_base_of Hs)) as (_ & Hb & _).
  rewrite K3 in Hb. rewrite Hb in Hsb.
  assert (Ele : specifierLessThanEqual p spec = Val (c5 <=? 0)%Z).
  { unfold specifierLessThanEqual. rewrite E1. cbn [obind]. rewrite E2.
    cbn [obind]. unfold MustParse. rewrite Ps. cbn [obind]. exact Hle. }
  assert (Ege : specifierGreaterThanEqual p spec = Val (c5 >=? 0)%Z).
  { unfold specifierGreaterThanEqual. rewrite E1. cbn [obind]. rewrite E2.
    cbn [obind]. unfold MustParse. rewrite Ps. cbn [obind]. exact Hge. }
  assert (Eeq : specifierEqual p spec = Val (- c5 =? 0)%Z).
  { unfold specifierEqual. rewrite Hw. unfold MustParse at 1. rewrite Ps.
    cbn [obind]. rewrite Hl. cbn [String.eqb]. rewrite E1. cbn [obind].
    rewrite E2. cbn [obind]. exact Heq. }
  assert (Elt : exists lt, specifierLessThan p spec = Val lt /\
                           (lt = true -> (c5 < 0)%Z)).
  { unfold specifierLessThan, MustParse. rewrite Ps. cbn [obind].
    rewrite Hlt. cbn [obind].
    destruct (c5 =? 0)%Z eqn:Z5.
    - destruct (String.eqb (local p) ""); cbn [Z.ltb Z.compare negb];
        eexists; (split; [reflexivity|discriminate]).
    - destruct (c5 <? 0)%Z eqn:L5; cbn [negb].
      + apply Z.ltb_lt in L5.
        destruct (negb (IsPreRelease s) && IsPreRelease p);
          [rewrite Hsb; cbn [obind]; destruct (c2 =? 0)%Z|];
          eexists; (split; [reflexivity|auto]).
      + eexists. split; [reflexivity|discriminate]. }
  assert (Egt : exists gt, specifierGreaterThan p spec = Val gt /\
                           (gt = true -> (c5 > 0)%Z)).
  { unfold specifierGreaterThan, MustParse. rewrite Ps. cbn [obind].
    rewrite Hgt. cbn [obind]. rewrite Hsb.
    destruct (c5 =? 0)%Z eqn:Z5.
    - apply Z.eqb_eq in Z5. rewrite (K4 Z5). cbn [Z.eqb].
      destruct (String.eqb (local p) ""); cbn [Z.gtb Z.compare negb obind];
        [eexists; (split; [reflexivity|discriminate])|].
      destruct (negb (IsPostRelease s) && IsPostRelease p); cbn [obind];
        eexists; (split; [reflexivity|discriminate]).
    - destruct (c5 >? 0)%Z eqn:G5; cbn [negb];
        [|eexists; (split; [reflexivity|discriminate])].
      assert (c5 > 0)%Z by (apply Z.gtb_lt in G5; lia).
      destruct (negb (IsPostRelease s) && IsPostRelease p); cbn [obind];
        destruct (c2 =? 0)%Z; cbn [obind];
        destruct (negb (String.eqb (local p) "")); cbn [obind];
        eexists; (split; [reflexivity|auto]). }
  destruct Elt as (lt & Elt & Ilt). destruct Egt as (gt & Egt & Igt).
  exists lt, (c5 <=? 0)%Z, (- c5 =? 0)%Z, (c5 >=? 0)%Z, gt.
  repeat (split; [assumption|]).
  split; [|split; [|split]].
  - destruct (Z.leb_spec c5 0); [reflexivity|]. cbn [orb].
    apply Z.geb_le. lia.
  - destruct (Z.eqb_spec (- c5) 0) as [E|E].
    + assert (E0 : c5 = 0%Z) by lia. rewrite E0. reflexivity.
    + destruct (Z.leb_spec c5 0); [|reflexivity]. cbn [andb].
      symmetry. destruct (c5 >=? 0)%Z eqn:G; [|reflexivity].
      apply Z.geb_le in G. lia.
  - intros H. specialize (Ilt H). split; [apply Z.leb_le; lia|].
    destruct (c5 >=? 0)%Z eqn:G; [|reflexivity]. apply Z.geb_le in G. lia.
  - intros H. specialize (Igt H). split; [apply Z.geb_le; lia|].
    apply Z.leb_gt. lia.
Qed.

Lemma ordered_clauses_consistent_witness :
  exists p s,
    Parse "1.0.post1" = Some p /\ Parse "1.0" = Some s /\
    specifierGreaterThan p "1.0" = Val false /\
    specifierLessThanEqual p "1.0" = Val false /\
    specifierGreaterThanEqual p "1.0" = Val true.
Proof.
  assert (Pp : Parse "1.0.post1" = Some _) by (vm_compute; reflexivity).
  assert (Ps : Parse "1.0" = Some _) by (vm_compute; reflexivity).
  destruct (@ordered_clauses_consistent _ _ _ _ Pp Ps eq_refl eq_refl)
    as (lt & le & eq & ge & gt & _ & Ele & _ & Ege & Egt & _).
  eexists _, _. split; [exact Pp|]. split; [exact Ps|].
  rewrite Ele, Ege, Egt.
  vm_compute in Ele. injection Ele as <-.
  vm_compute in Ege. injection Ege as <-.
  vm_compute in Egt. injection Egt as <-.
  repeat split.
Defined.

End MoreOfVersionsAndClauses.

Section LeadingText.

Lemma star_loop_related R (body : list ascii -> caps -> cont -> option caps) :
  (forall s c k k',
      (forall s' c', related R (k s' c') (k' s' c')) ->
      related R (body s c k) (body s c k')) ->
  forall fuel s c k k',
    (forall s' c', related R (k s' c') (k' s' c')) ->
    related R (star_loop body fuel s c k) (star_loop body fuel s c k').
Proof.
  intros Hb. induction fuel as [|n IH]; intros s c k k' Hk; cbn [star_loop].
  - apply Hk.
  - pose proof (Hb s c
      (fun s' c' => if (List.length s' <? List.length s)%nat
                    then star_loop body n s' c' k else None)
      (fun s' c' => if (List.length s' <? List.length s)%nat
                    then star_loop body n s' c' k' else None)) as H.
    cbv beta in H.
    assert (Hin : forall s' c',
               related R
                 (if (List.length s' <? List.length s)%nat
                  then star_loop body n s' c' k else None)
                 (if (List.length s' <? List.length s)%nat
                  then star_loop body n s' c' k' else None)).
    { intros s' c'. destruct (_ <? _)%nat; [apply IH, Hk|exact I]. }
    specialize (H Hin).
    destruct (body s c _) as [x|], (body s c _) as [x'|]; cbn in H |- *;
      try contradiction; [exact H|apply Hk].
Qed.

(** The way through a pattern does not depend on what the continuation
    returns, only on whether it succeeds. *)
Lemma rmatch_related R r : forall s c k k',
  (forall s' c', related R (k s' c') (k' s' c')) ->
  related R (rmatch r s c k) (rmatch r s c k').
Proof.
  induction r as [|p|r1 IH1 r2 IH2|r1 IH1 r2 IH2|r IH|i r IH];
    intros s c k k' Hk; cbn [rmatch].
  - apply Hk.
  - destruct s as [|a s]; [exact I|]. destruct (p a); [apply Hk|exact I].
  - apply IH1. intros s' c'. apply IH2, Hk.
  - pose proof (IH1 s c k k' Hk) as H1.
    destruct (rmatch r1 s c k) as [x|], (rmatch r1 s c k') as [x'|];
      cbn in H1 |- *; try contradiction; [exact H1|apply IH2, Hk].
  - apply star_loop_related; [exact IH|exact Hk].
  - apply IH. intros s' c'. apply Hk.
Qed.

Lemma versionRegex_body : 
  versionRegex
  = Seq (Star (Cls is_space)) (Seq (Opt (ci_chr "v")) version_body).
Proof. reflexivity. Qed.

Lemma skip_optional_v a w c (k : cont) :
  is_digit a = true ->
  rmatch (Opt (ci_chr "v")) (a :: w) c k = k (a :: w) c.
Proof.
  destruct a as [[] [] [] [] [] [] [] []]; intros H; try discriminate H;
    reflexivity.
Qed.

Lemma digit_start a w c (k : cont) :
  is_digit a = true ->
  rmatch (Seq (Star (Cls is_space)) (Seq (Opt (ci_chr "v")) version_body))
         (a :: w) c k
  = rmatch version_body (a :: w) c k.
Proof.
  destruct a as [[] [] [] [] [] [] [] []]; intros H; try discriminate H;
    reflexivity.
Qed.

Lemma leading_accepted sp vopt a w c (k : cont) x :
  spaces sp -> vopt = [] \/ vopt = ["v"%char] \/ vopt = ["V"%char] ->
  is_digit a = true ->
  rmatch version_body (a :: w) c k = Some x ->
  rmatch (Seq (Star (Cls is_space)) (Seq (Opt (ci_chr "v")) version_body))
         (sp ++ vopt ++ a :: w) c k = Some x.
Proof.
  intros Hsp Hv Ha H.
  cbn [rmatch].
  change (star_loop (rmatch (Cls is_space))
            (List.length (sp ++ vopt ++ a :: w)) (sp ++ vopt ++ a :: w) c ?K)
    with (rmatch (Star (Cls is_space)) (sp ++ vopt ++ a :: w) c K).
  apply (@Accepts_Star_Cls is_space sp (vopt ++ a :: w) c).
  - exact Hsp.
  - destruct Hv as [-> | [-> | ->]]; cbn [app stops]; try reflexivity.
    revert Ha. destruct a as [[] [] [] [] [] [] [] []]; vm_compute; congruence.
  - destruct Hv as [-> | [-> | ->]]; cbn [app].
    + change (rmatch (Opt (ci_chr "v")) (a :: w) c
                (fun s' c' => rmatch version_body s' c' k) = Some x).
      rewrite skip_optional_v by exact Ha. exact H.
    + change (rmatch (Opt (Cls (same_letter "v"))) (["v"%char] ++ a :: w) c
                (fun s' c' => rmatch version_body s' c' k) = Some x).
      apply (@Accepts_Opt_some (Cls (same_letter "v")) ["v"%char] (a :: w) c c);
        [apply Accepts_Cls; reflexivity|exact H].
    + change (rmatch (Opt (Cls (same_letter "v"))) (["V"%char] ++ a :: w) c
                (fun s' c' => rmatch version_body s' c' k) = Some x).
      apply (@Accepts_Opt_some (Cls (same_letter "v")) ["V"%char] (a :: w) c c);
        [apply Accepts_Cls; reflexivity|exact H].
Qed.

Lemma rmatch_Group i r s c (k : cont) :
  rmatch (Group i r) s c k
  = rmatch r s c
      (fun s' c' =>
         k s' (set_cap i (firstn (List.length s - List.length s') s) c')).
Proof. reflexivity. Qed.

Lemma parse_groups_whole_ignored m0 m0' ms :
  parse_groups fields_zero versionRegex_SubexpNames (m0 :: ms)
  = parse_groups fields_zero versionRegex_SubexpNames (m0' :: ms).
Proof.
  unfold versionRegex_SubexpNames. rewrite !parse_groups_cons.
  rewrite !(@parse_group_ignored fields_zero "") by auto. reflexivity.
Qed.

(** White space and one letter [v] or [V] before a version text that
    starts with a digit change nothing but the recorded input: the
    longer text parses whenever the shorter one does, to the same fields
    and the same key. *)
Theorem Parse_ignores_leading
        (sp vopt : string) (a : ascii) (u : string) (v : Version) :
  spaces (list_ascii_of_string sp) ->
  vopt = "" \/ vopt = "v" \/ vopt = "V" ->
  is_digit a = true ->
  Parse (String a u) = Some v ->
  Parse (sp ++ vopt ++ String a u)
  = Some {| epoch := epoch v; release := release v; pre := pre v;
            post := post v; dev := dev v; local := local v;
            vkey := vkey v; preReleaseIncluded := preReleaseIncluded v;
            original := (sp ++ vopt ++ String a u)%string |}.
Proof.
  intros Hsp Hv Ha P.
  unfold Parse in P |- *.
  destruct (FindStringSubmatch _ _ (String a u)) as [m|] eqn:E; [|discriminate].
  unfold FindStringSubmatch in E |- *.
  destruct (rmatch _ _ _ _) as [c0|] eqn:R; [|discriminate].
  injection E as <-.
  cbn [list_ascii_of_string] in R. rewrite rmatch_Group in R.
  rewrite versionRegex_body in R |- *. rewrite digit_start in R by exact Ha.
  rewrite !list_of_app. cbn [list_ascii_of_string].
  set (t := list_ascii_of_string sp ++ list_ascii_of_string vopt
            ++ a :: list_ascii_of_string u).
  rewrite rmatch_Group.
  set (K' := fun (s' : list ascii) (c' : caps) =>
               at_end s' (set_cap 0 (firstn (List.length t - List.length s') t) c')).
  assert (Hrel : related agree (Some c0)
                   (rmatch version_body (a :: list_ascii_of_string u) no_caps K')).
  { rewrite <- R. apply rmatch_related. intros s' c'. unfold K'.
    destruct s' as [|b s']; cbn [at_end related]; [|exact I].
    intros i Hi. unfold set_cap.
    destruct (Nat.eqb_spec i 0); [contradiction|reflexivity]. }
  destruct (rmatch version_body _ no_caps K') as [c0'|] eqn:R';
    cbn [related] in Hrel; [|contradiction].
  assert (Hv' : list_ascii_of_string vopt = []
                \/ list_ascii_of_string vopt = ["v"%char]
                \/ list_ascii_of_string vopt = ["V"%char]).
  { destruct Hv as [-> | [-> | ->]]; auto. }
  unfold t at 1.
  rewrite (@leading_accepted _ _ a _ no_caps K' c0' Hsp Hv' Ha R').
  cbn [versionRegex_NumSubexp seq map] in P |- *.
  rewrite (parse_groups_whole_ignored _ (string_of_list_ascii (c0 0%nat))).
  repeat match goal with
         | |- context [c0' ?i] =>
             lazymatch i with
             | 0%nat => fail
             | _ => rewrite <- (Hrel i) by discriminate
             end
         end.
  destruct (parse_groups _ _ _) as [f|]; [|discriminate].
  injection P as <-. reflexivity.
Qed.

Lemma Parse_ignores_leading_witness :
  exists v w,
    Parse "1.0rc1" = Some v /\ Parse "  v1.0rc1" = Some w /\
    vkey w = vkey v.
Proof.
  assert (Pv : Parse "1.0rc1" = Some _) by (vm_compute; reflexivity).
  eexists _, _. split; [exact Pv|]. split.
  - refine (@Parse_ignores_leading "  " "v" "1" ".0rc1" _ _ _ eq_refl Pv).
    + repeat constructor.
    + auto.
  - reflexivity.
Defined.

End LeadingText.
